(** * Linguera server: room store, signaling relay and translation pipeline

    A shallow embedding of the Node.js server of the repository (the file
    that opens with "Improved server.js with Python microservice
    integration") and the properties of its specification.

    Conventions of the embedding.
    - A JavaScript string is a Rocq [string]; one [ascii] stands for one
      UTF-16 code unit below 256 (ISO-8859-1).  On such strings [trim],
      [toLowerCase], [split], [includes] and the regular expressions used by
      the server are modelled exactly; text with code units above 255 is
      outside the model.
    - A JavaScript value read from JSON (request bodies, dictionary entries,
      backend replies) is a [jsval].
    - [Map] objects are insertion-ordered association lists ([JsMap]), since
      the server iterates over [rooms.entries()].
    - A handler is a function from the server state, its arguments and the
      answers of the environment (backend replies, clock readings) to the new
      state and the effects it performed (emissions, backend requests).
    - The files the server alone names and writes ([excludedWords.json],
      [translation_logs.json]) hold what it wrote to them last; reading and
      writing them is taken to succeed.  A file whose name is built from a
      value sent by a client (the log file of a room, the transcript of a
      room) belongs to the environment: what reading it gives and whether
      writing it succeeds are answers of the file system, since the name may
      point outside the directory, into a directory that does not exist, or
      at a file already written under another name. *)

From Stdlib Require Import String Ascii List ZArith Lia Bool Arith.
From Stdlib Require Import Permutation Sorted DecimalString.
From Stdlib Require DecimalPos.
Import ListNotations.
Open Scope string_scope.

(* ------------------------------------------------------------------ *)
(** ** Exceptions *)

(** A computation that may throw [new Error(msg)] (or a TypeError with that
    message); only [err.message] is ever inspected by the server. *)
Inductive result (A : Type) : Type :=
| Ok (a : A)
| Throw (message : string).
Arguments Ok {A} a.
Arguments Throw {A} message.

Definition bind {A B} (r : result A) (k : A -> result B) : result B :=
  match r with
  | Ok a => k a
  | Throw m => Throw m
  end.

Notation "'let*' x ':=' r 'in' k" := (bind r (fun x => k))
  (at level 10, x pattern, r at level 100, k at level 200).

(* ------------------------------------------------------------------ *)
(** ** JavaScript values and string primitives *)

Module Js.

(** Values as they come out of [JSON.parse].  [JOther] is any value that is
    neither nullish, boolean, integer nor string (a fraction, an array, an
    object): all the server ever asks of it is its truthiness and its
    conversion to a string. *)
Inductive jsval : Type :=
| JUndefined
| JNull
| JBool (b : bool)
| JNum (z : Z)
| JStr (s : string)
| JOther (isTruthy : bool) (repr : string).

Definition jsval_eq_dec (a b : jsval) : {a = b} + {a <> b}.
Proof.
  decide equality;
    auto using string_dec, Z.eq_dec, bool_dec.
Defined.

(** [!!v] *)
Definition truthy (v : jsval) : bool :=
  match v with
  | JUndefined | JNull => false
  | JBool b => b
  | JNum z => negb (z =? 0)%Z
  | JStr s => negb (s =? "")
  | JOther t _ => t
  end.

Definition isString (v : jsval) : bool :=
  match v with JStr _ => true | _ => false end.

Definition string_of_Z (z : Z) : string :=
  NilZero.string_of_int (Z.to_int z).

(** [`${v}`].  A number is written in decimal, as JavaScript does for an
    integer of magnitude below 10^21 (beyond, it uses the exponent
    notation, which is outside the model). *)
Definition toString (v : jsval) : string :=
  match v with
  | JUndefined => "undefined"
  | JNull => "null"
  | JBool true => "true"
  | JBool false => "false"
  | JNum z => string_of_Z z
  | JStr s => s
  | JOther _ r => r
  end.

(** [a || b] *)
Definition jsOr (a b : jsval) : jsval := if truthy a then a else b.

Definition code (c : ascii) : nat := nat_of_ascii c.

Definition inRange (lo hi : nat) (c : ascii) : bool :=
  ((lo <=? code c) && (code c <=? hi))%nat.

(** WhiteSpace and LineTerminator code units below 256: TAB, LF, VT, FF, CR,
    SP and NBSP.  This is what [trim] strips and what [\s] matches. *)
Definition isWhiteSpace (c : ascii) : bool :=
  inRange 9 13 c || (code c =? 32)%nat || (code c =? 160)%nat.

Fixpoint trimStart (s : string) : string :=
  match s with
  | EmptyString => EmptyString
  | String c s' => if isWhiteSpace c then trimStart s' else s
  end.

Fixpoint trimEnd (s : string) : string :=
  match s with
  | EmptyString => EmptyString
  | String c s' =>
      match trimEnd s' with
      | EmptyString => if isWhiteSpace c then EmptyString else String c EmptyString
      | r => String c r
      end
  end.

(** [s.trim()] *)
Definition trim (s : string) : string := trimEnd (trimStart s).

Definition isUpperLetter (c : ascii) : bool :=
  inRange 65 90 c || (inRange 192 222 c && negb (code c =? 215)%nat).

Definition isLowerLetter (c : ascii) : bool :=
  inRange 97 122 c || (inRange 224 254 c && negb (code c =? 247)%nat).

Definition lowerChar (c : ascii) : ascii :=
  if isUpperLetter c then ascii_of_nat (code c + 32) else c.

(** The [Canonicalize] operation of a case-insensitive regular expression
    without the [u] flag: the upper-case mapping when it is a single code
    unit.  The two code units below 256 whose upper case lies above 255
    (0xB5 and 0xFF) are the only ones mapped there, so leaving them in place
    gives the same comparisons. *)
Definition canonicalize (c : ascii) : ascii :=
  if isLowerLetter c then ascii_of_nat (code c - 32) else c.

Fixpoint mapString (f : ascii -> ascii) (s : string) : string :=
  match s with
  | EmptyString => EmptyString
  | String c s' => String (f c) (mapString f s')
  end.

(** [s.toLowerCase()] *)
Definition toLowerCase (s : string) : string := mapString lowerChar s.

(** [s.includes(sub)] *)
Fixpoint includes (sub s : string) : bool :=
  if prefix sub s then true
  else match s with
       | EmptyString => false
       | String _ s' => includes sub s'
       end.

(** [s.split(sep)] for a one-character separator. *)
Fixpoint splitChar (sep : ascii) (s : string) : list string :=
  match s with
  | EmptyString => [EmptyString]
  | String c s' =>
      if Ascii.eqb c sep then EmptyString :: splitChar sep s'
      else match splitChar sep s' with
           | [] => [String c EmptyString]
           | w :: ws => String c w :: ws
           end
  end.

(** [s.split(/\s+/)]: [inGap] tells that the previous code unit was white
    space, so that a run of white space separates only once. *)
Fixpoint splitWsFrom (inGap : bool) (s : string) : list string :=
  match s with
  | EmptyString => [EmptyString]
  | String c s' =>
      if isWhiteSpace c then
        if inGap then splitWsFrom true s'
        else EmptyString :: splitWsFrom true s'
      else match splitWsFrom false s' with
           | [] => [String c EmptyString]
           | w :: ws => String c w :: ws
           end
  end.

Definition splitWs (s : string) : list string := splitWsFrom false s.

(** [s.slice(0, n)] *)
Definition sliceTo (n : nat) (s : string) : string := substring 0 n s.

(** [s.replace(/-/g, '')] *)
Fixpoint removeDashes (s : string) : string :=
  match s with
  | EmptyString => EmptyString
  | String c s' =>
      if Ascii.eqb c "-" then removeDashes s' else String c (removeDashes s')
  end.

(** Digit value of a code unit in the given radix, as [parseInt] reads it. *)
Definition digitValue (radix : nat) (c : ascii) : option nat :=
  let d :=
    if inRange 48 57 c then Some (code c - 48)
    else if inRange 97 122 c then Some (code c - 87)
    else if inRange 65 90 c then Some (code c - 55)
    else None in
  match d with
  | Some v => if (v <? radix)%nat then Some v else None
  | None => None
  end.

(** The longest prefix of digits, read left to right; [None] when the
    prefix is empty. *)
Fixpoint readDigits (radix : nat) (acc : option Z) (s : string) : option Z :=
  match s with
  | EmptyString => acc
  | String c s' =>
      match digitValue radix c with
      | Some v =>
          readDigits radix
            (Some (match acc with
                   | Some a => a * Z.of_nat radix + Z.of_nat v
                   | None => Z.of_nat v
                   end)%Z) s'
      | None => acc
      end
  end.

Definition stripHexPrefix (s : string) : option string :=
  match s with
  | String "0" (String x s') =>
      if Ascii.eqb x "x" || Ascii.eqb x "X" then Some s' else None
  | _ => None
  end.

(** [parseInt(s)] with no radix argument; [None] is NaN.  The value is the
    mathematical integer that the digits write; JavaScript returns the
    double nearest to it, which is that integer up to 2^53 and a rounding of
    it beyond.  The server only compares the result with 0 and with the
    length of an array, or takes it as a bound, and rounding to the nearest
    double does not change the outcome of a comparison with an integer
    below 2^53. *)
Definition parseInt (s : string) : option Z :=
  let s1 := trimStart s in
  let '(negative, s2) :=
    match s1 with
    | String "-" r => (true, r)
    | String "+" r => (false, r)
    | _ => (false, s1)
    end in
  let magnitude :=
    match stripHexPrefix s2 with
    | Some r => readDigits 16 None r
    | None => readDigits 10 None s2
    end in
  match magnitude with
  | Some m => Some (if negative then (- m)%Z else m)
  | None => None
  end.

(** [parseInt(process.env.X) || dflt]: an unset variable, NaN and 0 all give
    the default. *)
Definition parseIntOr (env : option string) (dflt : Z) : Z :=
  match env with
  | None => dflt
  | Some s =>
      match parseInt s with
      | Some z => if (z =? 0)%Z then dflt else z
      | None => dflt
      end
  end.

End Js.
Export Js.

(* ------------------------------------------------------------------ *)
(** ** Insertion-ordered maps *)

(** A JavaScript [Map] (or the own properties of an object): an association
    list in insertion order.  [set] on a key that is present replaces the
    value in place, on a new key it appends; [entries] is the list itself. *)
Module JsMap.
Section WithKey.
Context {K V : Type} (eq_dec : forall a b : K, {a = b} + {a <> b}).

Fixpoint get (k : K) (m : list (K * V)) : option V :=
  match m with
  | [] => None
  | (k', v) :: m' => if eq_dec k k' then Some v else get k m'
  end.

Definition has (k : K) (m : list (K * V)) : bool :=
  match get k m with Some _ => true | None => false end.

Fixpoint set (k : K) (v : V) (m : list (K * V)) : list (K * V) :=
  match m with
  | [] => [(k, v)]
  | (k', v') :: m' =>
      if eq_dec k k' then (k', v) :: m' else (k', v') :: set k v m'
  end.

Fixpoint delete (k : K) (m : list (K * V)) : list (K * V) :=
  match m with
  | [] => []
  | (k', v') :: m' =>
      if eq_dec k k' then delete k m' else (k', v') :: delete k m'
  end.
End WithKey.
End JsMap.

(* ------------------------------------------------------------------ *)
(** ** The regular expressions of the dictionary pass *)

Module Regex.

(** [\w] without the [u] flag. *)
Definition isWordChar (c : ascii) : bool :=
  inRange 97 122 c || inRange 65 90 c || inRange 48 57 c || (code c =? 95)%nat.

(** The server builds two expressions from a dictionary term [w], after
    escaping every pattern character of [w] with a backslash:
    [new RegExp(`\\b${escaped}\\b`, 'gi')] and [new RegExp(escaped, 'gi')].
    Both match the code units of [w] literally, up to case; the first also
    asks for a word boundary on each side. *)
Record regex : Type := mkRegex {
  wordBounded : bool;
  literal : string
}.

(** Case-insensitive match of the literal at the head of [s]: the matched
    text and what follows it. *)
Fixpoint matchLiteral (lit s : string) : option (string * string) :=
  match lit with
  | EmptyString => Some (EmptyString, s)
  | String a lit' =>
      match s with
      | EmptyString => None
      | String c s' =>
          if Ascii.eqb (canonicalize a) (canonicalize c) then
            match matchLiteral lit' s' with
            | Some (m, r) => Some (String c m, r)
            | None => None
            end
          else None
      end
  end.

Definition isWordOpt (c : option ascii) : bool :=
  match c with Some x => isWordChar x | None => false end.

Definition headOpt (s : string) : option ascii :=
  match s with EmptyString => None | String c _ => Some c end.

Fixpoint lastOpt (dflt : option ascii) (s : string) : option ascii :=
  match s with
  | EmptyString => dflt
  | String c s' => lastOpt (Some c) s'
  end.

(** The assertion [\b] between the code unit [prev] and the head of [s]. *)
Definition boundaryAt (prev : option ascii) (s : string) : bool :=
  xorb (isWordOpt prev) (isWordOpt (headOpt s)).

(** A match that starts at the head of [s], the code unit before it being
    [prev]. *)
Definition matchAt (re : regex) (prev : option ascii) (s : string)
  : option (string * string) :=
  match matchLiteral (literal re) s with
  | Some (m, r) =>
      if wordBounded re then
        if boundaryAt prev s && boundaryAt (lastOpt prev m) r
        then Some (m, r) else None
      else Some (m, r)
  | None => None
  end.

Fixpoint testFrom (re : regex) (prev : option ascii) (s : string) : bool :=
  match matchAt re prev s with
  | Some _ => true
  | None =>
      match s with
      | EmptyString => false
      | String c s' => testFrom re (Some c) s'
      end
  end.

(** [re.test(s)] on a fresh expression ([lastIndex] is 0). *)
Definition test (re : regex) (s : string) : bool := testFrom re None s.

(** [GetSubstitution] for an expression without capture groups: [$$], [$&],
    [$`] and [$'] are expanded, any other [$] stands for itself. *)
Fixpoint expand (template matched before after : string) : string :=
  match template with
  | EmptyString => EmptyString
  | String c t =>
      if Ascii.eqb c "$" then
        match t with
        | String d t' =>
            if Ascii.eqb d "$" then String "$" (expand t' matched before after)
            else if Ascii.eqb d "&" then matched ++ expand t' matched before after
            else if Ascii.eqb d "`" then before ++ expand t' matched before after
            else if Ascii.eqb d "'" then after ++ expand t' matched before after
            else String c (expand t matched before after)
        | EmptyString => String c EmptyString
        end
      else String c (expand t matched before after)
  end.

(** [s.replace(re, template)] for a global expression: the matches are found
    left to right without overlap.  [before] is the text already scanned,
    [prev] its last code unit, [skip] the number of code units of the
    current match still to pass over. *)
Fixpoint replaceFrom (re : regex) (template : string)
    (before : string) (prev : option ascii) (skip : nat) (s : string)
    {struct s} : string :=
  match skip with
  | S k =>
      match s with
      | EmptyString => EmptyString
      | String c s' =>
          replaceFrom re template (before ++ String c EmptyString) (Some c) k s'
      end
  | O =>
      match matchAt re prev s with
      | Some (m, r) =>
          expand template m before r ++
          match s with
          | EmptyString => EmptyString
          | String c s' =>
              match m with
              | EmptyString =>
                  String c (replaceFrom re template
                              (before ++ String c EmptyString) (Some c) 0 s')
              | String _ m' =>
                  replaceFrom re template
                    (before ++ String c EmptyString) (Some c) (String.length m') s'
              end
          end
      | None =>
          match s with
          | EmptyString => EmptyString
          | String c s' =>
              String c (replaceFrom re template
                          (before ++ String c EmptyString) (Some c) 0 s')
          end
      end
  end.

Definition replace (re : regex) (template s : string) : string :=
  replaceFrom re template EmptyString None 0 s.

End Regex.

(* ------------------------------------------------------------------ *)
(** ** HTTP responses *)

Inductive body : Type :=
| BError (error : string)                         (* { error } *)
| BMessage (message : string) (wordCount : option nat)  (* { message, wordCount } *)
| BTranslated (translated : jsval).
    (* { translated }: as JSON, the object has no key when the value is undefined *)

Record response : Type := mkResponse {
  status : Z;
  payload : body
}.

(* ------------------------------------------------------------------ *)
(** ** Dictionary management *)

Module Dictionary.

(** A dictionary entry is a JSON object, e.g. [{ en: "colour", fr: "couleur" }]:
    its own properties in order. *)
Definition entry : Type := list (string * jsval).

(** [e[key]], among the own properties of the entry (what it inherits from
    [Object.prototype] is not modelled). *)
Definition prop (e : entry) (key : string) : jsval :=
  match JsMap.get string_dec key e with
  | Some v => v
  | None => JUndefined
  end.

(** [v?.trim()]: undefined on a nullish value, a TypeError on a value that has
    no [trim] method. *)
Definition optTrim (v : jsval) : result jsval :=
  match v with
  | JUndefined | JNull => Ok JUndefined
  | JStr s => Ok (JStr (trim s))
  | _ => Throw "trim is not a function"
  end.

(** The callback of [excludedWords.filter]. *)
Definition isValidEntry (targetLang : string) (e : entry) : result bool :=
  let* hasTargetLang := optTrim (prop e targetLang) in
  let* hasEnglish := optTrim (prop e "en") in
  Ok (truthy hasTargetLang && truthy hasEnglish).

Fixpoint filterValid (targetLang : string) (es : list entry)
  : result (list entry) :=
  match es with
  | [] => Ok []
  | e :: es' =>
      let* keep := isValidEntry targetLang e in
      let* rest := filterValid targetLang es' in
      Ok (if keep then e :: rest else rest)
  end.

(** [e[key].trim()] on an entry that passed the filter (the field is then a
    string). *)
Definition term (key : string) (e : entry) : string :=
  match prop e key with
  | JStr s => trim s
  | _ => EmptyString
  end.

(** The comparator given to [sort]:
    [b[targetLang].trim().length - a[targetLang].trim().length]. *)
Definition comparator (targetLang : string) (a b : entry) : Z :=
  (Z.of_nat (String.length (term targetLang b))
   - Z.of_nat (String.length (term targetLang a)))%Z.

(** [Array.prototype.sort] is stable: of two entries the comparator does not
    order, the one that came first stays first.  Under a comparator that
    compares one key this fixes the result, computed here by insertion. *)
Fixpoint insertSorted (cmp : entry -> entry -> Z) (e : entry)
    (sorted : list entry) : list entry :=
  match sorted with
  | [] => [e]
  | x :: xs =>
      if (cmp e x >? 0)%Z then x :: insertSorted cmp e xs
      else e :: x :: xs
  end.

Definition sort (cmp : entry -> entry -> Z) (es : list entry) : list entry :=
  fold_right (insertSorted cmp) [] es.

(** The body of [sortedWords.forEach]. *)
Definition replaceEntry (targetLang : string) (processedText : string)
    (wordEntry : entry) : string :=
  let targetWord := term targetLang wordEntry in
  let englishWord := term "en" wordEntry in
  let boundaryRegex := Regex.mkRegex true targetWord in
  if Regex.test boundaryRegex processedText then
    Regex.replace boundaryRegex englishWord processedText
  else
    let looseRegex := Regex.mkRegex false targetWord in
    Regex.replace looseRegex englishWord processedText.

(** [applyWordReplacements(text, targetLang)] over the table
    [excludedWords].  An exception can only come from the filter, before the
    text is touched; the [catch] then leaves [processedText = text]. *)
Definition applyWordReplacements (excludedWords : list entry)
    (text : jsval) (targetLang : string) : jsval :=
  match text with
  | JStr s =>
      if negb (truthy text) then text
      else
        match filterValid targetLang excludedWords with
        | Throw _ => text
        | Ok validEntries =>
            let sortedWords := sort (comparator targetLang) validEntries in
            JStr (fold_left (replaceEntry targetLang) sortedWords s)
        end
  | _ => text
  end.

(** The table in memory and the file [excludedWords.json]. *)
Record store : Type := mkStore {
  excludedWords : list entry;
  excludedWordsFile : list entry
}.

(** [saveExcludedWords()] *)
Definition saveExcludedWords (st : store) : store :=
  mkStore (excludedWords st) (excludedWords st).

(** [index < n] and [index >= n] on a number that may be NaN. *)
Definition numLt (index : option Z) (n : Z) : bool :=
  match index with Some z => (z <? n)%Z | None => false end.

Definition numGe (index : option Z) (n : Z) : bool :=
  match index with Some z => (z >=? n)%Z | None => false end.

(** [arr.splice(index, 1)]: the start is [ToIntegerOrInfinity(index)], which
    is 0 for NaN, counted from the end when negative and clamped to the
    array. *)
Definition splice1 {A} (index : option Z) (arr : list A) : list A :=
  let len := Z.of_nat (List.length arr) in
  let relative := match index with Some z => z | None => 0%Z end in
  let start :=
    if (relative <? 0)%Z then Z.max (len + relative) 0 else Z.min relative len in
  firstn (Z.to_nat start) arr ++ skipn (S (Z.to_nat start)) arr.

(** [app.delete('/api/dictionary/:index')] *)
Definition deleteWord (param : string) (st : store) : store * response :=
  let index := parseInt param in
  if numLt index 0 || numGe index (Z.of_nat (List.length (excludedWords st))) then
    (st, mkResponse 404 (BError "Word not found"))
  else
    let st1 := mkStore (splice1 index (excludedWords st)) (excludedWordsFile st) in
    let st2 := saveExcludedWords st1 in
    (st2, mkResponse 200
            (BMessage "Word deleted successfully"
               (Some (List.length (excludedWords st2))))).

End Dictionary.

(* ------------------------------------------------------------------ *)
(** ** Configuration *)

Record config : Type := mkConfig {
  maxTranslationLength : Z;
  maxRoomParticipants : Z
}.

(** The [config] object, from the two environment variables it reads with
    [parseInt(process.env.X) || default]. *)
Definition loadConfig (MAX_TRANSLATION_LENGTH MAX_ROOM_PARTICIPANTS : option string)
  : config :=
  mkConfig (parseIntOr MAX_TRANSLATION_LENGTH 5000)
           (parseIntOr MAX_ROOM_PARTICIPANTS 2).

Definition defaultConfig : config := loadConfig None None.

(* ------------------------------------------------------------------ *)
(** ** Translation API *)

Module Translate.

Inductive validation : Type :=
| Invalid (error : string)      (* { isValid: false, error } *)
| Valid (text : string).        (* { isValid: true, text } *)

(** [validateInput(text, maxLength)] *)
Definition validateInput (text : jsval) (maxLength : Z) : validation :=
  match text with
  | JStr s =>
      if negb (truthy text) then Invalid "Text is required and must be a string"
      else
        let trimmed := trim s in
        if (String.length trimmed =? 0)%nat then Invalid "Text cannot be empty"
        else if (Z.of_nat (String.length trimmed) >? maxLength)%Z then
          Invalid ("Text too long (max " ++ string_of_Z maxLength ++ " characters)")
        else Valid trimmed
  | _ => Invalid "Text is required and must be a string"
  end.

(** A record of [translation_logs.json]: a JSON object. *)
Definition logEntry : Type := list (string * jsval).

(** What the backend answers to [GET /health]. *)
Inductive healthReply : Type :=
| HealthFails                       (* fetch rejects, or the body is not a JSON object *)
| HealthNotOk                       (* a status outside 200-299 *)
| HealthOk (model_loaded : jsval).  (* 2xx with body { model_loaded } *)

(** The body of a reply of [POST /translate] whose status is not 2xx. *)
Inductive errorBody : Type :=
| Unparsable                  (* not JSON: the server substitutes { detail: 'Unknown error' } *)
| NullBody                    (* the JSON value null *)
| Detail (detail : jsval).    (* any other JSON value; [JUndefined] when it has no detail *)

(** What the backend answers to [POST /translate]. *)
Inductive translateReply : Type :=
| FetchRejects (message : string)     (* network error or time-out of the request *)
| NotOk (httpStatus : Z) (statusText : string) (b : errorBody)
| OkUnreadable (message : string)     (* 2xx, but reading the body as an object throws *)
| OkBody (translated_text : jsval).   (* 2xx with body { translated_text, ... } *)

(** The requests the server sends to the backend. *)
Inductive request : Type :=
| GetHealth
| PostTranslate (text source_lang target_lang : string).

(** The answers of the environment during one call of the route. *)
Record world : Type := mkWorld {
  health : healthReply;
  translation : translateReply;
  startTime : Z;            (* Date.now() before the backend call *)
  endTime : Z;              (* Date.now() after the dictionary pass *)
  isoBucket : string;       (* new Date().toISOString() in the route *)
  isoFile : string;         (* new Date().toISOString() in logTranslation *)
  istTimestamp : string;    (* istDate.toISOString() *)
  roomFileRead : list logEntry;
    (* the array read from the log file of the room; [] when the file does
       not exist or cannot be read or parsed *)
  roomFileWritten : bool
    (* whether fs.writeFileSync of the log file of the room succeeds *)
}.

Record state : Type := mkState {
  pythonServiceHealthy : jsval;
  excludedWords : list Dictionary.entry;
  roomLogs : list (string * list logEntry);
    (* translation-logs/<name>.json: what the server last wrote under each name *)
  mainLog : list logEntry                     (* translation_logs.json *)
}.

(** [checkPythonServiceHealth()]: the value it returns is also the new value
    of the flag. *)
Definition checkPythonServiceHealth (r : healthReply) : jsval :=
  match r with
  | HealthOk model_loaded => model_loaded
  | HealthNotOk => JBool false
  | HealthFails => JBool false
  end.

(** [translateWithPythonService(text, sourceLang, targetLang)], given the
    reply to its request; the caller reads [translatedText] only. *)
Definition translateWithPythonService (r : translateReply) : result jsval :=
  match r with
  | FetchRejects message => Throw message
  | NotOk _ statusText Unparsable =>
      Throw ("Translation failed: " ++ toString (jsOr (JStr "Unknown error") (JStr statusText)))
  | NotOk _ statusText NullBody =>
      Throw "Cannot read properties of null (reading 'detail')"
  | NotOk _ statusText (Detail detail) =>
      Throw ("Translation failed: " ++ toString (jsOr detail (JStr statusText)))
  | OkUnreadable message => Throw message
  | OkBody translated_text => Ok translated_text
  end.

(** The argument of [logTranslation]. *)
Record logArgs : Type := mkLogArgs {
  source : jsval;
  target : jsval;
  input : jsval;
  output : jsval;
  durationMs : Z;
  accuracy : option (nat * nat);   (* the quotient intersection / max, as a fraction *)
  roomId : jsval
}.

(** [new Date().toISOString().slice(0,10).replace(/-/g, '')] *)
Definition dateStr (iso : string) : string := removeDashes (sliceTo 10 iso).

(** [JSON.stringify] leaves out the keys whose value is [undefined]. *)
Definition stringified (o : list (string * jsval)) : list (string * jsval) :=
  filter (fun kv => match snd kv with JUndefined => false | _ => true end) o.

(** [logTranslation({ source, target, input, output, durationMs, accuracy, roomId })].
    The record is pushed on the array read from the file of the room and the
    array is written back; when that write throws, the error is caught and
    logged, and the file stays as it was.  The record is then added to the
    main log in the same way. *)
Definition logTranslation (a : logArgs) (w : world) (st : state) : state :=
  if negb (truthy (roomId a)) then st
  else
    let logEntry : logEntry :=
      stringified
        [ ("timestamp", JStr (istTimestamp w));
          ("source", source a);
          ("target", target a);
          ("input", input a);
          ("output", output a);
          ("durationMs", JNum (durationMs a)) ] in
    let filePath := toString (roomId a) ++ "-" ++ dateStr (isoFile w) ++ ".json" in
    let logs := (roomFileRead w ++ [logEntry])%list in
    mkState (pythonServiceHealthy st) (excludedWords st)
            (if roomFileWritten w
             then JsMap.set string_dec filePath logs (roomLogs st)
             else roomLogs st)
            (mainLog st ++ [logEntry])%list.

(** The body of a request: the fields the route destructures, [JUndefined]
    when absent. *)
Record call : Type := mkCall {
  text : jsval;
  csource : jsval;
  ctarget : jsval;
  reference : jsval;
  croomId : jsval
}.

(** A default of a destructuring pattern applies to [undefined] only. *)
Definition withDefault (v : jsval) (dflt : string) : jsval :=
  match v with JUndefined => JStr dflt | _ => v end.

(** [v.split('-')[0]] *)
Definition langCode (name : string) (v : jsval) : result string :=
  match v with
  | JStr s => Ok (hd EmptyString (splitChar "-" s))
  | JNull => Throw "Cannot read properties of null (reading 'split')"
  | JUndefined => Throw "Cannot read properties of undefined (reading 'split')"
  | _ => Throw (name ++ ".split is not a function")
  end.

(** [v.toLowerCase().split(/\s+/)] *)
Definition wordsOf (name : string) (v : jsval) : result (list string) :=
  match v with
  | JStr s => Ok (splitWs (toLowerCase s))
  | JNull => Throw "Cannot read properties of null (reading 'toLowerCase')"
  | JUndefined =>
      Throw "Cannot read properties of undefined (reading 'toLowerCase')"
  | _ => Throw (name ++ ".toLowerCase is not a function")
  end.

(** The accuracy block of the route: [null] without a reference. *)
Definition computeAccuracy (reference translatedText : jsval)
  : result (option (nat * nat)) :=
  if truthy reference then
    let* refWords := wordsOf "reference" reference in
    let* outWords := wordsOf "translatedText" translatedText in
    let intersection :=
      filter (fun word => existsb (String.eqb word) outWords) refWords in
    Ok (Some (List.length intersection,
              Nat.max (List.length refWords) (List.length outWords)))
  else Ok None.

(** The [catch] of the route. *)
Definition classify (message : string) : response :=
  if includes "timeout" message then
    mkResponse 504 (BError "Translation timeout - request took too long")
  else if includes "Translation failed" message then
    mkResponse 400 (BError message)
  else
    mkResponse 500 (BError "Translation service temporarily unavailable").

Record outcome : Type := mkOutcome {
  after : state;
  reply : response;
  requests : list request
}.

Definition setHealthy (v : jsval) (st : state) : state :=
  mkState v (excludedWords st) (roomLogs st) (mainLog st).

(** [app.post('/api/translate')] *)
Definition translateRoute (cfg : config) (st : state) (req : call) (w : world)
  : outcome :=
  let source := withDefault (csource req) "auto" in
  let target := withDefault (ctarget req) "en" in
  match validateInput (text req) (maxTranslationLength cfg) with
  | Invalid error => mkOutcome st (mkResponse 400 (BError error)) []
  | Valid validText =>
      let '(st1, probes, available) :=
        if negb (truthy (pythonServiceHealthy st)) then
          let healthCheck := checkPythonServiceHealth (health w) in
          (setHealthy healthCheck st, [GetHealth], truthy healthCheck)
        else (st, [], true) in
      if negb available then
        mkOutcome st1
          (mkResponse 503
             (BError "Translation service unavailable - Python microservice is not responding"))
          probes
      else
        match (let* sl := langCode "source" source in
               let* tl := langCode "target" target in
               Ok (sl, tl)) with
        | Throw message => mkOutcome st1 (classify message) probes
        | Ok (sl, tl) =>
            let sent := (probes ++ [PostTranslate validText sl tl])%list in
            match (let* translated := translateWithPythonService (translation w) in
                   let translatedText :=
                     Dictionary.applyWordReplacements (excludedWords st1) translated tl in
                   let* accuracy := computeAccuracy (reference req) translatedText in
                   Ok (translatedText, accuracy)) with
            | Throw message => mkOutcome st1 (classify message) sent
            | Ok (translatedText, accuracy) =>
                let durationMs := (endTime w - startTime w)%Z in
                let logRoomId :=
                  if negb (truthy (croomId req))
                  then JStr ("general-" ++ dateStr (isoBucket w))
                  else croomId req in
                let st2 :=
                  logTranslation
                    (mkLogArgs source target (text req) translatedText
                               durationMs accuracy logRoomId) w st1 in
                mkOutcome st2 (mkResponse 200 (BTranslated translatedText)) sent
            end
        end
  end.

End Translate.

(* ------------------------------------------------------------------ *)
(** ** Rooms and signaling (the socket.io handlers) *)

Module Rooms.

(** A JSON object received from or sent to a client. *)
Definition object : Type := list (string * jsval).

Definition field (o : object) (key : string) : jsval :=
  match JsMap.get string_dec key o with
  | Some v => v
  | None => JUndefined
  end.

(** A value of the [rooms] map: [{ participants, isPublic, lang }]. *)
Record room : Type := mkRoom {
  participants : list string;     (* socket ids, in joining order *)
  isPublic : bool;
  lang : jsval
}.

(** The global state the handlers work on.  [socketRooms] is [socket.rooms]
    for every socket that has joined a room: the set, in insertion order, of
    the socket.io rooms it is in; every socket is in the room named by its
    own id.  The keys of [rooms] are strings.  A key of [transcripts] is any
    truthy value a client sent as [msg.roomId]; keys are compared by value,
    as [Map] compares strings, numbers and booleans (for an object sent as
    room id, which [Map] compares by identity, every message is a key of its
    own, and the model merges the buffers of objects that print alike). *)
Record state : Type := mkState {
  rooms : list (jsval * room);
  transcripts : list (jsval * list object);
  agentAvailability : list (string * bool);
  socketRooms : list (string * list jsval)
}.

Definition initial : state := mkState [] [] [] [].

(** Whom an emission is addressed to. *)
Inductive target : Type :=
| Self (socket : string)                       (* socket.emit(...) *)
| To (room : jsval)                            (* io.to(room).emit(...) *)
| RoomExcept (room : jsval) (socket : string)  (* socket.to(room).emit(...) *)
| Everyone.                                    (* io.emit(...) *)

Inductive data : Type :=
| DNone
| DValue (v : jsval)
| DObject (o : object)
| DCount (n : nat)
| DMeetings (meetings : list (jsval * nat)).   (* [{ roomId, participants }] *)

(** What a handler does to the outside.  [SaveTranscript roomId log] is the
    call [fs.writeFileSync(filePath, content)] of [saveTranscript], the path
    being [transcripts/<roomId>-<Date.now()>.txt] and the content the lines
    of [log]: a request to the file system, which may refuse it (the path is
    built from the room id a client chose); the error is caught and logged,
    and the handler goes on as if the write had succeeded.  [Uncaught] is an
    exception that leaves the handler; the server installs nothing that
    catches it, and what Node.js does with it is outside the model. *)
Inductive effect : Type :=
| Emit (to : target) (event : string) (d : data)
| SaveTranscript (roomId : jsval) (log : list object)
| Uncaught (message : string).

Definition setRooms (r : list (jsval * room)) (st : state) : state :=
  mkState r (transcripts st) (agentAvailability st) (socketRooms st).

Definition setTranscripts (t : list (jsval * list object)) (st : state) : state :=
  mkState (rooms st) t (agentAvailability st) (socketRooms st).

(** [socket.rooms] *)
Definition roomsOf (socket : string) (st : state) : list jsval :=
  match JsMap.get string_dec socket (socketRooms st) with
  | Some rs => rs
  | None => [JStr socket]
  end.

Definition memberOf (r : jsval) (rs : list jsval) : bool :=
  existsb (fun x => if jsval_eq_dec r x then true else false) rs.

(** [socket.join(roomId)] *)
Definition socketJoin (socket : string) (roomId : jsval) (st : state) : state :=
  let rs := roomsOf socket st in
  mkState (rooms st) (transcripts st) (agentAvailability st)
    (JsMap.set string_dec socket
       (if memberOf roomId rs then rs else rs ++ [roomId])%list
       (socketRooms st)).

(** Whether the connected socket [socket] receives an emission addressed to
    [t]. *)
Definition receives (st : state) (socket : string) (t : target) : bool :=
  match t with
  | Self s => String.eqb s socket
  | To r => memberOf r (roomsOf socket st)
  | RoomExcept r s => negb (String.eqb s socket) && memberOf r (roomsOf socket st)
  | Everyone => true
  end.

Definition countAvailable (st : state) : nat :=
  List.length (filter (fun kv => snd kv) (agentAvailability st)).

(** [emitAgentsOnline()] *)
Definition emitAgentsOnline (st : state) : list effect :=
  [Emit Everyone "agents-online" (DCount (countAvailable st))].

(** The list sent with 'active-meetings'. *)
Definition activeMeetings (st : state) : list (jsval * nat) :=
  map (fun kr => (fst kr, List.length (participants (snd kr))))
    (filter (fun kr => isPublic (snd kr)
                       && (0 <? List.length (participants (snd kr)))%nat)
       (rooms st)).

(** [emitActiveMeetings()] *)
Definition emitActiveMeetings (st : state) : list effect :=
  [Emit Everyone "active-meetings" (DMeetings (activeMeetings st))].

Definition notSocket (socket : string) (id : string) : bool :=
  negb (String.eqb id socket).

(** [forwardToOther(roomId, senderId, event, payload)] *)
Definition forwardToOther (roomId : jsval) (senderId : string)
    (event : string) (payload : jsval) (st : state) : state * list effect :=
  match JsMap.get jsval_eq_dec roomId (rooms st) with
  | None => (st, [])
  | Some room =>
      match find (notSocket senderId) (participants room) with
      | Some other =>
          if truthy (JStr other) then (st, [Emit (To (JStr other)) event (DValue payload)])
          else (st, [])
      | None => (st, [])
      end
  end.

(** [saveTranscript(roomId)]: no write is made for an empty buffer. *)
Definition saveTranscript (roomId : jsval) (st : state) : list effect :=
  match JsMap.get jsval_eq_dec roomId (transcripts st) with
  | Some (m :: log) => [SaveTranscript roomId (m :: log)]
  | _ => []
  end.

(** [handleLeave(socket, roomId)] *)
Definition handleLeave (socket : string) (roomId : jsval) (st : state)
  : state * list effect :=
  match JsMap.get jsval_eq_dec roomId (rooms st) with
  | None => (st, [])
  | Some room =>
      let room1 :=
        mkRoom (filter (notSocket socket) (participants room))
               (isPublic room) (lang room) in
      let st1 := setRooms (JsMap.set jsval_eq_dec roomId room1 (rooms st)) st in
      let notice := [Emit (RoomExcept roomId socket) "user-disconnected" DNone] in
      if (List.length (participants room1) =? 0)%nat then
        let saved := saveTranscript roomId st1 in
        let st2 := setRooms (JsMap.delete jsval_eq_dec roomId (rooms st1)) st1 in
        let st3 :=
          setTranscripts (JsMap.delete jsval_eq_dec roomId (transcripts st2)) st2 in
        (st3, (notice ++ saved)%list)
      else (st1, notice)
  end.

(** The second argument of 'join', after the default [opts = {}] has taken
    the place of [undefined]: an object, of which the handler reads
    [isCreator] and [isPublic] ([JUndefined] when it has no such property,
    as for a number, a string or a boolean), or [null]. *)
Inductive joinOpts : Type :=
| mkJoinOpts (isCreatorValue isPublicValue : jsval)
| nullOpts.

(** [opts.isCreator] and [opts.isPublic] where [opts] is not [null]. *)
Definition isCreator (opts : joinOpts) : jsval :=
  match opts with
  | mkJoinOpts v _ => v
  | nullOpts => JUndefined
  end.

Definition optIsPublic (opts : joinOpts) : jsval :=
  match opts with
  | mkJoinOpts _ v => v
  | nullOpts => JUndefined
  end.

(** [v !== false] *)
Definition notFalse (v : jsval) : bool :=
  match v with JBool false => false | _ => true end.

Definition validRoomId (roomId : jsval) : bool :=
  truthy roomId && isString roomId.

(** [socket.on('createRoom')] *)
Definition onCreateRoom (socket : string) (roomId lang : jsval) (st : state)
  : state * list effect :=
  if negb (validRoomId roomId) then
    (st, [Emit (Self socket) "createRoomResult"
            (DObject [("success", JBool false); ("error", JStr "Invalid roomId")])])
  else if JsMap.has jsval_eq_dec roomId (rooms st) then
    (st, [Emit (Self socket) "createRoomResult"
            (DObject [("success", JBool false); ("error", JStr "Room already exists")])])
  else
    (setRooms (JsMap.set jsval_eq_dec roomId (mkRoom [] true lang) (rooms st)) st,
     [Emit (Self socket) "createRoomResult"
        (DObject [("success", JBool true); ("roomId", roomId)])]).

(** [socket.on('join')].  The options are read only when the room does not
    exist; reading a property of [null] throws a TypeError there, before
    anything is emitted or changed. *)
Definition onJoin (cfg : config) (socket : string) (roomId : jsval)
    (opts : joinOpts) (st : state) : state * list effect :=
  if negb (validRoomId roomId) then
    (st, [Emit (Self socket) "error" (DValue (JStr "Invalid roomId"))])
  else
    match JsMap.get jsval_eq_dec roomId (rooms st) with
    | None =>
        match opts with
        | nullOpts =>
            (st, [Uncaught "Cannot read properties of null (reading 'isCreator')"])
        | mkJoinOpts _ _ =>
            if truthy (isCreator opts) then
              let st1 :=
                setRooms (JsMap.set jsval_eq_dec roomId
                            (mkRoom [socket] (notFalse (optIsPublic opts)) JUndefined)
                            (rooms st)) st in
              (socketJoin socket roomId st1,
               [Emit (Self socket) "created" (DValue roomId)])
            else (st, [Emit (Self socket) "no-room" (DValue roomId)])
        end
    | Some room =>
        if (Z.of_nat (List.length (participants room)) >=? maxRoomParticipants cfg)%Z
        then (st, [Emit (Self socket) "full" (DValue roomId)])
        else
          let st1 := socketJoin socket roomId st in
          let room1 :=
            mkRoom (participants room ++ [socket])%list (isPublic room) (lang room) in
          let st2 := setRooms (JsMap.set jsval_eq_dec roomId room1 (rooms st1)) st1 in
          let n := List.length (participants room1) in
          let announced :=
            if (n =? 1)%nat then [Emit (Self socket) "created" (DValue roomId)]
            else if (n =? 2)%nat then
              [Emit (Self socket) "joined" (DValue roomId);
               Emit (To (match participants room1 with
                         | first :: _ => JStr first
                         | [] => JUndefined
                         end)) "user-joined" DNone]
            else [] in
          (st2, (announced ++ emitActiveMeetings st2)%list)
    end.

(** The signaling events. *)
Inductive kind : Type := Offer | Answer | IceCandidate.

(** The event name each of the three handlers passes to [forwardToOther]. *)
Definition eventName (k : kind) : string :=
  match k with
  | Offer => "offer"
  | Answer => "answer"
  | IceCandidate => "ice-candidate"
  end.


(** [socket.on('offer' | 'answer' | 'ice-candidate')] *)
Definition onSignal (k : kind) (socket : string) (payload roomId : jsval)
    (st : state) : state * list effect :=
  forwardToOther roomId socket (eventName k) payload st.

(** [socket.on('transcript')]; [now] is [Date.now()]. *)
Definition onTranscript (socket : string) (msg : object) (now : Z) (st : state)
  : state * list effect :=
  let roomId := field msg "roomId" in
  if negb (truthy roomId) then (st, [])
  else
    let log := match JsMap.get jsval_eq_dec roomId (transcripts st) with
               | Some l => l
               | None => []
               end in
    let stamped :=
      JsMap.set string_dec "timestamp" (jsOr (field msg "timestamp") (JNum now)) msg in
    let st1 :=
      setTranscripts
        (JsMap.set jsval_eq_dec roomId (log ++ [stamped])%list (transcripts st)) st in
    let type := field msg "type" in
    if negb (truthy type)
       || (if jsval_eq_dec type (JStr "translation") then false else true) then
      match JsMap.get jsval_eq_dec roomId (rooms st1) with
      | Some room =>
          match find (notSocket socket) (participants room) with
          | Some other =>
              if truthy (JStr other)
              then (st1, [Emit (To (JStr other)) "transcript" (DObject msg)])
              else (st1, [])
          | None => (st1, [])
          end
      | None => (st1, [])
      end
    else (st1, []).

(** [socket.on('local-translation')]; [None] is a message sent with no
    argument or with [null], of which [data.to] cannot be read. *)
Definition onLocalTranslation (data : option object) (now : Z) (st : state)
  : state * list effect :=
  match data with
  | None => (st, [Uncaught "Cannot read properties of undefined (reading 'to')"])
  | Some data =>
      if truthy (field data "to") then
        (st, [Emit (To (field data "to")) "local-translation"
                (DObject (JsMap.set string_dec "timestamp"
                            (jsOr (field data "timestamp") (JNum now)) data))])
      else (st, [])
  end.

(** [socket.on('leave')] *)
Definition onLeave (socket : string) (roomId : jsval) (st : state)
  : state * list effect :=
  let '(st1, notice) := handleLeave socket roomId st in
  let empty :=
    match JsMap.get jsval_eq_dec roomId (rooms st1) with
    | Some room => (List.length (participants room) =? 0)%nat
    | None => true
    end in
  let st2 :=
    if empty then
      let s := setRooms (JsMap.delete jsval_eq_dec roomId (rooms st1)) st1 in
      setTranscripts (JsMap.delete jsval_eq_dec roomId (transcripts s)) s
    else st1 in
  (st2, (notice ++ emitActiveMeetings st2)%list).

(** [socket.on('disconnecting')]: [handleLeave] for every room of
    [socket.rooms] but the socket's own. *)
Fixpoint leaveAll (socket : string) (rs : list jsval) (st : state)
  : state * list effect :=
  match rs with
  | [] => (st, [])
  | roomId :: rs' =>
      let '(st1, e1) :=
        if jsval_eq_dec roomId (JStr socket) then (st, [])
        else handleLeave socket roomId st in
      let '(st2, e2) := leaveAll socket rs' st1 in
      (st2, (e1 ++ e2)%list)
  end.

Definition onDisconnecting (socket : string) (st : state) : state * list effect :=
  leaveAll socket (roomsOf socket st) st.

(** [socket.on('disconnect')]: by then socket.io has taken the socket out of
    its rooms. *)
Definition onDisconnect (socket : string) (st : state) : state * list effect :=
  let st1 :=
    mkState (rooms st) (transcripts st) (agentAvailability st)
            (JsMap.delete string_dec socket (socketRooms st)) in
  (st1, (emitActiveMeetings st1 ++ emitAgentsOnline st1)%list).

(** [socket.on('agent-availability-changed')].  The table is a plain
    object: assigning a boolean to its property [__proto__] stores nothing. *)
Definition onAgentAvailabilityChanged (data : object) (st : state)
  : state * list effect :=
  if truthy (field data "email") then
    let key := toString (field data "email") in
    let st1 :=
      if String.eqb key "__proto__" then st
      else
        mkState (rooms st) (transcripts st)
          (JsMap.set string_dec key
             (truthy (field data "available")) (agentAvailability st))
          (socketRooms st) in
    (st1, emitAgentsOnline st1)
  else (st, []).

(** What a client can send, and the two events socket.io raises when the
    connection closes.  The periodic clean-up and the shutdown hook, which
    write to [transcripts] and [agentAvailability] but never to [rooms], are
    left out. *)
Inductive event : Type :=
| AgentAvailabilityChanged (data : object)
| GetAgentsOnline
| CreateRoom (roomId lang : jsval)
| Join (roomId : jsval) (opts : joinOpts)
| Signal (k : kind) (payload roomId : jsval)
| Transcript (msg : object) (now : Z)
| LocalTranslation (data : option object) (now : Z)
| Leave (roomId : jsval)
| GetActiveMeetings
| Disconnecting
| Disconnect
| ConnectionTimer.   (* the 500 ms timer set on 'connection' fires *)

(** The handler registered for each event of the socket [socket]. *)
Definition handle (cfg : config) (socket : string) (ev : event) (st : state)
  : state * list effect :=
  match ev with
  | AgentAvailabilityChanged d => onAgentAvailabilityChanged d st
  | GetAgentsOnline =>
      (st, [Emit (Self socket) "agents-online" (DCount (countAvailable st))])
  | CreateRoom roomId lang => onCreateRoom socket roomId lang st
  | Join roomId opts => onJoin cfg socket roomId opts st
  | Signal k payload roomId => onSignal k socket payload roomId st
  | Transcript msg now => onTranscript socket msg now st
  | LocalTranslation d now => onLocalTranslation d now st
  | Leave roomId => onLeave socket roomId st
  | GetActiveMeetings =>
      (st, [Emit (Self socket) "active-meetings" (DMeetings (activeMeetings st))])
  | Disconnecting => onDisconnecting socket st
  | Disconnect => onDisconnect socket st
  | ConnectionTimer =>
      (st, [Emit (Self socket) "agents-online" (DCount (countAvailable st))])
  end.

(** The server run on a sequence of events, each with the socket it comes
    from: the final state and everything emitted on the way. *)
Fixpoint run (cfg : config) (evs : list (string * event)) (st : state)
  : state * list effect :=
  match evs with
  | [] => (st, [])
  | (socket, ev) :: evs' =>
      let '(st1, e1) := handle cfg socket ev st in
      let '(st2, e2) := run cfg evs' st1 in
      (st2, (e1 ++ e2)%list)
  end.

(** The states the server can be in. *)
Definition reachable (cfg : config) (st : state) : Prop :=
  exists evs, fst (run cfg evs initial) = st.

End Rooms.

(* ------------------------------------------------------------------ *)
(** ** Sample data *)

Module Samples.

(** Dictionary entries. *)
Definition colour : Dictionary.entry := [("en", JStr "color"); ("fr", JStr "colour")].
Definition colourful : Dictionary.entry :=
  [("en", JStr "colorful"); ("fr", JStr "colourful")].
Definition hue : Dictionary.entry := [("en", JStr "hue"); ("fr", JStr "colour")].
Definition vivid : Dictionary.entry := [("en", JStr "vivid"); ("fr", JStr "colourful")].

(** Join options of the client: the creator of a room and a joiner. *)
Definition asCreator : Rooms.joinOpts := Rooms.mkJoinOpts (JBool true) JUndefined.
Definition asJoiner : Rooms.joinOpts := Rooms.mkJoinOpts (JBool false) JUndefined.

(** Socket A has created room "r1" and socket B has joined it. *)
Definition twoParty : Rooms.state :=
  fst (Rooms.run defaultConfig
         [("A", Rooms.Join (JStr "r1") asCreator);
          ("B", Rooms.Join (JStr "r1") asJoiner)]
         Rooms.initial).

(** A translation server with an empty dictionary and empty logs. *)
Definition idle (healthy : bool) : Translate.state :=
  Translate.mkState (JBool healthy) [] [] [].

(** An environment: the two backend replies, with fixed clock readings, no
    log file yet for the room and a file system that accepts the write. *)
Definition env (h : Translate.healthReply) (t : Translate.translateReply)
  : Translate.world :=
  Translate.mkWorld h t 1000 1030
    "2025-01-02T03:04:05.000Z" "2025-01-02T03:04:05.000Z"
    "2025-01-02T08:34:05.000Z" [] true.

(** The same, with a file system that refuses the write of the room's log
    file (its name leads into a directory that does not exist, say). *)
Definition refusing (h : Translate.healthReply) (t : Translate.translateReply)
  : Translate.world :=
  Translate.mkWorld h t 1000 1030
    "2025-01-02T03:04:05.000Z" "2025-01-02T03:04:05.000Z"
    "2025-01-02T08:34:05.000Z" [] false.

(** A request body with a text only, and one with a reference too. *)
Definition plain (text : string) : Translate.call :=
  Translate.mkCall (JStr text) JUndefined JUndefined JUndefined JUndefined.

Definition withReference (text reference : string) : Translate.call :=
  Translate.mkCall (JStr text) JUndefined JUndefined (JStr reference) JUndefined.

Fixpoint repeatChar (c : ascii) (n : nat) : string :=
  match n with
  | O => EmptyString
  | S n' => String c (repeatChar c n')
  end.

(** 5000 letters, and the same after a space. *)
Definition letters : string := repeatChar "a" (50 * 100).
Definition padded : string := String " " letters.

End Samples.

(* ------------------------------------------------------------------ *)
(** ** Predicates of the specification *)

Module Spec.

(** Every room of the store holds at most the configured number of
    participants. *)
Definition withinCapacity (cfg : config) (st : Rooms.state) : Prop :=
  Forall (fun kr =>
            (Z.of_nat (List.length (Rooms.participants (snd kr)))
             <= maxRoomParticipants cfg)%Z)
         (Rooms.rooms st).

(** Every key of the store is a non-empty string. *)
Definition keysValid (st : Rooms.state) : Prop :=
  Forall (fun kr => Rooms.validRoomId (fst kr) = true) (Rooms.rooms st).

(** The notifications a connected socket receives out of a list of effects,
    under the room memberships of [st]. *)
Definition received (st : Rooms.state) (socket : string)
    (effects : list Rooms.effect) : list (string * Rooms.data) :=
  flat_map (fun e =>
              match e with
              | Rooms.Emit t event d =>
                  if Rooms.receives st socket t then [(event, d)] else []
              | Rooms.SaveTranscript _ _ => []
              | Rooms.Uncaught _ => []
              end) effects.



(** Both, for one entry of the store. *)
Definition roomOk (cfg : config) (kr : jsval * Rooms.room) : Prop :=
  (Z.of_nat (List.length (Rooms.participants (snd kr)))
   <= maxRoomParticipants cfg)%Z
  /\ Rooms.validRoomId (fst kr) = true.

Definition allOk (cfg : config) (st : Rooms.state) : Prop :=
  Forall (roomOk cfg) (Rooms.rooms st).

(** An entry has a form under [key]: a string that is not blank. *)
Definition hasText (key : string) (e : Dictionary.entry) : bool :=
  match Dictionary.prop e key with
  | JStr s => negb (trim s =? "")
  | _ => false
  end.

(** A field on which [?.trim()] does not throw: a string, or nothing. *)
Definition trimmable (v : jsval) : bool :=
  match v with
  | JUndefined | JNull | JStr _ => true
  | _ => false
  end.

Definition wellTyped (targetLang : string) (e : Dictionary.entry) : Prop :=
  trimmable (Dictionary.prop e targetLang) = true
  /\ trimmable (Dictionary.prop e "en") = true.

(** Two texts that differ by the case of their letters only. *)
Definition sameUpToCase (a b : string) : Prop :=
  mapString canonicalize a = mapString canonicalize b.

(** The text holds an occurrence of the literal of [re], up to case and, for
    a word-bounded expression, with a word boundary on each side. *)
Definition HasMatch (re : Regex.regex) (text : string) : Prop :=
  exists before m rest,
    text = before ++ m ++ rest
    /\ sameUpToCase (Regex.literal re) m
    /\ (Regex.wordBounded re = true ->
        Regex.boundaryAt (Regex.lastOpt None before) (m ++ rest) = true
        /\ Regex.boundaryAt (Regex.lastOpt (Regex.lastOpt None before) m) rest
           = true).

(** An occurrence [m] of the literal of [re] in the text
    [before ++ m ++ after]: [m] is the literal up to case and, for a
    word-bounded expression, there is a word boundary on each side of it. *)
Definition Occurrence (re : Regex.regex) (before m after : string) : Prop :=
  sameUpToCase (Regex.literal re) m
  /\ (Regex.wordBounded re = true ->
      Regex.boundaryAt (Regex.lastOpt None before) (m ++ after) = true
      /\ Regex.boundaryAt (Regex.lastOpt (Regex.lastOpt None before) m) after
         = true).

(** No occurrence begins within [gap], in the text [before ++ gap ++ rest]. *)
Definition NoneBegins (re : Regex.regex) (before gap rest : string) : Prop :=
  forall b1 b2 m after,
    gap = b1 ++ b2 -> b2 <> "" -> b2 ++ rest = m ++ after ->
    ~ Occurrence re (before ++ b1) m after.

(** [Substituted re english before text out]: [out] is [text] in which the
    occurrences of the literal of [re], taken from left to right and without
    overlap, have each been replaced by the English form (in which the
    patterns of a replacement string are expanded: [$&] is the occurrence,
    [$$] a dollar sign, and so on); [before] is what precedes [text]. *)
Inductive Substituted (re : Regex.regex) (english : string)
  : string -> string -> string -> Prop :=
| Substituted_none (before text : string) :
    NoneBegins re before text "" ->
    Substituted re english before text text
| Substituted_next (before gap m after out : string) :
    NoneBegins re before gap (m ++ after) ->
    Occurrence re (before ++ gap) m after ->
    Substituted re english (before ++ gap ++ m) after out ->
    Substituted re english before (gap ++ m ++ after)
      (gap ++ Regex.expand english m (before ++ gap) after ++ out).

(** Length of the localized form of an entry, as the sort compares it. *)
Definition termLength (targetLang : string) (e : Dictionary.entry) : nat :=
  String.length (Dictionary.term targetLang e).

(** The entries the pass keeps: a localized form and an English form. *)
Definition kept (targetLang : string) (e : Dictionary.entry) : bool :=
  hasText targetLang e && hasText "en" e.

(** The order of processing: no entry comes after a shorter one. *)
Definition longerFirst (targetLang : string) (a b : Dictionary.entry) : Prop :=
  (termLength targetLang b <= termLength targetLang a)%nat.

Definition ofLength (targetLang : string) (n : nat) (e : Dictionary.entry)
  : bool :=
  (termLength targetLang e =? n)%nat.

(** The input holds the localized term of [longer], the term of [shorter]
    is a proper part of it, and in the output that part alone has been
    replaced by the English form of [shorter]. *)
Definition partlyReplaced (targetLang : string)
    (longer shorter : Dictionary.entry) (input output : string) : Prop :=
  exists l r pre post outPre outPost,
    Dictionary.term targetLang longer
    = l ++ Dictionary.term targetLang shorter ++ r
    /\ (termLength targetLang shorter < termLength targetLang longer)%nat
    /\ input = pre ++ Dictionary.term targetLang longer ++ post
    /\ output = outPre ++ (l ++ Dictionary.term "en" shorter ++ r) ++ outPost.

End Spec.

(* ------------------------------------------------------------------ *)
(** ** Dictionary routes: add and clear *)

Module DictionaryApi.
Import Dictionary.

(** [v?.toLowerCase()] *)
Definition optLower (v : jsval) : result jsval :=
  match v with
  | JUndefined | JNull => Ok JUndefined
  | JStr s => Ok (JStr (toLowerCase s))
  | _ => Throw "word.en?.toLowerCase is not a function"
  end.

(** [v.toLowerCase()] *)
Definition lower (v : jsval) : result string :=
  match v with
  | JStr s => Ok (toLowerCase s)
  | JNull => Throw "Cannot read properties of null (reading 'toLowerCase')"
  | JUndefined =>
      Throw "Cannot read properties of undefined (reading 'toLowerCase')"
  | _ => Throw "wordEntry.en.toLowerCase is not a function"
  end.

(** The callback of [findIndex]:
    [word.en?.toLowerCase() === wordEntry.en.toLowerCase()]. *)
Definition sameEnglish (wordEntry word : entry) : result bool :=
  let* mine := optLower (prop word "en") in
  let* theirs := lower (prop wordEntry "en") in
  Ok (if jsval_eq_dec mine (JStr theirs) then true else false).

(** [arr.findIndex(f)]; [None] is -1. *)
Fixpoint findIndex (f : entry -> result bool) (arr : list entry)
  : result (option nat) :=
  match arr with
  | [] => Ok None
  | word :: rest =>
      let* found := f word in
      if found then Ok (Some O)
      else
        let* later := findIndex f rest in
        Ok (match later with Some i => Some (S i) | None => None end)
  end.

(** [{ ...old, ...extra }] *)
Definition spread (old extra : entry) : entry :=
  fold_left (fun acc kv => JsMap.set string_dec (fst kv) (snd kv) acc) extra old.

(** [arr[i] = v] for an index within the array. *)
Fixpoint assign (i : nat) (v : entry) (arr : list entry) : list entry :=
  match arr, i with
  | [], _ => []
  | _ :: rest, O => v :: rest
  | x :: rest, S j => x :: assign j v rest
  end.

(** [app.post('/api/dictionary')], [wordEntry] being the body of the
    request. *)
Definition addWord (wordEntry : entry) (st : store) : store * response :=
  if negb (truthy (prop wordEntry "en")) then
    (st, mkResponse 400 (BError "English word is required"))
  else
    match findIndex (sameEnglish wordEntry) (excludedWords st) with
    | Throw _ => (st, mkResponse 500 (BError "Failed to add word"))
    | Ok existingIndex =>
        let words :=
          match existingIndex with
          | Some i =>
              assign i (spread (nth i (excludedWords st) []) wordEntry)
                (excludedWords st)
          | None => (excludedWords st ++ [wordEntry])%list
          end in
        let st1 := saveExcludedWords (mkStore words (excludedWordsFile st)) in
        (st1, mkResponse 200
                (BMessage "Word added successfully"
                   (Some (List.length (excludedWords st1)))))
    end.

(** [app.delete('/api/dictionary')] *)
Definition clearWords (st : store) : store * response :=
  let st1 := saveExcludedWords (mkStore [] (excludedWordsFile st)) in
  (st1, mkResponse 200 (BMessage "Dictionary cleared successfully" None)).

End DictionaryApi.

(* ------------------------------------------------------------------ *)
(** ** Service status route and shutdown *)

Module Lifecycle.

(** [app.get('/api/python-service-status')]: the probe, its answer stored in
    the flag and reported as [healthy]. *)
Definition statusRoute (st : Translate.state) (w : Translate.world)
  : Translate.state * jsval :=
  let isHealthy := Translate.checkPythonServiceHealth (Translate.health w) in
  (Translate.setHealthy isHealthy st, isHealthy).

(** The writes [gracefulShutdown] asks for: [saveTranscript(roomId)] for
    every key of [rooms]. *)
Definition gracefulShutdown (st : Rooms.state) : list Rooms.effect :=
  flat_map (fun kr => Rooms.saveTranscript (fst kr) st) (Rooms.rooms st).

(** The transcripts there are on disk once the write requests among
    [effects] have been answered, [accepts roomId] telling whether the file
    system accepts the write of the transcript of the room [roomId]. *)
Definition onDisk (accepts : jsval -> bool) (effects : list Rooms.effect)
  : list (jsval * list Rooms.object) :=
  flat_map (fun e =>
              match e with
              | Rooms.SaveTranscript roomId log =>
                  if accepts roomId then [(roomId, log)] else []
              | _ => []
              end) effects.

(** A file system in which the directory of the transcripts has no
    sub-directory: it refuses a name that holds a path separator. *)
Definition flat (roomId : jsval) : bool := negb (includes "/" (toString roomId)).

End Lifecycle.

(* ------------------------------------------------------------------ *)
(** ** Client helpers *)

Module Client.

(** [s.replace(/c/g, by)] for one code unit [c]. *)
Fixpoint replaceChar (c : ascii) (by_ : string) (s : string) : string :=
  match s with
  | EmptyString => EmptyString
  | String x s' =>
      if Ascii.eqb x c then by_ ++ replaceChar c by_ s'
      else String x (replaceChar c by_ s')
  end.

Definition apostrophe : ascii := ascii_of_nat 39.
Definition doubleQuote : ascii := ascii_of_nat 34.

(** [escapeHtml(str)] of meetings.js: in [String(str)], every apostrophe
    becomes the entity &#39; and then every double quote the entity
    &quot;. *)
Definition escapeHtml (str : jsval) : string :=
  replaceChar doubleQuote "&quot;"
    (replaceChar apostrophe "&#39;" (toString str)).

(** The Join button of a listed meeting: [m.participants >= 2]. *)
Definition joinDisabled (participants : nat) : bool := (2 <=? participants)%nat.

(** The target language the 'transcript' handler of sockets.js picks for a
    message in language [source] shown to a user whose language is
    [localLang]; [None] is [null]. *)
Definition pairs (a b : string) (source localLang : string) : bool :=
  (String.eqb source a && String.eqb localLang b)
  || (String.eqb source b && String.eqb localLang a).

Definition translationTarget (source localLang : string) : option string :=
  if negb (String.eqb source localLang) then
    if pairs "en" "hi" source localLang then Some localLang
    else if pairs "en" "fr" source localLang then Some localLang
    else if pairs "en" "es" source localLang then Some localLang
    else if pairs "en" "de" source localLang then Some localLang
    else None
  else None.

(** The body [{ text, source, target }] the handler posts to
    [/api/translate] for a message [{ transcript, language }], the language
    select showing [selected]; [None] when it posts nothing.  A language
    that is truthy but not a string makes [split] throw. *)
Definition translationRequest (transcript language : jsval) (selected : string)
  : result (option Translate.call) :=
  let localLang := hd EmptyString (splitChar "-" selected) in
  let* source := Translate.langCode "(msg.language || '')"
                   (jsOr language (JStr EmptyString)) in
  match translationTarget source localLang with
  | Some target =>
      if truthy (JStr source) && truthy (JStr target) then
        Ok (Some (Translate.mkCall transcript (JStr source) (JStr target)
                    JUndefined JUndefined))
      else Ok None
  | None => Ok None
  end.

(** The [utter.lang] that [playTranslatedAudio(text, language)] sets; [None]
    when it leaves the default. *)
Definition voiceLang (language : string) : option string :=
  let l := toLowerCase language in
  if prefix "en" l then Some "en-IN"
  else if prefix "hi" l then Some "hi-IN"
  else if prefix "fr" l then Some "fr-FR"
  else if prefix "es" l then Some "es-ES"
  else if prefix "de" l then Some "de-DE"
  else None.

End Client.

(* ------------------------------------------------------------------ *)
(** ** Decimal digits *)

Module Digits.

Definition isDigit (c : ascii) : bool := inRange 48 57 c.

Fixpoint allDigits (s : string) : bool :=
  match s with
  | EmptyString => true
  | String c s' => isDigit c && allDigits s'
  end.

End Digits.

(* ------------------------------------------------------------------ *)
(** ** More sample data *)

Module Scenarios.



(** The same in a room whose id holds a path separator. *)
Definition slashed : Rooms.state :=
  fst (Rooms.run defaultConfig
         [("A", Rooms.Join (JStr "a/b") Samples.asCreator);
          ("A", Rooms.Transcript
                  [("roomId", JStr "a/b"); ("sender", JStr "A");
                   ("transcript", JStr "hello")] 1700000000000)]
         Rooms.initial).

End Scenarios.

(* ------------------------------------------------------------------ *)
(** * Properties *)

(** ** The primitives on sample inputs *)

Example trim_padded : trim "  hello world " = "hello world".
Proof. reflexivity. Qed.
Example splitWs_gaps : splitWs " a  b " = [""; "a"; "b"; ""].
Proof. reflexivity. Qed.
Example parseInt_prefix : parseInt " 12px" = Some 12%Z.
Proof. reflexivity. Qed.
Example parseInt_hex : parseInt "-0x1F" = Some (-31)%Z.
Proof. reflexivity. Qed.
Example parseInt_nan : parseInt "abc" = None.
Proof. reflexivity. Qed.
Example toString_num : toString (JNum 42) = "42".
Proof. reflexivity. Qed.

Example replace_whole_word :
  Regex.replace (Regex.mkRegex true "cat") "dog" "Cat concat cat." = "dog concat dog.".
Proof. reflexivity. Qed.
Example replace_loose :
  Regex.replace (Regex.mkRegex false "cat") "dog" "Cat concat cat." = "dog condog dog.".
Proof. reflexivity. Qed.
Example replace_dollar :
  Regex.replace (Regex.mkRegex false "b") "[$&$$$'$`]" "abc" = "a[b$ca]c".
Proof. reflexivity. Qed.
Example replace_no_overlap :
  Regex.replace (Regex.mkRegex false "aba") "x" "ababa" = "xba".
Proof. reflexivity. Qed.

Module DictionaryExamples.
Import Dictionary Samples.

Example longest_first :
  applyWordReplacements [colour; colourful] (JStr "A Colourful colour") "fr"
  = JStr "A colorful color".
Proof. reflexivity. Qed.

Example spec_example :
  applyWordReplacements [colour; colourful] (JStr "colourful") "fr"
  = JStr "colorful".
Proof. reflexivity. Qed.

Example non_string_field_aborts :
  applyWordReplacements [colour; [("en", JStr "x"); ("fr", JNum 5)]]
    (JStr "colour") "fr" = JStr "colour".
Proof. reflexivity. Qed.

Example delete_second :
  deleteWord "1" (mkStore [colour; colourful] [])
  = (mkStore [colour] [colour],
     mkResponse 200 (BMessage "Word deleted successfully" (Some 1))).
Proof. reflexivity. Qed.

Example delete_out_of_range :
  snd (deleteWord "2" (mkStore [colour; colourful] []))
  = mkResponse 404 (BError "Word not found").
Proof. reflexivity. Qed.

End DictionaryExamples.

Module RoomsExamples.
Import Rooms Samples.

(** A creates "r1", B joins it, A sends an offer, B disconnects. *)
Example two_party_call :
  run defaultConfig
    [("A", Join (JStr "r1") asCreator);
     ("B", Join (JStr "r1") asJoiner);
     ("A", Signal Offer (JStr "sdp") (JStr "r1"));
     ("B", Disconnecting);
     ("B", Disconnect)]
    initial
  = (mkState [(JStr "r1", mkRoom ["A"] true JUndefined)] [] []
       [("A", [JStr "A"; JStr "r1"])],
     [Emit (Self "A") "created" (DValue (JStr "r1"));
      Emit (Self "B") "joined" (DValue (JStr "r1"));
      Emit (To (JStr "A")) "user-joined" DNone;
      Emit Everyone "active-meetings" (DMeetings [(JStr "r1", 2%nat)]);
      Emit (To (JStr "B")) "offer" (DValue (JStr "sdp"));
      Emit (RoomExcept (JStr "r1") "B") "user-disconnected" DNone;
      Emit Everyone "active-meetings" (DMeetings [(JStr "r1", 1%nat)]);
      Emit Everyone "agents-online" (DCount 0)]).
Proof. reflexivity. Qed.

(** The last participant leaves: the transcript is saved, the room and its
    buffer are deleted. *)
Example last_leave_saves_transcript :
  run defaultConfig
    [("A", Join (JStr "r1") asCreator);
     ("A", Transcript [("roomId", JStr "r1"); ("transcript", JStr "hello")] 7);
     ("A", Leave (JStr "r1"))]
    initial
  = (mkState [] [] [] [("A", [JStr "A"; JStr "r1"])],
     [Emit (Self "A") "created" (DValue (JStr "r1"));
      Emit (RoomExcept (JStr "r1") "A") "user-disconnected" DNone;
      SaveTranscript (JStr "r1")
        [[("roomId", JStr "r1"); ("transcript", JStr "hello");
          ("timestamp", JNum 7)]];
      Emit Everyone "active-meetings" (DMeetings [])]).
Proof. reflexivity. Qed.

End RoomsExamples.

Module TranslateExamples.
Import Translate Samples.

(** The call of the specification: "hello world" to Hindi for room42. *)
Example translate_for_room :
  translateRoute defaultConfig (idle true)
    (mkCall (JStr "hello world") (JStr "en") (JStr "hi") JUndefined (JStr "room42"))
    (env HealthFails (OkBody (JStr "namaste duniya")))
  = mkOutcome
      (mkState (JBool true) []
         [("room42-20250102.json",
           [[("timestamp", JStr "2025-01-02T08:34:05.000Z");
             ("source", JStr "en"); ("target", JStr "hi");
             ("input", JStr "hello world");
             ("output", JStr "namaste duniya");
             ("durationMs", JNum 30)]])]
         [[("timestamp", JStr "2025-01-02T08:34:05.000Z");
           ("source", JStr "en"); ("target", JStr "hi");
           ("input", JStr "hello world");
           ("output", JStr "namaste duniya");
           ("durationMs", JNum 30)]])
      (mkResponse 200 (BTranslated (JStr "namaste duniya")))
      [PostTranslate "hello world" "en" "hi"].
Proof. reflexivity. Qed.

(** A room id that leads the log file into a directory that does not
    exist: the call succeeds and the main log gets the record, but the write
    of the room's file is refused and no room file is left. *)
Example refused_room_file :
  let o := translateRoute defaultConfig (idle true)
             (mkCall (JStr "hello") (JStr "en") (JStr "hi") JUndefined (JStr "a/b"))
             (refusing HealthFails (OkBody (JStr "namaste"))) in
  status (reply o) = 200%Z
  /\ List.length (mainLog (after o)) = 1%nat
  /\ roomLogs (after o) = [].
Proof. cbv zeta. repeat split; reflexivity. Qed.

(** A reply of the backend without [translated_text]: the call is answered
    200 with an empty object, and the record has no output. *)
Example reply_without_text :
  let o := translateRoute defaultConfig (idle true) (plain "hello")
             (env HealthFails (OkBody JUndefined)) in
  reply o = mkResponse 200 (BTranslated JUndefined)
  /\ mainLog (after o)
     = [[("timestamp", JStr "2025-01-02T08:34:05.000Z");
         ("source", JStr "auto"); ("target", JStr "en");
         ("input", JStr "hello"); ("durationMs", JNum 30)]].
Proof. cbv zeta. split; reflexivity. Qed.

Example region_suffix_is_stripped :
  requests
    (translateRoute defaultConfig (idle true)
       (mkCall (JStr " bonjour ") (JStr "fr-FR") (JStr "en-US") JUndefined JUndefined)
       (env HealthFails (OkBody (JStr "hello"))))
  = [PostTranslate "bonjour" "fr" "en"].
Proof. reflexivity. Qed.

End TranslateExamples.

(* ------------------------------------------------------------------ *)
(** ** Facts on insertion-ordered maps *)

Section JsMapFacts.
Context {K V : Type} (eq_dec : forall a b : K, {a = b} + {a <> b}).
Implicit Types (k : K) (v : V) (m : list (K * V)).

Lemma get_In k v m : JsMap.get eq_dec k m = Some v -> In (k, v) m.
Proof.
  induction m as [|[k' v'] m IH]; simpl; [discriminate|].
  destruct (eq_dec k k') as [->|_]; intros H.
  - injection H as ->. now left.
  - right. now apply IH.
Qed.

Lemma get_set_same k v m : JsMap.get eq_dec k (JsMap.set eq_dec k v m) = Some v.
Proof.
  induction m as [|[k' v'] m IH]; simpl.
  - now destruct (eq_dec k k).
  - destruct (eq_dec k k') as [E|E]; simpl; destruct (eq_dec k k'); congruence.
Qed.

Lemma get_delete_same k m : JsMap.get eq_dec k (JsMap.delete eq_dec k m) = None.
Proof.
  induction m as [|[k' v'] m IH]; simpl; [reflexivity|].
  destruct (eq_dec k k') as [E|E]; simpl; [assumption|].
  destruct (eq_dec k k'); congruence.
Qed.

Lemma delete_absent k m : JsMap.get eq_dec k m = None -> JsMap.delete eq_dec k m = m.
Proof.
  induction m as [|[k' v'] m IH]; simpl; [reflexivity|].
  destruct (eq_dec k k'); [discriminate|].
  intros H. now rewrite IH.
Qed.

Lemma delete_delete k m :
  JsMap.delete eq_dec k (JsMap.delete eq_dec k m) = JsMap.delete eq_dec k m.
Proof. apply delete_absent, get_delete_same. Qed.

Lemma set_set k v v' m :
  JsMap.set eq_dec k v (JsMap.set eq_dec k v' m) = JsMap.set eq_dec k v m.
Proof.
  induction m as [|[k' w] m IH]; simpl.
  - now destruct (eq_dec k k).
  - destruct (eq_dec k k') as [E|E]; simpl; destruct (eq_dec k k'); congruence.
Qed.

Lemma Forall_set (P : K * V -> Prop) k v m :
  Forall P m -> P (k, v) -> Forall P (JsMap.set eq_dec k v m).
Proof.
  intros Hm Hv. induction Hm as [|[k' v'] m Hx Hm IH]; simpl.
  - now constructor.
  - destruct (eq_dec k k') as [<-|_]; now constructor.
Qed.

Lemma Forall_delete (P : K * V -> Prop) k m :
  Forall P m -> Forall P (JsMap.delete eq_dec k m).
Proof.
  intros Hm. induction Hm as [|[k' v'] m Hx Hm IH]; simpl; [constructor|].
  destruct (eq_dec k k'); [assumption|now constructor].
Qed.
End JsMapFacts.

(* ------------------------------------------------------------------ *)
(** ** Dictionary deletion *)

Module DeleteFacts.
Import Dictionary.

Lemma splice1_nan {A} (x : A) (xs : list A) : splice1 None (x :: xs) = xs.
Proof.
  unfold splice1.
  replace (0 <? 0)%Z with false by reflexivity.
  rewrite Z.min_l by lia. reflexivity.
Qed.

(** C10. When the index parameter does not parse as a number, neither
    comparison of the bounds check holds for NaN, so the request is not
    rejected: on a non-empty dictionary [splice] removes the first entry, the
    shortened table is saved and the answer is the success message, not the
    404. *)
Theorem deleteWord_nan_removes_first :
  forall (param : string) (first : entry) (others file : list entry),
    parseInt param = None ->
    deleteWord param (mkStore (first :: others) file)
    = (mkStore others others,
       mkResponse 200
         (BMessage "Word deleted successfully" (Some (List.length others)))).
Proof.
  intros param first others file Hnan.
  unfold deleteWord. rewrite Hnan. simpl numLt. simpl numGe. simpl orb.
  cbv iota. unfold saveExcludedWords. simpl excludedWords.
  now rewrite splice1_nan.
Qed.

Lemma deleteWord_nan_removes_first_witness :
  parseInt "abc" = None
  /\ deleteWord "abc" (mkStore [Samples.colour; Samples.colourful] [])
     = (mkStore [Samples.colourful] [Samples.colourful],
        mkResponse 200 (BMessage "Word deleted successfully" (Some 1%nat))).
Proof.
  split; [reflexivity|].
  apply (deleteWord_nan_removes_first "abc" Samples.colour [Samples.colourful] []).
  reflexivity.
Defined.

End DeleteFacts.

(* ------------------------------------------------------------------ *)
(** ** Signaling relay *)

Module RelayFacts.
Import Rooms.

Lemma notSocket_true socket id : notSocket socket id = true <-> id <> socket.
Proof. unfold notSocket. rewrite negb_true_iff. apply String.eqb_neq. Qed.

Lemma notSocket_false socket id : notSocket socket id = false <-> id = socket.
Proof. unfold notSocket. rewrite negb_false_iff. apply String.eqb_eq. Qed.


Lemma find_only_sender socket ps :
  (forall p, In p ps -> p = socket) -> find (notSocket socket) ps = None.
Proof.
  intros H. induction ps as [|p ps IH]; simpl; [reflexivity|].
  assert (Hp : notSocket socket p = false)
    by (apply notSocket_false, H; now left).
  rewrite Hp. apply IH. intros q Hq. apply H. now right.
Qed.










(** An emission addressed with [io.to(id)] to the id of a socket reaches that
    socket alone, as long as no socket has joined a room named by that id. *)
Lemma to_socket_reaches_it_alone st socket other :
  (forall r, In r (roomsOf socket st) -> r = JStr socket \/ r <> JStr other) ->
  receives st socket (To (JStr other)) = true -> socket = other.
Proof.
  intros Hrooms Hrecv. unfold receives, memberOf in Hrecv.
  apply existsb_exists in Hrecv as (r & Hin & Heq).
  destruct (jsval_eq_dec (JStr other) r) as [<-|]; [|discriminate].
  destruct (Hrooms _ Hin) as [H|H]; congruence.
Qed.

End RelayFacts.

(* ------------------------------------------------------------------ *)
(** ** Room capacity *)

Module CapacityFacts.
Import Rooms Spec.

Lemma filter_length_le {A} (f : A -> bool) (l : list A) :
  (List.length (filter f l) <= List.length l)%nat.
Proof.
  induction l as [|x l IH]; simpl; [lia|].
  destruct (f x); simpl; lia.
Qed.

Lemma allOk_lookup cfg st roomId room :
  allOk cfg st ->
  JsMap.get jsval_eq_dec roomId (rooms st) = Some room ->
  roomOk cfg (roomId, room).
Proof.
  intros Hok Hget. apply get_In in Hget.
  unfold allOk in Hok. rewrite Forall_forall in Hok. now apply Hok.
Qed.

Lemma handleLeave_allOk cfg socket roomId st :
  allOk cfg st -> allOk cfg (fst (handleLeave socket roomId st)).
Proof.
  intros Hok. unfold handleLeave.
  destruct (JsMap.get jsval_eq_dec roomId (rooms st)) as [room|] eqn:Hget;
    [|exact Hok].
  destruct (allOk_lookup _ _ _ _ Hok Hget) as [Hcap Hkey]. simpl in Hcap, Hkey.
  assert (Hset : Forall (roomOk cfg)
            (JsMap.set jsval_eq_dec roomId
               (mkRoom (filter (notSocket socket) (participants room))
                       (isPublic room) (lang room)) (rooms st))).
  { apply Forall_set; [exact Hok|]. split; simpl; [|exact Hkey].
    pose proof (filter_length_le (notSocket socket) (participants room)). lia. }
  cbn [participants].
  destruct (List.length (filter (notSocket socket) (participants room)) =? 0)%nat;
    unfold allOk; cbn; [now apply Forall_delete|exact Hset].
Qed.

Lemma leaveAll_allOk cfg socket rs :
  forall st, allOk cfg st -> allOk cfg (fst (leaveAll socket rs st)).
Proof.
  induction rs as [|r rs IH]; intros st Hok; simpl; [exact Hok|].
  destruct (jsval_eq_dec r (JStr socket)) as [_|_].
  - specialize (IH st Hok). destruct (leaveAll socket rs st). exact IH.
  - pose proof (handleLeave_allOk cfg socket r st Hok) as H1.
    destruct (handleLeave socket r st) as [st1 e1]. simpl in H1.
    specialize (IH st1 H1). destruct (leaveAll socket rs st1). exact IH.
Qed.

Lemma onLeave_allOk cfg socket roomId st :
  allOk cfg st -> allOk cfg (fst (onLeave socket roomId st)).
Proof.
  intros Hok. unfold onLeave.
  pose proof (handleLeave_allOk cfg socket roomId st Hok) as H1.
  destruct (handleLeave socket roomId st) as [st1 e1]. simpl in H1.
  destruct (match JsMap.get jsval_eq_dec roomId (rooms st1) with
            | Some room => (List.length (participants room) =? 0)%nat
            | None => true
            end); unfold allOk; cbn; [now apply Forall_delete|exact H1].
Qed.

Lemma onCreateRoom_allOk cfg socket roomId lang st :
  (0 <= maxRoomParticipants cfg)%Z ->
  allOk cfg st -> allOk cfg (fst (onCreateRoom socket roomId lang st)).
Proof.
  intros Hcap Hok. unfold onCreateRoom.
  destruct (validRoomId roomId) eqn:Hvalid; simpl; [|exact Hok].
  destruct (JsMap.has jsval_eq_dec roomId (rooms st)); simpl; [exact Hok|].
  unfold allOk; cbn. apply Forall_set; [exact Hok|].
  split; simpl; [lia|exact Hvalid].
Qed.

Lemma onJoin_allOk cfg socket roomId opts st :
  (1 <= maxRoomParticipants cfg)%Z ->
  allOk cfg st -> allOk cfg (fst (onJoin cfg socket roomId opts st)).
Proof.
  intros Hcap Hok. unfold onJoin.
  destruct (validRoomId roomId) eqn:Hvalid; simpl; [|exact Hok].
  destruct (JsMap.get jsval_eq_dec roomId (rooms st)) as [room|] eqn:Hget.
  - destruct (Z.of_nat (List.length (participants room))
              >=? maxRoomParticipants cfg)%Z eqn:Hfull; simpl; [exact Hok|].
    unfold allOk; cbn. apply Forall_set; [exact Hok|].
    split; simpl; [|exact Hvalid].
    rewrite length_app. simpl. lia.
  - destruct opts as [c p|]; [|exact Hok].
    destruct (truthy (isCreator (mkJoinOpts c p))); simpl; [|exact Hok].
    unfold allOk; cbn. apply Forall_set; [exact Hok|].
    split; simpl; [lia|exact Hvalid].
Qed.

Lemma onTranscript_rooms socket msg now st :
  rooms (fst (onTranscript socket msg now st)) = rooms st.
Proof.
  unfold onTranscript.
  repeat match goal with
         | |- context [if ?b then _ else _] => destruct b
         | |- context [match ?x with Some _ => _ | None => _ end] => destruct x
         end; reflexivity.
Qed.

Lemma handle_allOk cfg socket ev st :
  (1 <= maxRoomParticipants cfg)%Z ->
  allOk cfg st -> allOk cfg (fst (handle cfg socket ev st)).
Proof.
  intros Hcap Hok. destruct ev; simpl.
  - unfold onAgentAvailabilityChanged.
    destruct (truthy (field data0 "email")); [|exact Hok].
    destruct (String.eqb _ _); exact Hok.
  - exact Hok.
  - apply onCreateRoom_allOk; [lia|exact Hok].
  - now apply onJoin_allOk.
  - unfold onSignal, forwardToOther.
    repeat match goal with
           | |- context [if ?b then _ else _] => destruct b
           | |- context [match ?x with Some _ => _ | None => _ end] => destruct x
           end; exact Hok.
  - unfold allOk. rewrite onTranscript_rooms. exact Hok.
  - unfold onLocalTranslation. destruct data0 as [d|]; [|exact Hok].
    destruct (truthy (field d "to")); exact Hok.
  - now apply onLeave_allOk.
  - exact Hok.
  - now apply leaveAll_allOk.
  - exact Hok.
  - exact Hok.
Qed.

Lemma run_allOk cfg evs :
  (1 <= maxRoomParticipants cfg)%Z ->
  forall st, allOk cfg st -> allOk cfg (fst (run cfg evs st)).
Proof.
  intros Hcap. induction evs as [|[socket ev] evs IH]; intros st Hok; simpl;
    [exact Hok|].
  pose proof (handle_allOk cfg socket ev st Hcap Hok) as H1.
  destruct (handle cfg socket ev st) as [st1 e1]. simpl in H1.
  specialize (IH st1 H1). destruct (run cfg evs st1). exact IH.
Qed.

Lemma reachable_allOk cfg st :
  (1 <= maxRoomParticipants cfg)%Z -> reachable cfg st -> allOk cfg st.
Proof.
  intros Hcap [evs <-]. apply run_allOk; [exact Hcap|]. constructor.
Qed.

(** The configured capacity is never 0. *)
Lemma loadConfig_capacity_nonzero maxLength maxParticipants :
  maxRoomParticipants (loadConfig maxLength maxParticipants) <> 0%Z.
Proof.
  unfold loadConfig, parseIntOr. cbn [maxRoomParticipants].
  destruct maxParticipants as [v|]; [|discriminate].
  destruct (parseInt v) as [z|]; [|discriminate].
  destruct (z =? 0)%Z eqn:E; [discriminate|]. now apply Z.eqb_neq.
Qed.

(** C1, as amended. Under a configured capacity of at least one (the
    default is 2), whatever the clients have sent, no room of the store
    holds more participants than the capacity; and a join on a room that is
    already at its capacity answers 'full' to the caller and leaves the whole
    state, the room included, as it was. *)
Theorem rooms_never_exceed_capacity :
  forall (cfg : config) (st : state),
    (1 <= maxRoomParticipants cfg)%Z ->
    reachable cfg st ->
    withinCapacity cfg st
    /\ (forall socket roomId opts room,
          JsMap.get jsval_eq_dec roomId (rooms st) = Some room ->
          (maxRoomParticipants cfg <= Z.of_nat (List.length (participants room)))%Z ->
          onJoin cfg socket roomId opts st
          = (st, [Emit (Self socket) "full" (DValue roomId)])).
Proof.
  intros cfg st Hcap Hreach.
  pose proof (reachable_allOk cfg st Hcap Hreach) as Hok. split.
  - unfold withinCapacity. eapply Forall_impl; [|exact Hok].
    intros kr [H _]. exact H.
  - intros socket roomId opts room Hget Hfull.
    destruct (allOk_lookup _ _ _ _ Hok Hget) as [_ Hkey]. simpl in Hkey.
    unfold onJoin. rewrite Hkey, Hget. simpl.
    replace (Z.of_nat (List.length (participants room))
             >=? maxRoomParticipants cfg)%Z with true; [reflexivity|].
    symmetry. apply Z.geb_le. exact Hfull.
Qed.

Lemma twoParty_reachable : reachable defaultConfig Samples.twoParty.
Proof.
  exists [("A", Join (JStr "r1") Samples.asCreator);
          ("B", Join (JStr "r1") Samples.asJoiner)].
  reflexivity.
Qed.

Lemma rooms_never_exceed_capacity_witness :
  withinCapacity defaultConfig Samples.twoParty
  /\ onJoin defaultConfig "C" (JStr "r1") Samples.asJoiner Samples.twoParty
     = (Samples.twoParty, [Emit (Self "C") "full" (DValue (JStr "r1"))]).
Proof.
  destruct (rooms_never_exceed_capacity defaultConfig Samples.twoParty)
    as [Hcap Hfull].
  - vm_compute. discriminate.
  - exact twoParty_reachable.
  - split; [exact Hcap|].
    apply (Hfull "C" (JStr "r1") Samples.asJoiner
             (mkRoom ["A"; "B"] true JUndefined)).
    + reflexivity.
    + vm_compute. discriminate.
Defined.

(** C1, the claim as stated fails: the capacity is read from the
    environment with [parseInt(...) || 2], which replaces 0 and NaN by the
    default but keeps a negative number.  Under MAX_ROOM_PARTICIPANTS=-1 the
    socket that creates a room is its one participant, which is more than
    the capacity. *)
Lemma negative_capacity_is_exceeded :
  let cfg := loadConfig None (Some "-1") in
  let st := fst (run cfg [("A", Join (JStr "r1") Samples.asCreator)] initial) in
  maxRoomParticipants cfg = (-1)%Z
  /\ reachable cfg st
  /\ JsMap.get jsval_eq_dec (JStr "r1") (rooms st)
     = Some (mkRoom ["A"] true JUndefined)
  /\ ~ withinCapacity cfg st.
Proof.
  cbv zeta. split; [reflexivity|]. split; [eexists; reflexivity|].
  split; [reflexivity|].
  intros H. unfold withinCapacity in H. rewrite Forall_forall in H.
  specialize (H (JStr "r1", mkRoom ["A"] true JUndefined)
                (or_introl eq_refl)).
  vm_compute in H. now apply H.
Qed.

End CapacityFacts.

(* ------------------------------------------------------------------ *)
(** ** Leaving a room *)

Module LeaveFacts.
Import Rooms Spec.

Lemma delete_set {K V} (eq_dec : forall a b : K, {a = b} + {a <> b})
    (k : K) (v : V) (m : list (K * V)) :
  JsMap.delete eq_dec k (JsMap.set eq_dec k v m) = JsMap.delete eq_dec k m.
Proof.
  induction m as [|[k' w] m IH]; simpl.
  - now destruct (eq_dec k k).
  - destruct (eq_dec k k') as [E|E]; simpl; destruct (eq_dec k k');
      congruence.
Qed.

Lemma filter_filter {A} (f : A -> bool) (l : list A) :
  filter f (filter f l) = filter f l.
Proof.
  induction l as [|x l IH]; simpl; [reflexivity|].
  destruct (f x) eqn:E; simpl; [rewrite E|]; congruence.
Qed.

(** The three ways 'leave' can go. *)
Lemma onLeave_no_room socket roomId st :
  JsMap.get jsval_eq_dec roomId (rooms st) = None ->
  onLeave socket roomId st
  = (let st' := mkState (rooms st)
                  (JsMap.delete jsval_eq_dec roomId (transcripts st))
                  (agentAvailability st) (socketRooms st) in
     (st', emitActiveMeetings st')).
Proof.
  intros Hget. unfold onLeave, handleLeave. rewrite Hget. rewrite Hget.
  unfold setTranscripts, setRooms. cbn.
  now rewrite (delete_absent jsval_eq_dec roomId (rooms st) Hget).
Qed.

Lemma onLeave_last socket roomId st room :
  JsMap.get jsval_eq_dec roomId (rooms st) = Some room ->
  filter (notSocket socket) (participants room) = [] ->
  onLeave socket roomId st
  = (let st' := mkState (JsMap.delete jsval_eq_dec roomId (rooms st))
                  (JsMap.delete jsval_eq_dec roomId (transcripts st))
                  (agentAvailability st) (socketRooms st) in
     (st', ([Emit (RoomExcept roomId socket) "user-disconnected" DNone] ++ saveTranscript roomId st
            ++ emitActiveMeetings st')%list)).
Proof.
  intros Hget Hempty. unfold onLeave, handleLeave. rewrite Hget.
  cbn [participants]. rewrite Hempty. cbn.
  rewrite delete_set, get_delete_same, !delete_delete.
  unfold saveTranscript. cbn. reflexivity.
Qed.

Lemma onLeave_others socket roomId st room :
  JsMap.get jsval_eq_dec roomId (rooms st) = Some room ->
  filter (notSocket socket) (participants room) <> [] ->
  onLeave socket roomId st
  = (let st' := mkState
                  (JsMap.set jsval_eq_dec roomId
                     (mkRoom (filter (notSocket socket) (participants room))
                             (isPublic room) (lang room)) (rooms st))
                  (transcripts st) (agentAvailability st) (socketRooms st) in
     (st', ([Emit (RoomExcept roomId socket) "user-disconnected" DNone] ++ emitActiveMeetings st')%list)).
Proof.
  intros Hget Hsome. unfold onLeave, handleLeave. rewrite Hget.
  cbn [participants].
  destruct (filter (notSocket socket) (participants room)) as [|p ps] eqn:Hf;
    [congruence|].
  cbn. rewrite get_set_same. cbn. reflexivity.
Qed.

(** C7, as amended. A second 'leave' for the same connection and room
    leaves the state (rooms and transcript buffers) exactly as the first left
    it and saves no transcript.  It is not silent: it broadcasts the list of
    active meetings again and, when the room still exists after the first
    call, sends 'user-disconnected' to the room once more; every emission of
    the second call repeats one of the first. *)
Theorem leave_twice_same_state :
  forall (socket : string) (roomId : jsval) (st : state),
    let first := onLeave socket roomId st in
    let second := onLeave socket roomId (fst first) in
    fst second = fst first
    /\ snd second
       = ((if JsMap.has jsval_eq_dec roomId (rooms (fst first))
           then [Emit (RoomExcept roomId socket) "user-disconnected" DNone]
           else []) ++ emitActiveMeetings (fst first))%list
    /\ (forall e, In e (snd second) -> In e (snd first)).
Proof.
  intros socket roomId st first second. subst first second.
  destruct (JsMap.get jsval_eq_dec roomId (rooms st)) as [room|] eqn:Hget.
  - destruct (filter (notSocket socket) (participants room)) as [|p ps] eqn:Hf.
    + rewrite (onLeave_last _ _ _ _ Hget Hf). cbn zeta. cbn [fst snd].
      rewrite onLeave_no_room by (cbn; apply get_delete_same).
      cbn zeta. cbn [fst snd rooms transcripts agentAvailability socketRooms].
      unfold JsMap.has. rewrite get_delete_same, delete_delete.
      split; [reflexivity|]. split; [reflexivity|].
      intros e He. apply in_or_app. right. apply in_or_app. now right.
    + assert (Hne : filter (notSocket socket) (participants room) <> [])
        by (rewrite Hf; discriminate).
      rewrite (onLeave_others _ _ _ _ Hget Hne). cbn zeta. cbn [fst snd].
      erewrite onLeave_others;
        [|cbn; apply get_set_same|cbn; rewrite filter_filter; exact Hne].
      cbn zeta. cbn [fst snd rooms transcripts agentAvailability socketRooms
                     participants isPublic lang].
      rewrite filter_filter, set_set. unfold JsMap.has. rewrite get_set_same.
      split; [reflexivity|]. split; [reflexivity|]. intros e He. exact He.
  - rewrite (onLeave_no_room _ _ _ Hget). cbn zeta. cbn [fst snd].
    rewrite onLeave_no_room by (cbn; exact Hget).
    cbn zeta. cbn [fst snd rooms transcripts agentAvailability socketRooms].
    unfold JsMap.has. rewrite Hget, delete_delete.
    split; [reflexivity|]. split; [reflexivity|]. intros e He. exact He.
Qed.

(** C7, the claim as stated fails: B is in room "r1" with A; when A leaves
    once, B is told once that its peer has left, and when A leaves twice, B
    is told twice (and receives the list of meetings twice), although the
    state is the same after both. *)
Lemma leave_twice_notifies_twice :
  let once := run defaultConfig [("A", Leave (JStr "r1"))] Samples.twoParty in
  let twice :=
    run defaultConfig [("A", Leave (JStr "r1")); ("A", Leave (JStr "r1"))]
      Samples.twoParty in
  fst twice = fst once
  /\ received (fst once) "B" (snd once)
     = [("user-disconnected", DNone);
        ("active-meetings", DMeetings [(JStr "r1", 1%nat)])]
  /\ received (fst twice) "B" (snd twice)
     = [("user-disconnected", DNone);
        ("active-meetings", DMeetings [(JStr "r1", 1%nat)]);
        ("user-disconnected", DNone);
        ("active-meetings", DMeetings [(JStr "r1", 1%nat)])]
  /\ received (fst twice) "B" (snd twice) <> received (fst once) "B" (snd once).
Proof.
  cbv zeta. repeat split; try reflexivity. vm_compute. discriminate.
Qed.

End LeaveFacts.

(* ------------------------------------------------------------------ *)
(** ** The translation route *)

Module TranslateFacts.
Import Translate.

Lemma classify_status message :
  status (classify message) = 504%Z
  \/ status (classify message) = 400%Z
  \/ status (classify message) = 500%Z.
Proof.
  unfold classify.
  destruct (includes "timeout" message); [now left|].
  destruct (includes "Translation failed" message); [right; now left|].
  right; now right.
Qed.

Lemma classify_not_200 message : status (classify message) <> 200%Z.
Proof.
  destruct (classify_status message) as [H|[H|H]]; rewrite H; discriminate.
Qed.

(** Case analysis along the branches of the route. *)
Ltac route_cases cfg st req w :=
  unfold translateRoute;
  destruct (validateInput (text req) (maxTranslationLength cfg))
    as [error|validText] eqn:Hvalid;
  [|destruct (truthy (pythonServiceHealthy st)) eqn:Hflag; cbn [negb];
    [|destruct (truthy (checkPythonServiceHealth (health w))) eqn:Hprobe;
      cbn [negb]];
    try (destruct (langCode "source" (withDefault (csource req) "auto"))
           as [sl|m1] eqn:Hsl; cbn [bind];
         [destruct (langCode "target" (withDefault (ctarget req) "en"))
            as [tl|m2] eqn:Htl; cbn [bind];
          [destruct (translateWithPythonService (translation w))
             as [translated|m3] eqn:Hcall; cbn [bind];
           [match goal with
            | |- context [computeAccuracy ?r ?t] =>
                destruct (computeAccuracy r t) as [acc|m4] eqn:Hacc; cbn [bind]
            end| ]| ]| ])];
  cbn [after reply requests status payload].

Lemma validateInput_rejects text maxLength :
  (forall s, text = JStr s ->
             trim s = EmptyString
             \/ (maxLength < Z.of_nat (String.length (trim s)))%Z) ->
  exists error, validateInput text maxLength = Invalid error.
Proof.
  intros H. unfold validateInput. destruct text; try (eexists; reflexivity).
  destruct (negb (truthy (JStr s))); [eexists; reflexivity|].
  destruct (H s eq_refl) as [He|Hlong].
  - rewrite He. simpl. eexists; reflexivity.
  - destruct (String.length (trim s) =? 0)%nat; [eexists; reflexivity|].
    replace (Z.of_nat (String.length (trim s)) >? maxLength)%Z with true;
      [eexists; reflexivity|].
    symmetry. apply Z.gtb_lt. exact Hlong.
Qed.

(** C8, as amended. A call whose text is not a string, is empty once
    trimmed, or is longer than the configured maximum once trimmed, is
    answered 400 with no request of any kind sent to the backend and no
    change of state. *)
Theorem invalid_text_never_reaches_backend :
  forall (cfg : config) (st : state) (req : call) (w : world),
    (forall s, text req = JStr s ->
               trim s = EmptyString
               \/ (maxTranslationLength cfg < Z.of_nat (String.length (trim s)))%Z) ->
    let o := translateRoute cfg st req w in
    status (reply o) = 400%Z /\ requests o = [] /\ after o = st.
Proof.
  intros cfg st req w H o. subst o.
  destruct (validateInput_rejects _ _ H) as [error Herr].
  unfold translateRoute. rewrite Herr. now cbn.
Qed.

Lemma invalid_text_never_reaches_backend_witness :
  let o := translateRoute defaultConfig (Samples.idle true)
             (Samples.plain "  ")
             (Samples.env HealthFails (OkBody (JStr "ok"))) in
  status (reply o) = 400%Z /\ requests o = [] /\ after o = Samples.idle true.
Proof.
  apply (invalid_text_never_reaches_backend defaultConfig (Samples.idle true)
           (Samples.plain "  ")
           (Samples.env HealthFails (OkBody (JStr "ok")))).
  intros s [= <-]. left. reflexivity.
Defined.

(** C8, the claim as stated fails: under the default maximum of 5000, a text
    of 5001 code units (a space, then 5000 letters) exceeds the maximum, yet
    its trimmed form does not; the call is accepted and the 5000 letters are
    sent to the backend. *)
Lemma padded_text_over_maximum_is_sent :
  let o := translateRoute defaultConfig (Samples.idle true)
             (Samples.plain Samples.padded)
             (Samples.env HealthFails (OkBody (JStr "ok"))) in
  maxTranslationLength defaultConfig = 5000%Z
  /\ String.length Samples.padded = (50 * 100 + 1)%nat
  /\ status (reply o) = 200%Z
  /\ requests o = [PostTranslate Samples.letters "auto" "en"].
Proof.
  cbv zeta. split; [reflexivity|].
  split; [vm_compute; reflexivity|].
  split; vm_compute; reflexivity.
Qed.

(** C2. While the health flag is false and the probe made on demand fails,
    no call sends a request to [/translate]; a call that passes validation
    (and so reaches the health gate) sends the probe only, is answered 503
    and leaves the flag false. *)
Theorem unhealthy_backend_short_circuits :
  forall (cfg : config) (st : state) (req : call) (w : world),
    truthy (pythonServiceHealthy st) = false ->
    truthy (checkPythonServiceHealth (health w)) = false ->
    let o := translateRoute cfg st req w in
    (forall t sl tl, ~ In (PostTranslate t sl tl) (requests o))
    /\ (forall validText,
          validateInput (text req) (maxTranslationLength cfg) = Valid validText ->
          status (reply o) = 503%Z
          /\ requests o = [GetHealth]
          /\ truthy (pythonServiceHealthy (after o)) = false).
Proof.
  intros cfg st req w Hflag Hprobe o. subst o.
  unfold translateRoute.
  destruct (validateInput (text req) (maxTranslationLength cfg))
    as [error|validText] eqn:Hvalid.
  - cbn. split; [intros t sl tl []|discriminate].
  - rewrite Hflag. cbn [negb]. rewrite Hprobe. cbn.
    split.
    + intros t sl tl [H|[]]. discriminate.
    + intros v _. now rewrite Hprobe.
Qed.

Lemma unhealthy_backend_short_circuits_witness :
  let o := translateRoute defaultConfig (Samples.idle false)
             (Samples.plain "hello")
             (Samples.env HealthNotOk (OkBody (JStr "namaste"))) in
  status (reply o) = 503%Z /\ requests o = [GetHealth].
Proof.
  destruct (unhealthy_backend_short_circuits defaultConfig (Samples.idle false)
              (Samples.plain "hello")
              (Samples.env HealthNotOk (OkBody (JStr "namaste"))))
    as [_ H].
  - reflexivity.
  - reflexivity.
  - destruct (H "hello") as [Hs [Hr _]]; [reflexivity|].
    split; [exact Hs|exact Hr].
Defined.

Lemma general_bucket_truthy date :
  truthy (JStr ("general-" ++ date)) = true.
Proof. reflexivity. Qed.

(** The record written by [logTranslation] does not depend on the accuracy
    it is given. *)
Lemma logTranslation_ignores_accuracy src tgt inp out d acc acc' room w st :
  logTranslation (mkLogArgs src tgt inp out d acc room) w st
  = logTranslation (mkLogArgs src tgt inp out d acc' room) w st.
Proof. reflexivity. Qed.

(** C5, as amended. A call is logged if and only if it succeeds.  A call
    answered 200 adds one record, with the time stamp, the source and target
    languages, the input text, the output text (left out when the backend
    sent none) and the duration, at the end of the main log; it writes the
    file of its room, named after the room-id given by the caller or,
    without one, after the bucket "general-" followed by the date, as the
    records read from that file followed by the new one, unless the file
    system refuses the write, in which case the room files stay as they
    were.  A call answered otherwise (400, 503, 504 or 500) leaves both logs
    as they were. *)
Theorem translation_logged_iff_it_succeeds :
  forall (cfg : config) (st : state) (req : call) (w : world),
    let o := translateRoute cfg st req w in
    let bucket :=
      if truthy (croomId req) then toString (croomId req)
      else "general-" ++ dateStr (isoBucket w) in
    let file := bucket ++ "-" ++ dateStr (isoFile w) ++ ".json" in
    (status (reply o) = 200%Z ->
       exists source target input out,
         payload (reply o) = BTranslated out
         /\ withDefault (csource req) "auto" = JStr source
         /\ withDefault (ctarget req) "en" = JStr target
         /\ text req = JStr input
         /\ let entry :=
              ([ ("timestamp", JStr (istTimestamp w));
                 ("source", JStr source);
                 ("target", JStr target);
                 ("input", JStr input) ]
               ++ match out with
                  | JUndefined => []
                  | _ => [("output", out)]
                  end
               ++ [ ("durationMs", JNum (endTime w - startTime w)) ])%list in
            mainLog (after o) = (mainLog st ++ [entry])%list
            /\ (roomFileWritten w = true ->
                roomLogs (after o)
                = JsMap.set string_dec file (roomFileRead w ++ [entry])%list
                    (roomLogs st))
            /\ (roomFileWritten w = false -> roomLogs (after o) = roomLogs st))
    /\ (status (reply o) <> 200%Z ->
          mainLog (after o) = mainLog st /\ roomLogs (after o) = roomLogs st).
Proof.
  intros cfg st req w o bucket file. subst o bucket file.
  route_cases cfg st req w;
    try (split; [intros H; try discriminate H;
                 try (now destruct (classify_not_200 _ H))
                |intros _; split; reflexivity]).
  all: split; [intros _|intros H; now destruct H].
  all: destruct (text req) as [| | | |input|] eqn:Htext;
       try discriminate Hvalid.
  all: destruct (withDefault (csource req) "auto") as [| | | |source|] eqn:Hs;
       try discriminate Hsl.
  all: destruct (withDefault (ctarget req) "en") as [| | | |target|] eqn:Ht;
       try discriminate Htl.
  all: exists source, target, input.
  all: eexists; (split; [reflexivity|]).
  all: do 3 (split; [reflexivity|]).
  all: unfold logTranslation;
       cbn [roomId Translate.source Translate.target Translate.input
            output durationMs].
  all: destruct (truthy (croomId req)) eqn:Hroom; cbn [negb];
       [rewrite Hroom|rewrite general_bucket_truthy]; cbn [negb];
       cbn [mainLog roomLogs].
  all: destruct (roomFileWritten w).
  all: match goal with
       | |- context [Dictionary.applyWordReplacements ?d ?t ?l] =>
           destruct (Dictionary.applyWordReplacements d t l)
       end.
  all: repeat split; intros; try discriminate; reflexivity.
Qed.

(** C5, the claim as stated fails: a call rejected by validation and a call
    whose backend request times out are answered 400 and 504 and leave no
    record in either log. *)
Lemma failed_calls_are_not_logged :
  let rejected := translateRoute defaultConfig (Samples.idle true)
                    (Samples.plain "  ")
                    (Samples.env HealthFails (OkBody (JStr "ok"))) in
  let timedOut := translateRoute defaultConfig (Samples.idle true)
                    (Samples.plain "hello")
                    (Samples.env HealthFails
                       (FetchRejects "network timeout at: http://backend/translate")) in
  (status (reply rejected) = 400%Z
   /\ mainLog (after rejected) = [] /\ roomLogs (after rejected) = [])
  /\ (status (reply timedOut) = 504%Z
      /\ requests timedOut = [PostTranslate "hello" "auto" "en"]
      /\ mainLog (after timedOut) = [] /\ roomLogs (after timedOut) = []).
Proof. cbv zeta. repeat split; reflexivity. Qed.









(** C9. The code does not do what the claim says: for a successful call
    with the reference "Namaste world" and the output "namaste duniya", the
    accuracy is computed (one reference word out of two occurs in the
    output) and handed to [logTranslation], but the record that is logged
    has no accuracy field. *)
Theorem accuracy_is_computed_but_not_logged :
  let w := Samples.env HealthFails (OkBody (JStr "namaste duniya")) in
  let req := Samples.withReference "hello world" "Namaste world" in
  let o := translateRoute defaultConfig (Samples.idle true) req w in
  reply o = mkResponse 200 (BTranslated (JStr "namaste duniya"))
  /\ computeAccuracy (reference req) (JStr "namaste duniya")
     = Ok (Some (1%nat, 2%nat))
  /\ mainLog (after o)
     = [[ ("timestamp", JStr "2025-01-02T08:34:05.000Z");
          ("source", JStr "auto");
          ("target", JStr "en");
          ("input", JStr "hello world");
          ("output", JStr "namaste duniya");
          ("durationMs", JNum 30) ]]
  /\ (forall entry, In entry (mainLog (after o)) ->
                    JsMap.get string_dec "accuracy" entry = None)
  /\ (forall file entries entry,
        In (file, entries) (roomLogs (after o)) -> In entry entries ->
        JsMap.get string_dec "accuracy" entry = None).
Proof.
  cbv zeta. split; [reflexivity|]. split; [reflexivity|].
  split; [reflexivity|]. split.
  - intros entry [<-|[]]. reflexivity.
  - intros file entries entry [[= <- <-]|[]] [<-|[]]. reflexivity.
Qed.

Lemma applyWordReplacements_string dict s tl :
  exists s', Dictionary.applyWordReplacements dict (JStr s) tl = JStr s'.
Proof.
  unfold Dictionary.applyWordReplacements.
  destruct (negb (truthy (JStr s))); [now exists s|].
  destruct (Dictionary.filterValid tl dict); eexists; reflexivity.
Qed.

Lemma computeAccuracy_strings r out :
  exists acc, computeAccuracy (JStr r) (JStr out) = Ok acc.
Proof.
  unfold computeAccuracy. destruct (truthy (JStr r)); eexists; reflexivity.
Qed.

(** The score never gates success, and more: as long as the backend
    returns its translation as a string, a call with a reference string has
    the same outcome (answer, requests, logs) as the same call without. *)
Lemma reference_changes_nothing cfg st w txt src tgt room r :
  (forall v, translation w = OkBody v -> isString v = true) ->
  translateRoute cfg st (mkCall txt src tgt (JStr r) room) w
  = translateRoute cfg st (mkCall txt src tgt JUndefined room) w.
Proof.
  intros Hstring. unfold translateRoute. cbn [text csource ctarget reference croomId].
  destruct (validateInput txt (maxTranslationLength cfg)); [reflexivity|].
  destruct (if negb (truthy (pythonServiceHealthy st))
            then (setHealthy (checkPythonServiceHealth (health w)) st,
                  [GetHealth], truthy (checkPythonServiceHealth (health w)))
            else (st, [], true)) as [[st1 probes] available].
  destruct (negb available); [reflexivity|].
  destruct (langCode "source" (withDefault src "auto")); [|reflexivity].
  destruct (langCode "target" (withDefault tgt "en")) as [tl|]; [|reflexivity].
  cbn [bind].
  destruct (translation w) as [m|hs stx b|m|v] eqn:Hw; try reflexivity.
  - destruct b; reflexivity.
  - specialize (Hstring v eq_refl). destruct v; try discriminate.
    cbn [translateWithPythonService bind].
    destruct (applyWordReplacements_string (excludedWords st1) s tl) as [s' ->].
    destruct (computeAccuracy_strings r s') as [acc ->].
    cbn [bind computeAccuracy truthy]. reflexivity.
Qed.

End TranslateFacts.

(* ------------------------------------------------------------------ *)
(** ** Matching and replacing *)

Module RegexFacts.
Import Regex Spec.

Lemma append_assoc (a b c : string) : (a ++ b) ++ c = a ++ (b ++ c).
Proof. induction a as [|x a IH]; simpl; congruence. Qed.

Lemma lastOpt_append prev a b : lastOpt prev (a ++ b) = lastOpt (lastOpt prev a) b.
Proof.
  revert prev. induction a as [|x a IH]; intros prev; simpl; [reflexivity|].
  apply IH.
Qed.

Lemma matchLiteral_sound lit :
  forall s m r,
    matchLiteral lit s = Some (m, r) -> s = m ++ r /\ sameUpToCase lit m.
Proof.
  unfold sameUpToCase.
  induction lit as [|a lit IH]; intros s m r; simpl.
  - intros [= <- <-]. now split.
  - destruct s as [|c s]; [discriminate|].
    destruct (Ascii.eqb (canonicalize a) (canonicalize c)) eqn:E; [|discriminate].
    destruct (matchLiteral lit s) as [[m' r']|] eqn:Hm; [|discriminate].
    intros [= <- <-]. apply Ascii.eqb_eq in E.
    destruct (IH _ _ _ Hm) as [-> Hc]. simpl. split; congruence.
Qed.

Lemma matchLiteral_complete lit :
  forall m r, sameUpToCase lit m -> matchLiteral lit (m ++ r) = Some (m, r).
Proof.
  unfold sameUpToCase.
  induction lit as [|a lit IH]; intros m r; destruct m as [|c m]; simpl;
    try discriminate; [reflexivity|].
  intros [= Hc Hrest]. rewrite Hc, Ascii.eqb_refl.
  now rewrite (IH m r Hrest).
Qed.

(** A match at the head of [s], in the words of the specification. *)
Lemma matchAt_spec re prev m r :
  matchAt re prev (m ++ r) = Some (m, r)
  <-> sameUpToCase (literal re) m
      /\ (wordBounded re = true ->
          boundaryAt prev (m ++ r) = true
          /\ boundaryAt (lastOpt prev m) r = true).
Proof.
  unfold matchAt. split.
  - destruct (matchLiteral (literal re) (m ++ r)) as [[m' r']|] eqn:Hm;
      [|discriminate].
    destruct (matchLiteral_sound _ _ _ _ Hm) as [Heq Hc].
    destruct (wordBounded re).
    + destruct (boundaryAt prev (m ++ r) && boundaryAt (lastOpt prev m') r')
        eqn:Hb; [|discriminate].
      intros [= -> ->]. split; [exact Hc|]. intros _.
      now apply andb_true_iff in Hb.
    + intros [= -> ->]. split; [exact Hc|discriminate].
  - intros [Hc Hb]. rewrite (matchLiteral_complete _ _ r Hc).
    destruct (wordBounded re); [|reflexivity].
    destruct (Hb eq_refl) as [H1 H2]. now rewrite H1, H2.
Qed.

Lemma matchAt_splits re prev s m r :
  matchAt re prev s = Some (m, r) -> s = m ++ r.
Proof.
  unfold matchAt.
  destruct (matchLiteral (literal re) s) as [[m' r']|] eqn:Hm; [|discriminate].
  destruct (matchLiteral_sound _ _ _ _ Hm) as [Heq _].
  destruct (wordBounded re);
    [destruct (boundaryAt prev s && boundaryAt (lastOpt prev m') r');
     [|discriminate]|];
    intros [= <- <-]; exact Heq.
Qed.

Lemma testFrom_spec re :
  forall s prev,
    testFrom re prev s = true
    <-> exists before m rest,
          s = before ++ m ++ rest
          /\ matchAt re (lastOpt prev before) (m ++ rest) = Some (m, rest).
Proof.
  induction s as [|c s IH]; intros prev; simpl.
  - destruct (matchAt re prev "") as [[m r]|] eqn:Hm; split.
    + intros _. pose proof (matchAt_splits _ _ _ _ _ Hm) as Hs.
      exists "", m, r. simpl. split; [exact Hs|]. now rewrite <- Hs.
    + reflexivity.
    + discriminate.
    + intros (before & m & rest & Hs & Hmatch).
      destruct before; [|discriminate]. simpl in Hs, Hmatch.
      rewrite <- Hs in Hmatch. congruence.
  - destruct (matchAt re prev (String c s)) as [[m r]|] eqn:Hm; split.
    + intros _. pose proof (matchAt_splits _ _ _ _ _ Hm) as Hs.
      exists "", m, r. simpl. split; [exact Hs|]. now rewrite <- Hs.
    + reflexivity.
    + intros H. apply IH in H as (before & m & rest & Hs & Hmatch).
      exists (String c before), m, rest. simpl. split; [now rewrite Hs|].
      exact Hmatch.
    + intros (before & m & rest & Hs & Hmatch).
      destruct before as [|b before]; simpl in Hs, Hmatch.
      * rewrite <- Hs in Hmatch. congruence.
      * injection Hs as -> ->. apply IH. now exists before, m, rest.
Qed.

(** [re.test(text)] holds exactly when the text has a match. *)
Lemma test_spec re text : test re text = true <-> HasMatch re text.
Proof.
  unfold test, HasMatch. rewrite testFrom_spec. split.
  - intros (before & m & rest & Hs & Hmatch). exists before, m, rest.
    split; [exact Hs|]. now apply matchAt_spec.
  - intros (before & m & rest & Hs & Hc & Hb). exists before, m, rest.
    split; [exact Hs|]. apply matchAt_spec. now split.
Qed.

(** Without a match, a replacement returns its text. *)
Lemma replaceFrom_no_match re template :
  forall s before prev,
    testFrom re prev s = false -> replaceFrom re template before prev 0 s = s.
Proof.
  induction s as [|c s IH]; intros before prev; simpl.
  - destruct (matchAt re prev "") as [[m r]|]; [discriminate|reflexivity].
  - destruct (matchAt re prev (String c s)) as [[m r]|]; [discriminate|].
    intros H. now rewrite IH.
Qed.

Lemma replace_no_match re template text :
  test re text = false -> replace re template text = text.
Proof. apply replaceFrom_no_match. Qed.

(** A whole-word match is in particular a match. *)
Lemma whole_word_is_match w text :
  HasMatch (mkRegex true w) text -> HasMatch (mkRegex false w) text.
Proof.
  intros (before & m & rest & Hs & Hc & _). exists before, m, rest.
  split; [exact Hs|]. split; [exact Hc|discriminate].
Qed.

Lemma sameUpToCase_length a : forall b, sameUpToCase a b -> String.length a = String.length b.
Proof.
  unfold sameUpToCase. induction a as [|x a IH]; intros [|y b]; simpl;
    try discriminate; [reflexivity|].
  intros [= _ H]. now rewrite (IH b H).
Qed.

Lemma no_match_in_empty re :
  literal re <> "" -> ~ HasMatch re "".
Proof.
  intros Hlit (before & m & rest & Hs & Hc & _).
  destruct before; [|discriminate]. destruct m; [|discriminate].
  apply sameUpToCase_length in Hc. destruct (literal re); [congruence|discriminate].
Qed.

Lemma append_nil_r (a : string) : a ++ "" = a.
Proof. induction a as [|x a IH]; simpl; congruence. Qed.

Lemma append_cons_assoc (a : string) (c : ascii) (b : string) :
  (a ++ String c "") ++ b = a ++ String c b.
Proof. now rewrite append_assoc. Qed.

Lemma length_append (a b : string) :
  String.length (a ++ b) = (String.length a + String.length b)%nat.
Proof. induction a as [|x a IH]; simpl; congruence. Qed.

(** After a match, the scan resumes behind it. *)
Lemma replaceFrom_skip re template :
  forall x before prev r,
    replaceFrom re template before prev (String.length x) (x ++ r)
    = replaceFrom re template (before ++ x) (lastOpt prev x) 0 r.
Proof.
  induction x as [|c x IH]; intros before prev r.
  - now rewrite append_nil_r.
  - cbn [String.length String.append replaceFrom lastOpt].
    rewrite IH. now rewrite append_cons_assoc.
Qed.

Lemma matchAt_occurrence re before s m r :
  matchAt re (lastOpt None before) s = Some (m, r) ->
  s = m ++ r /\ Occurrence re before m r.
Proof.
  intros H. pose proof (matchAt_splits _ _ _ _ _ H) as ->.
  split; [reflexivity|]. now apply matchAt_spec.
Qed.

Lemma matchAt_none re before s :
  matchAt re (lastOpt None before) s = None ->
  forall m after, s = m ++ after -> ~ Occurrence re before m after.
Proof.
  intros H m after -> Hocc. apply matchAt_spec in Hocc. congruence.
Qed.

Lemma occurrence_nonempty re before m after :
  literal re <> "" -> Occurrence re before m after -> m <> "".
Proof.
  intros Hlit [Hc _] ->. apply sameUpToCase_length in Hc.
  destruct (literal re); [congruence|discriminate].
Qed.

Lemma NoneBegins_cons re before c gap rest :
  matchAt re (lastOpt None before) (String c (gap ++ rest)) = None ->
  NoneBegins re (before ++ String c "") gap rest ->
  NoneBegins re before (String c gap) rest.
Proof.
  intros Hnone Hgap b1 b2 m after Hsplit Hb2 Hrest Hocc.
  destruct b1 as [|x b1]; cbn [String.append] in Hsplit.
  - subst b2. rewrite append_nil_r in Hocc.
    exact (matchAt_none _ _ _ Hnone m after Hrest Hocc).
  - injection Hsplit as <- ->.
    apply (Hgap b1 b2 m after eq_refl Hb2 Hrest).
    now rewrite append_cons_assoc.
Qed.

Lemma Substituted_skip re english before c s out :
  matchAt re (lastOpt None before) (String c s) = None ->
  Substituted re english (before ++ String c "") s out ->
  Substituted re english before (String c s) (String c out).
Proof.
  intros Hnone H. inversion H as [b t Hgap|b gap m after out0 Hgap Hocc Hrest];
    subst.
  - apply Substituted_none. apply NoneBegins_cons; [|exact Hgap].
    now rewrite append_nil_r.
  - rewrite append_cons_assoc in Hocc, Hrest |- *.
    apply (Substituted_next re english before (String c gap) m after out0).
    + now apply NoneBegins_cons.
    + exact Hocc.
    + exact Hrest.
Qed.

Lemma Substituted_empty re english before :
  Substituted re english before "" "".
Proof.
  apply Substituted_none. intros b1 b2 m after Hsplit Hb2.
  destruct b1; [|discriminate]. cbn in Hsplit. congruence.
Qed.

(** The replacement, in the words of the specification. *)
Lemma replaceFrom_substituted re english :
  literal re <> "" ->
  forall n s before,
    (String.length s <= n)%nat ->
    Substituted re english before s
      (replaceFrom re english before (lastOpt None before) 0 s).
Proof.
  intros Hlit.
  assert (Hempty : forall before,
             replaceFrom re english before (lastOpt None before) 0 "" = "").
  { intros before. cbn [replaceFrom].
    destruct (matchAt re (lastOpt None before) "") as [[m r]|] eqn:Hm;
      [|reflexivity].
    destruct (matchAt_occurrence _ _ _ _ _ Hm) as [Hs Hocc].
    apply (occurrence_nonempty _ _ _ _ Hlit) in Hocc.
    destruct m; [congruence|discriminate]. }
  induction n as [|n IH]; intros s before Hlen.
  - destruct s; [|cbn in Hlen; lia]. rewrite Hempty. apply Substituted_empty.
  - destruct s as [|c s]; [rewrite Hempty; apply Substituted_empty|].
    cbn [replaceFrom].
    destruct (matchAt re (lastOpt None before) (String c s)) as [[m r]|] eqn:Hm.
    + destruct (matchAt_occurrence _ _ _ _ _ Hm) as [Hs Hocc].
      pose proof (occurrence_nonempty _ _ _ _ Hlit Hocc) as Hne.
      destruct m as [|c' m]; [congruence|].
      cbn [String.append] in Hs. injection Hs as <- ->.
      rewrite replaceFrom_skip, append_cons_assoc.
      assert (Hr : (String.length r <= n)%nat).
      { cbn [String.length] in Hlen. rewrite length_append in Hlen. lia. }
      pose proof (IH r (before ++ String c m) Hr) as Hrest.
      rewrite lastOpt_append in Hrest. cbn [lastOpt] in Hrest.
      pose proof (Substituted_next re english before "" (String c m) r
                    (replaceFrom re english (before ++ String c m)
                       (lastOpt (Some c) m) 0 r)) as H.
      rewrite append_nil_r in H. cbn [String.append] in H.
      apply H; [|exact Hocc|exact Hrest].
      intros b1 b2 m0 after Hsplit Hb2.
      destruct b1; [|discriminate]. cbn in Hsplit. congruence.
    + apply Substituted_skip; [exact Hm|].
      assert (Hs : (String.length s <= n)%nat) by (cbn in Hlen; lia).
      pose proof (IH s (before ++ String c "") Hs) as Hrest.
      rewrite lastOpt_append in Hrest. exact Hrest.
Qed.

Lemma replace_substituted re english text :
  literal re <> "" ->
  Substituted re english "" text (replace re english text).
Proof.
  intros Hlit. unfold replace.
  apply (replaceFrom_substituted re english Hlit (String.length text) text "").
  lia.
Qed.

Lemma includes_dollar_cons c s :
  includes "$" (String c s) = if Ascii.eqb c "$" then true else includes "$" s.
Proof.
  change (includes "$" (String c s))
    with (if (if ascii_dec "$" c then prefix "" s else false)
          then true else includes "$" s).
  destruct (ascii_dec "$" c) as [<-|Hne].
  - destruct s; reflexivity.
  - replace (Ascii.eqb c "$") with false; [reflexivity|].
    symmetry. apply Ascii.eqb_neq. congruence.
Qed.

(** An English form without a dollar sign is inserted as it is. *)
Lemma expand_plain english m before after :
  includes "$" english = false -> expand english m before after = english.
Proof.
  induction english as [|c t IH]; [reflexivity|].
  rewrite includes_dollar_cons. cbn [expand].
  destruct (Ascii.eqb c "$"); [discriminate|].
  intros H. now rewrite IH.
Qed.

Lemma append_split (a : string) :
  forall b c d,
    a ++ b = c ++ d ->
    (exists e, c = a ++ e /\ b = e ++ d) \/ (exists e, a = c ++ e /\ d = e ++ b).
Proof.
  induction a as [|x a IH]; intros b c d H.
  - left. exists c. now split.
  - destruct c as [|y c].
    + right. exists (String x a). now split.
    + cbn [String.append] in H. injection H as <- H.
      destruct (IH _ _ _ H) as [(e & -> & ->)|(e & -> & ->)];
        [left|right]; exists e; now split.
Qed.

Lemma append_cancel_l (a b c : string) : a ++ b = a ++ c -> b = c.
Proof. induction a as [|x a IH]; cbn [String.append]; [trivial|]. intros [= H]. now apply IH. Qed.

Lemma append_same_length (a : string) :
  forall b c d,
    String.length a = String.length c -> a ++ b = c ++ d -> a = c /\ b = d.
Proof.
  induction a as [|x a IH]; intros b c d Hlen H; destruct c as [|y c];
    try discriminate Hlen.
  - now split.
  - cbn [String.append] in H. injection H as <- H. injection Hlen as Hlen.
    destruct (IH _ _ _ Hlen H) as [-> ->]. now split.
Qed.

(** The relation fixes the result. *)
Lemma Substituted_unique re english :
  literal re <> "" ->
  forall before text out1,
    Substituted re english before text out1 ->
    forall out2, Substituted re english before text out2 -> out1 = out2.
Proof.
  intros Hlit.
  assert (Hclash : forall before gap m after,
             NoneBegins re before (gap ++ m ++ after) "" ->
             Occurrence re (before ++ gap) m after -> False).
  { intros before gap m after Hnone Hocc.
    apply (Hnone gap (m ++ after) m after eq_refl); [|apply append_nil_r|exact Hocc].
    pose proof (occurrence_nonempty _ _ _ _ Hlit Hocc) as Hm.
    destruct m; [congruence|discriminate]. }
  assert (Hearlier : forall before gap m after gap0 e rest,
             e <> "" -> gap0 = gap ++ e -> m ++ after = e ++ rest ->
             NoneBegins re before gap0 rest ->
             Occurrence re (before ++ gap) m after -> False).
  { intros before gap m after gap0 e rest He Hgap Heq Hnone Hocc.
    exact (Hnone gap e m after Hgap He (eq_sym Heq) Hocc). }
  intros before text out1 H1.
  induction H1 as [before text Hnone|before gap m after out Hgap Hocc Hrest IH];
    intros out2 H2.
  - inversion H2 as [b t Hnone2|b gap m after out0 Hgap Hocc Hrest Eb Et Eo];
      subst; [reflexivity|].
    destruct (Hclash _ _ _ _ Hnone Hocc).
  - inversion H2 as [b t Hnone2 Eb Et|b gap0 m0 after0 out0 Hgap0 Hocc0 Hrest0 Eb Et Eo];
      subst.
    + destruct (Hclash _ _ _ _ Hnone2 Hocc).
    + assert (Egap : gap0 = gap).
      { destruct (append_split _ _ _ _ Et) as [(e & Hg & Hm)|(e & Hg & Hm)].
        - destruct e as [|x e]; [now rewrite append_nil_r in Hg|].
          exfalso. symmetry in Hg.
          apply (Hearlier before gap0 m0 after0 gap (String x e) (m ++ after));
            [discriminate|now symmetry|exact Hm|exact Hgap|exact Hocc0].
        - destruct e as [|x e]; [rewrite append_nil_r in Hg; congruence|].
          exfalso.
          apply (Hearlier before gap m after gap0 (String x e) (m0 ++ after0));
            [discriminate|exact Hg|exact Hm|exact Hgap0|exact Hocc]. }
      subst gap0. apply append_cancel_l in Et.
      assert (Hlen : String.length m0 = String.length m).
      { destruct Hocc as [Hc _]. destruct Hocc0 as [Hc0 _].
        apply sameUpToCase_length in Hc. apply sameUpToCase_length in Hc0.
        congruence. }
      destruct (append_same_length _ _ _ _ Hlen Et) as [-> ->].
      now rewrite (IH out0 Hrest0).
Qed.

End RegexFacts.

(* ------------------------------------------------------------------ *)
(** ** The dictionary pass *)

Module DictionaryFacts.
Import Dictionary Spec.

Lemma optTrim_trimmable v :
  trimmable v = true ->
  exists t, optTrim v = Ok t
            /\ truthy t = match v with
                          | JStr s => negb (trim s =? "")
                          | _ => false
                          end.
Proof.
  destruct v; simpl; try discriminate; intros _; eexists; split; reflexivity.
Qed.

Lemma isValidEntry_wellTyped targetLang e :
  wellTyped targetLang e -> isValidEntry targetLang e = Ok (kept targetLang e).
Proof.
  intros [Ht He]. unfold isValidEntry, kept, hasText.
  destruct (optTrim_trimmable _ Ht) as (t1 & -> & H1).
  destruct (optTrim_trimmable _ He) as (t2 & -> & H2).
  simpl. now rewrite H1, H2.
Qed.

Lemma filterValid_wellTyped targetLang es :
  Forall (wellTyped targetLang) es ->
  filterValid targetLang es = Ok (filter (kept targetLang) es).
Proof.
  induction 1 as [|e es He Hes IH]; simpl; [reflexivity|].
  rewrite (isValidEntry_wellTyped _ _ He), IH. reflexivity.
Qed.

Lemma comparator_gt targetLang e x :
  (comparator targetLang e x >? 0)%Z = true
  <-> (termLength targetLang e < termLength targetLang x)%nat.
Proof.
  unfold comparator, termLength. rewrite Z.gtb_lt. lia.
Qed.

Lemma insertSorted_perm cmp e l : Permutation (e :: l) (insertSorted cmp e l).
Proof.
  induction l as [|x l IH]; simpl; [reflexivity|].
  destruct (cmp e x >? 0)%Z; [|reflexivity].
  rewrite perm_swap. now constructor.
Qed.

Lemma sort_perm cmp l : Permutation l (sort cmp l).
Proof.
  induction l as [|e l IH]; simpl; [constructor|].
  rewrite <- insertSorted_perm. now constructor.
Qed.

Lemma insertSorted_sorted targetLang e l :
  StronglySorted (longerFirst targetLang) l ->
  StronglySorted (longerFirst targetLang)
    (insertSorted (comparator targetLang) e l).
Proof.
  induction 1 as [|x l Hl IH Hx]; simpl; [repeat constructor|].
  destruct (comparator targetLang e x >? 0)%Z eqn:Hc.
  - apply comparator_gt in Hc. constructor; [exact IH|].
    rewrite <- insertSorted_perm. constructor; [|exact Hx].
    unfold longerFirst. lia.
  - assert (Hle : (termLength targetLang x <= termLength targetLang e)%nat).
    { destruct (Nat.le_gt_cases (termLength targetLang x) (termLength targetLang e))
        as [H|H]; [exact H|].
      apply comparator_gt in H. congruence. }
    constructor; [now constructor|]. constructor; [exact Hle|].
    rewrite Forall_forall in Hx |- *. intros y Hy. specialize (Hx y Hy).
    unfold longerFirst in *. lia.
Qed.

Lemma sort_sorted targetLang l :
  StronglySorted (longerFirst targetLang) (sort (comparator targetLang) l).
Proof.
  induction l as [|e l IH]; simpl; [constructor|].
  now apply insertSorted_sorted.
Qed.

Lemma insertSorted_stable targetLang n e l :
  filter (ofLength targetLang n) (insertSorted (comparator targetLang) e l)
  = filter (ofLength targetLang n) (e :: l).
Proof.
  induction l as [|x l IH]; [reflexivity|].
  cbn [insertSorted].
  destruct (comparator targetLang e x >? 0)%Z eqn:Hc; [|reflexivity].
  apply comparator_gt in Hc. cbn [filter] in *. rewrite IH.
  unfold ofLength.
  destruct (termLength targetLang e =? n)%nat eqn:He; [|reflexivity].
  apply Nat.eqb_eq in He.
  replace (termLength targetLang x =? n)%nat with false; [reflexivity|].
  symmetry. apply Nat.eqb_neq. lia.
Qed.

(** The sort is stable: entries of one length keep their dictionary order. *)
Lemma sort_stable targetLang n l :
  filter (ofLength targetLang n) (sort (comparator targetLang) l)
  = filter (ofLength targetLang n) l.
Proof.
  induction l as [|e l IH]; [reflexivity|].
  cbn [sort fold_right]. fold (sort (comparator targetLang) l).
  rewrite insertSorted_stable. cbn [filter]. now rewrite IH.
Qed.

Lemma replaceEntry_whole_word targetLang text e :
  HasMatch (Regex.mkRegex true (term targetLang e)) text ->
  replaceEntry targetLang text e
  = Regex.replace (Regex.mkRegex true (term targetLang e)) (term "en" e) text.
Proof.
  intros H. apply RegexFacts.test_spec in H. unfold replaceEntry. now rewrite H.
Qed.

Lemma replaceEntry_fallback targetLang text e :
  ~ HasMatch (Regex.mkRegex true (term targetLang e)) text ->
  replaceEntry targetLang text e
  = Regex.replace (Regex.mkRegex false (term targetLang e)) (term "en" e) text.
Proof.
  intros H. unfold replaceEntry.
  destruct (Regex.test (Regex.mkRegex true (term targetLang e)) text) eqn:Ht;
    [|reflexivity].
  apply RegexFacts.test_spec in Ht. contradiction.
Qed.

Lemma replaceEntry_no_occurrence targetLang text e :
  ~ HasMatch (Regex.mkRegex false (term targetLang e)) text ->
  replaceEntry targetLang text e = text.
Proof.
  intros H. rewrite replaceEntry_fallback.
  - apply RegexFacts.replace_no_match.
    destruct (Regex.test (Regex.mkRegex false (term targetLang e)) text) eqn:Ht;
      [|reflexivity].
    apply RegexFacts.test_spec in Ht. contradiction.
  - intros Hw. apply H. now apply RegexFacts.whole_word_is_match.
Qed.

Lemma fold_no_occurrence targetLang text order :
  (forall e, In e order ->
             ~ HasMatch (Regex.mkRegex false (term targetLang e)) text) ->
  fold_left (replaceEntry targetLang) order text = text.
Proof.
  induction order as [|e order IH]; intros H; simpl; [reflexivity|].
  rewrite replaceEntry_no_occurrence by (apply H; now left).
  apply IH. intros x Hx. apply H. now right.
Qed.

Lemma kept_term_nonempty targetLang e :
  kept targetLang e = true -> term targetLang e <> "".
Proof.
  unfold kept, hasText, term. intros H. apply andb_true_iff in H as [H _].
  destruct (prop e targetLang); try discriminate.
  apply negb_true_iff, String.eqb_neq in H. exact H.
Qed.

(** C3, as amended. When every localized and English field of the
    dictionary is a string or absent, the pass keeps the entries whose
    localized form for the target language and whose English form are both
    non-blank, and processes them by length of the trimmed localized form,
    longest first and in dictionary order among equal lengths.  Each entry
    replaces, up to case, the whole-word occurrences of its term when the
    text has one and all its occurrences otherwise: its pass returns the one
    text in which, taken from left to right and without overlap, each of
    these occurrences has given way to the English form, which is inserted
    as it is unless it holds a dollar sign.  The
    result is a function of the table, the text and the language, and a text
    in which no kept term occurs is returned as it is.  (That a term and a
    shorter term it contains are never mixed is not part of it.) *)
Theorem dictionary_pass_longest_first :
  forall (dict : list entry) (targetLang text : string),
    Forall (wellTyped targetLang) dict ->
    exists order,
      applyWordReplacements dict (JStr text) targetLang
      = JStr (fold_left (replaceEntry targetLang) order text)
      /\ Permutation (filter (kept targetLang) dict) order
      /\ StronglySorted (longerFirst targetLang) order
      /\ (forall n, filter (ofLength targetLang n) order
                    = filter (ofLength targetLang n)
                        (filter (kept targetLang) dict))
      /\ (forall e t,
            (HasMatch (Regex.mkRegex true (term targetLang e)) t ->
             replaceEntry targetLang t e
             = Regex.replace (Regex.mkRegex true (term targetLang e))
                 (term "en" e) t)
            /\ (~ HasMatch (Regex.mkRegex true (term targetLang e)) t ->
                replaceEntry targetLang t e
                = Regex.replace (Regex.mkRegex false (term targetLang e))
                    (term "en" e) t))
      /\ (forall e t,
            In e order ->
            (HasMatch (Regex.mkRegex true (term targetLang e)) t ->
             forall out,
               Substituted (Regex.mkRegex true (term targetLang e))
                 (term "en" e) "" t out
               <-> out = replaceEntry targetLang t e)
            /\ (~ HasMatch (Regex.mkRegex true (term targetLang e)) t ->
                forall out,
                  Substituted (Regex.mkRegex false (term targetLang e))
                    (term "en" e) "" t out
                  <-> out = replaceEntry targetLang t e))
      /\ (forall english m before after,
            includes "$" english = false ->
            Regex.expand english m before after = english)
      /\ ((forall e, In e order ->
                     ~ HasMatch (Regex.mkRegex false (term targetLang e)) text) ->
          applyWordReplacements dict (JStr text) targetLang = JStr text).
Proof.
  intros dict targetLang text Htyped.
  set (order := sort (comparator targetLang) (filter (kept targetLang) dict)).
  assert (Hperm : Permutation (filter (kept targetLang) dict) order)
    by apply sort_perm.
  assert (Hnonempty : forall e, In e order -> term targetLang e <> "").
  { intros e He. apply kept_term_nonempty.
    apply (Permutation_in _ (Permutation_sym Hperm)) in He.
    now apply filter_In in He. }
  assert (Hrun : applyWordReplacements dict (JStr text) targetLang
                 = JStr (fold_left (replaceEntry targetLang) order text)).
  { unfold applyWordReplacements.
    rewrite (filterValid_wellTyped _ _ Htyped). fold order.
    destruct text as [|c text]; [|reflexivity].
    cbn [truthy negb String.eqb]. rewrite fold_no_occurrence; [reflexivity|].
    intros e He. apply RegexFacts.no_match_in_empty. cbn. now apply Hnonempty. }
  exists order. split; [exact Hrun|]. split; [exact Hperm|].
  split; [apply sort_sorted|]. split; [intros n; apply sort_stable|].
  split; [|split; [|split]].
  - intros e t. split;
      [apply replaceEntry_whole_word|apply replaceEntry_fallback].
  - intros e t He.
    assert (Hspec : forall b out,
               Substituted (Regex.mkRegex b (term targetLang e))
                 (term "en" e) "" t out
               <-> out = Regex.replace (Regex.mkRegex b (term targetLang e))
                           (term "en" e) t).
    { intros b out.
      assert (Hlit : Regex.literal (Regex.mkRegex b (term targetLang e)) <> "")
        by (cbn; now apply Hnonempty).
      pose proof (RegexFacts.replace_substituted _ (term "en" e) t Hlit) as Hr.
      split; [|now intros ->].
      intros Hout. exact (RegexFacts.Substituted_unique _ _ Hlit _ _ _ Hout _ Hr). }
    split; intros Hm out.
    + rewrite (replaceEntry_whole_word _ _ _ Hm). apply Hspec.
    + rewrite (replaceEntry_fallback _ _ _ Hm). apply Hspec.
  - apply RegexFacts.expand_plain.
  - intros Hnone. rewrite Hrun. now rewrite fold_no_occurrence.
Qed.

Lemma dictionary_pass_longest_first_witness :
  exists order,
    applyWordReplacements [Samples.colour; Samples.colourful]
      (JStr "A Colourful colour") "fr"
    = JStr (fold_left (replaceEntry "fr") order "A Colourful colour")
    /\ Permutation [Samples.colour; Samples.colourful] order
    /\ StronglySorted (longerFirst "fr") order.
Proof.
  destruct (dictionary_pass_longest_first [Samples.colour; Samples.colourful]
              "fr" "A Colourful colour")
    as (order & Hrun & Hperm & Hsorted & _).
  - repeat constructor.
  - exists order. split; [exact Hrun|]. split; [exact Hperm|exact Hsorted].
Defined.

(** C3, the claim as stated fails: with the entries colour -> hue and
    colourful -> vivid, the text "colourful xcolourfulx" holds the longer
    term twice.  The pass of the longer entry finds a whole-word match and so
    replaces that one only; the shorter entry then finds no whole-word match
    and its fallback rewrites the part "colour" of the occurrence that was
    left. *)
Lemma embedded_longer_term_is_partly_replaced :
  applyWordReplacements [Samples.hue; Samples.vivid]
    (JStr "colourful xcolourfulx") "fr" = JStr "vivid xhuefulx"
  /\ partlyReplaced "fr" Samples.vivid Samples.hue
       "colourful xcolourfulx" "vivid xhuefulx".
Proof.
  split; [reflexivity|].
  exists "", "ful", "colourful x", "x", "vivid x", "x".
  repeat split. vm_compute. lia.
Qed.

End DictionaryFacts.

(* ------------------------------------------------------------------ *)
(** ** String primitives *)

Module PrimitiveFacts.

Lemma trimStart_head s :
  match trimStart s with
  | EmptyString => True
  | String c _ => isWhiteSpace c = false
  end.
Proof.
  induction s as [|c s IH]; simpl; [exact I|].
  destruct (isWhiteSpace c) eqn:E; [exact IH|exact E].
Qed.

Lemma trimStart_fixed c s :
  isWhiteSpace c = false -> trimStart (String c s) = String c s.
Proof. intros H. simpl. now rewrite H. Qed.

Lemma trimEnd_keeps_head c s :
  isWhiteSpace c = false -> exists r, trimEnd (String c s) = String c r.
Proof.
  intros H. simpl. destruct (trimEnd s); rewrite ?H; eexists; reflexivity.
Qed.

Lemma trimEnd_idempotent s : trimEnd (trimEnd s) = trimEnd s.
Proof.
  induction s as [|c s IH]; simpl; [reflexivity|].
  destruct (trimEnd s) as [|d r] eqn:E.
  - destruct (isWhiteSpace c) eqn:W; simpl; [reflexivity|now rewrite W].
  - simpl in IH. simpl. destruct (trimEnd r) as [|d' r'] eqn:E'.
    + destruct (isWhiteSpace d) eqn:Wd; [discriminate|].
      injection IH as <-. reflexivity.
    + now rewrite IH.
Qed.

Lemma trimEnd_last s :
  match Regex.lastOpt None (trimEnd s) with
  | None => trimEnd s = EmptyString
  | Some c => isWhiteSpace c = false
  end.
Proof.
  assert (H : forall prev,
             match Regex.lastOpt prev (trimEnd s) with
             | None => prev = None /\ trimEnd s = EmptyString
             | Some c => isWhiteSpace c = false \/ (prev = Some c /\ trimEnd s = EmptyString)
             end).
  { induction s as [|c s IH]; intros prev; simpl.
    - destruct prev; auto.
    - destruct (trimEnd s) as [|d r] eqn:E.
      + destruct (isWhiteSpace c) eqn:W; simpl.
        * destruct prev; auto.
        * now left.
      + specialize (IH (Some c)). simpl in *.
        destruct (Regex.lastOpt (Some d) r).
        * destruct IH as [IH|[_ IH]]; [now left|discriminate].
        * destruct IH as [IH _]. discriminate. }
  specialize (H None). destruct (Regex.lastOpt None (trimEnd s)).
  - destruct H as [H|[H _]]; [exact H|discriminate].
  - apply H.
Qed.

(** Trimming twice is trimming once, and a trimmed text neither starts nor
    ends with white space. *)
Lemma trim_is_idempotent_and_tight :
  forall s : string,
    trim (trim s) = trim s
    /\ match Regex.headOpt (trim s) with
       | Some c => isWhiteSpace c = false
       | None => trim s = EmptyString
       end
    /\ match Regex.lastOpt None (trim s) with
       | Some c => isWhiteSpace c = false
       | None => trim s = EmptyString
       end.
Proof.
  intros s. unfold trim.
  pose proof (trimStart_head s) as Hhead.
  destruct (trimStart s) as [|c t] eqn:E.
  - simpl. repeat split.
  - destruct (trimEnd_keeps_head c t Hhead) as [r Hr].
    split; [|split].
    + rewrite Hr, (trimStart_fixed c r Hhead), <- Hr. apply trimEnd_idempotent.
    + rewrite Hr. exact Hhead.
    + apply trimEnd_last.
Qed.

Lemma lowerChar_idempotent c : lowerChar (lowerChar c) = lowerChar c.
Proof. destruct c as [[|] [|] [|] [|] [|] [|] [|] [|]]; reflexivity. Qed.

Lemma canonicalize_lowerChar c : canonicalize (lowerChar c) = canonicalize c.
Proof. destruct c as [[|] [|] [|] [|] [|] [|] [|] [|]]; reflexivity. Qed.

Lemma isWordChar_lowerChar c : Regex.isWordChar (lowerChar c) = Regex.isWordChar c.
Proof. destruct c as [[|] [|] [|] [|] [|] [|] [|] [|]]; reflexivity. Qed.

Lemma isWhiteSpace_lowerChar c : isWhiteSpace (lowerChar c) = isWhiteSpace c.
Proof. destruct c as [[|] [|] [|] [|] [|] [|] [|] [|]]; reflexivity. Qed.

Lemma toLowerCase_idempotent s : toLowerCase (toLowerCase s) = toLowerCase s.
Proof.
  unfold toLowerCase. induction s as [|c s IH]; simpl; [reflexivity|].
  now rewrite lowerChar_idempotent, IH.
Qed.

Lemma toLowerCase_length s : String.length (toLowerCase s) = String.length s.
Proof.
  unfold toLowerCase. induction s as [|c s IH]; simpl; congruence.
Qed.

End PrimitiveFacts.

(* ------------------------------------------------------------------ *)
(** ** More on insertion-ordered maps *)

Section JsMapMore.
Context {K V : Type} (eq_dec : forall a b : K, {a = b} + {a <> b}).
Implicit Types (k : K) (v : V) (m : list (K * V)).

Lemma get_set_other k k' v m :
  k' <> k -> JsMap.get eq_dec k' (JsMap.set eq_dec k v m) = JsMap.get eq_dec k' m.
Proof.
  intros Hne. induction m as [|[k0 v0] m IH]; simpl.
  - destruct (eq_dec k' k); [contradiction|reflexivity].
  - destruct (eq_dec k k0) as [->|E]; simpl.
    + destruct (eq_dec k' k0); [contradiction|reflexivity].
    + destruct (eq_dec k' k0); [reflexivity|exact IH].
Qed.

Lemma get_delete_other k k' m :
  k' <> k -> JsMap.get eq_dec k' (JsMap.delete eq_dec k m) = JsMap.get eq_dec k' m.
Proof.
  intros Hne. induction m as [|[k0 v0] m IH]; simpl; [reflexivity|].
  destruct (eq_dec k k0) as [->|E]; simpl.
  - destruct (eq_dec k' k0); [contradiction|exact IH].
  - destruct (eq_dec k' k0); [reflexivity|exact IH].
Qed.

Lemma set_keys_present k v v0 m :
  JsMap.get eq_dec k m = Some v0 ->
  map fst (JsMap.set eq_dec k v m) = map fst m.
Proof.
  induction m as [|[k0 w] m IH]; simpl; [discriminate|].
  destruct (eq_dec k k0); simpl; [reflexivity|].
  intros H. now rewrite IH.
Qed.

Lemma set_keys_absent k v m :
  JsMap.get eq_dec k m = None ->
  map fst (JsMap.set eq_dec k v m) = (map fst m ++ [k])%list.
Proof.
  induction m as [|[k0 w] m IH]; simpl; [reflexivity|].
  destruct (eq_dec k k0); simpl; [discriminate|].
  intros H. now rewrite IH.
Qed.

Lemma get_none_not_key k m :
  JsMap.get eq_dec k m = None -> ~ In k (map fst m).
Proof.
  induction m as [|[k0 w] m IH]; simpl; [tauto|].
  destruct (eq_dec k k0) as [->|E]; [discriminate|].
  intros H [H0|H0]; [congruence|now apply IH].
Qed.

Lemma NoDup_keys_set k v m :
  NoDup (map fst m) -> NoDup (map fst (JsMap.set eq_dec k v m)).
Proof.
  intros Hm. destruct (JsMap.get eq_dec k m) as [v0|] eqn:Hget.
  - now rewrite (set_keys_present _ _ _ _ Hget).
  - rewrite (set_keys_absent _ _ _ Hget).
    apply NoDup_app; [exact Hm|repeat constructor; intros []|].
    intros x Hx [<-|[]]. now apply (get_none_not_key _ _ Hget).
Qed.

Lemma delete_keys_incl k m x :
  In x (map fst (JsMap.delete eq_dec k m)) -> In x (map fst m).
Proof.
  induction m as [|[k0 w] m IH]; simpl; [tauto|].
  destruct (eq_dec k k0); simpl; [now right; apply IH|].
  intros [H|H]; [now left|right; now apply IH].
Qed.

Lemma NoDup_keys_delete k m :
  NoDup (map fst m) -> NoDup (map fst (JsMap.delete eq_dec k m)).
Proof.
  induction m as [|[k0 w] m IH]; simpl; [trivial|].
  intros Hm. inversion Hm as [|? ? Hnotin Hrest]; subst.
  destruct (eq_dec k k0); simpl; [now apply IH|].
  constructor; [|now apply IH].
  intros H. apply Hnotin. now apply delete_keys_incl in H.
Qed.

Lemma In_get k v m :
  NoDup (map fst m) -> In (k, v) m -> JsMap.get eq_dec k m = Some v.
Proof.
  induction m as [|[k0 w] m IH]; simpl; [tauto|].
  intros Hm [H|H]; inversion Hm as [|? ? Hnotin Hrest]; subst.
  - injection H as -> ->. now destruct (eq_dec k k).
  - destruct (eq_dec k k0) as [->|E]; [|now apply IH].
    exfalso. apply Hnotin. now apply (in_map fst) in H.
Qed.
End JsMapMore.

(* ------------------------------------------------------------------ *)
(** ** Joining and leaving rooms *)

Module RoomFacts.
Import Rooms.

Lemma handleLeave_effects socket roomId st e :
  In e (snd (handleLeave socket roomId st)) ->
  e = Emit (RoomExcept roomId socket) "user-disconnected" DNone
  \/ exists log, e = SaveTranscript roomId log.
Proof.
  unfold handleLeave.
  destruct (JsMap.get jsval_eq_dec roomId (rooms st)) as [room|]; [|intros []].
  cbn [participants].
  destruct (List.length (filter (notSocket socket) (participants room)) =? 0)%nat;
    cbn [snd].
  - intros [<-|H]; [now left|]. right. unfold saveTranscript in H.
    destruct (JsMap.get jsval_eq_dec roomId _) as [[|m log]|];
      cbn in H; try contradiction.
    destruct H as [<-|[]]. now eexists.
  - intros [<-|[]]. now left.
Qed.

Lemma leaveAll_effects socket rs :
  forall st e,
    In e (snd (leaveAll socket rs st)) ->
    exists roomId,
      e = Emit (RoomExcept roomId socket) "user-disconnected" DNone
      \/ exists log, e = SaveTranscript roomId log.
Proof.
  induction rs as [|r rs IH]; intros st e; simpl; [intros []|].
  destruct (jsval_eq_dec r (JStr socket)) as [_|_].
  - specialize (IH st e). destruct (leaveAll socket rs st). exact IH.
  - pose proof (handleLeave_effects socket r st e) as H1.
    destruct (handleLeave socket r st) as [st1 e1]. cbn [snd] in H1.
    specialize (IH st1 e). destruct (leaveAll socket rs st1) as [st2 e2].
    cbn [snd] in *. intros H. apply in_app_or in H as [H|H];
      [exists r; now apply H1|now apply IH].
Qed.



(** X2. 'user-joined' is emitted by nothing but a join that brings a room
    from one participant to two, and it is addressed to that first
    participant alone. *)
Theorem peer_is_told_only_when_paired :
  forall (cfg : config) (socket : string) (ev : event) (st : state)
         (t : target) (d : data),
    In (Emit t "user-joined" d) (snd (handle cfg socket ev st)) ->
    exists roomId opts room first,
      ev = Join roomId opts
      /\ JsMap.get jsval_eq_dec roomId (rooms st) = Some room
      /\ participants room = [first]
      /\ t = To (JStr first) /\ d = DNone
      /\ option_map participants
           (JsMap.get jsval_eq_dec roomId (rooms (fst (handle cfg socket ev st))))
         = Some [first; socket].
Proof.
  intros cfg socket ev st t d. destruct ev; cbn [handle].
  - unfold onAgentAvailabilityChanged, emitAgentsOnline.
    destruct (truthy _); cbn; intros H; repeat destruct H as [H|H];
      try discriminate H; contradiction.
  - cbn. intros [H|[]]. discriminate H.
  - unfold onCreateRoom.
    destruct (negb _); [|destruct (JsMap.has _ _ _)]; cbn;
      intros [H|[]]; discriminate H.
  - unfold onJoin. destruct (validRoomId roomId); cbn [negb].
    2: { cbn. intros [H|[]]. discriminate H. }
    destruct (JsMap.get jsval_eq_dec roomId (rooms st)) as [room|] eqn:Hget.
    2: { destruct opts as [c p|];
           [destruct (truthy (isCreator (mkJoinOpts c p)))|];
           cbn; intros [H|[]]; discriminate H. }
    destruct (Z.of_nat (List.length (participants room)) >=? maxRoomParticipants cfg)%Z.
    { cbn. intros [H|[]]. discriminate H. }
    cbn [participants snd fst]. rewrite length_app. cbn [List.length].
    destruct (participants room) as [|p [|q ps]] eqn:Hps; cbn.
    + intros [H|[H|[]]]; discriminate H.
    + intros [H|[H|[H|[]]]]; try discriminate H.
      injection H as <- <-. exists roomId, opts, room, p.
      repeat split; try assumption. now rewrite get_set_same.
    + replace (List.length ps + 1 =? 0)%nat with false
        by (symmetry; apply Nat.eqb_neq; lia).
      intros [H|[]]. discriminate H.
  - unfold onSignal, forwardToOther.
    destruct (JsMap.get _ _ _) as [room|]; [|intros []].
    destruct (find _ _) as [other|]; [|intros []].
    destruct (truthy _); [|intros []].
    destruct k; cbn; intros [H|[]]; discriminate H.
  - unfold onTranscript.
    repeat match goal with
           | |- context [if ?b then _ else _] => destruct b
           | |- context [match ?x with Some _ => _ | None => _ end] => destruct x
           end; cbn; first [intros [H|[]]; discriminate H | intros []].
  - unfold onLocalTranslation. destruct data0 as [data0|];
      [destruct (truthy _)|]; cbn; first [intros [H|[]]; discriminate H|intros []].
  - unfold onLeave.
    pose proof (handleLeave_effects socket roomId st (Emit t "user-joined" d)) as H1.
    destruct (handleLeave socket roomId st) as [st1 e1]. cbn [snd] in *.
    intros H. apply in_app_or in H as [H|H].
    + destruct (H1 H) as [H2|[log H2]]; discriminate H2.
    + destruct H as [H|[]]. discriminate H.
  - cbn. intros [H|[]]. discriminate H.
  - intros H. apply leaveAll_effects in H as [r [H|[log H]]]; discriminate H.
  - unfold onDisconnect, emitActiveMeetings, emitAgentsOnline. cbn.
    intros [H|[H|[]]]; discriminate H.
  - cbn. intros [H|[]]. discriminate H.
Qed.

Lemma peer_is_told_only_when_paired_witness :
  exists roomId opts room first,
    Join (JStr "r1") Samples.asJoiner = Join roomId opts
    /\ JsMap.get jsval_eq_dec roomId
         (rooms (fst (onJoin defaultConfig "A" (JStr "r1") Samples.asCreator initial)))
       = Some room
    /\ participants room = [first]
    /\ To (JStr "A") = To (JStr first) /\ DNone = DNone
    /\ option_map participants
         (JsMap.get jsval_eq_dec roomId (rooms Samples.twoParty))
       = Some [first; "B"].
Proof.
  apply (peer_is_told_only_when_paired defaultConfig "B"
           (Join (JStr "r1") Samples.asJoiner)
           (fst (onJoin defaultConfig "A" (JStr "r1") Samples.asCreator initial))
           (To (JStr "A")) DNone).
  vm_compute. right. left. reflexivity.
Defined.

Lemma filter_notSocket_out socket ps : ~ In socket (filter (notSocket socket) ps).
Proof.
  intros H. apply filter_In in H as [_ H].
  apply RelayFacts.notSocket_true in H. congruence.
Qed.

(** X3. After a 'leave', the room is either gone or still has participants,
    none of which is the socket that left; no other room and no other
    transcript buffer has changed, nor have the availability table and the
    socket.io rooms. *)
Theorem leave_removes_the_socket_only :
  forall (socket : string) (roomId : jsval) (st : state),
    let st' := fst (onLeave socket roomId st) in
    match JsMap.get jsval_eq_dec roomId (rooms st') with
    | Some room => ~ In socket (participants room) /\ participants room <> []
    | None => True
    end
    /\ (forall other, other <> roomId ->
          JsMap.get jsval_eq_dec other (rooms st')
          = JsMap.get jsval_eq_dec other (rooms st)
          /\ JsMap.get jsval_eq_dec other (transcripts st')
             = JsMap.get jsval_eq_dec other (transcripts st))
    /\ agentAvailability st' = agentAvailability st
    /\ socketRooms st' = socketRooms st.
Proof.
  intros socket roomId st st'. subst st'.
  destruct (JsMap.get jsval_eq_dec roomId (rooms st)) as [room|] eqn:Hget.
  - destruct (filter (notSocket socket) (participants room)) as [|p ps] eqn:Hf.
    + rewrite (LeaveFacts.onLeave_last _ _ _ _ Hget Hf). cbn.
      rewrite get_delete_same. split; [exact I|]. split; [|now split].
      intros other Hne. now rewrite !get_delete_other.
    + assert (Hne : filter (notSocket socket) (participants room) <> [])
        by (rewrite Hf; discriminate).
      rewrite (LeaveFacts.onLeave_others _ _ _ _ Hget Hne). cbn.
      rewrite get_set_same. cbn. split; [|split; [|now split]].
      * split; [apply filter_notSocket_out|exact Hne].
      * intros other Hother. now rewrite get_set_other.
  - rewrite (LeaveFacts.onLeave_no_room _ _ _ Hget). cbn. rewrite Hget.
    split; [exact I|]. split; [|now split].
    intros other Hne. now rewrite get_delete_other.
Qed.

(** X4. Creating a room by a join and leaving it at once gives the room
    store back as it was. *)
Theorem create_then_leave_restores_rooms :
  forall (cfg : config) (socket : string) (roomId : jsval) (opts : joinOpts)
         (st : state),
    validRoomId roomId = true ->
    truthy (isCreator opts) = true ->
    JsMap.get jsval_eq_dec roomId (rooms st) = None ->
    let created := onJoin cfg socket roomId opts st in
    snd created = [Emit (Self socket) "created" (DValue roomId)]
    /\ rooms (fst (onLeave socket roomId (fst created))) = rooms st.
Proof.
  intros cfg socket roomId opts st Hvalid Hcreator Hget created. subst created.
  destruct opts as [c p|]; [|discriminate Hcreator].
  unfold onJoin. rewrite Hvalid, Hget, Hcreator. cbn [negb fst snd].
  split; [reflexivity|].
  erewrite LeaveFacts.onLeave_last.
  - cbn. rewrite LeaveFacts.delete_set. now apply delete_absent.
  - cbn. apply get_set_same.
  - cbn. unfold notSocket. now rewrite String.eqb_refl.
Qed.

Lemma create_then_leave_restores_rooms_witness :
  snd (onJoin defaultConfig "A" (JStr "r1") Samples.asCreator initial)
  = [Emit (Self "A") "created" (DValue (JStr "r1"))]
  /\ rooms (fst (onLeave "A" (JStr "r1")
                   (fst (onJoin defaultConfig "A" (JStr "r1") Samples.asCreator
                           initial))))
     = rooms initial.
Proof.
  apply (create_then_leave_restores_rooms defaultConfig "A" (JStr "r1")
           Samples.asCreator initial); reflexivity.
Defined.

Lemma handleLeave_keeps_out socket roomId other st :
  (forall room, JsMap.get jsval_eq_dec roomId (rooms st) = Some room ->
                ~ In socket (participants room)) ->
  forall room,
    JsMap.get jsval_eq_dec roomId (rooms (fst (handleLeave socket other st)))
    = Some room ->
    ~ In socket (participants room).
Proof.
  intros Hout room. unfold handleLeave.
  destruct (JsMap.get jsval_eq_dec other (rooms st)) as [r0|] eqn:Hget;
    [|apply Hout].
  cbn [participants].
  destruct (jsval_eq_dec roomId other) as [->|Hne].
  - destruct (List.length (filter (notSocket socket) (participants r0)) =? 0)%nat;
      cbn; [now rewrite get_delete_same|].
    rewrite get_set_same. intros [= <-]. apply filter_notSocket_out.
  - destruct (List.length (filter (notSocket socket) (participants r0)) =? 0)%nat;
      cbn; rewrite ?get_delete_other, get_set_other by exact Hne; apply Hout.
Qed.

Lemma handleLeave_puts_out socket roomId st room :
  JsMap.get jsval_eq_dec roomId (rooms (fst (handleLeave socket roomId st)))
  = Some room ->
  ~ In socket (participants room).
Proof.
  unfold handleLeave.
  destruct (JsMap.get jsval_eq_dec roomId (rooms st)) as [r0|] eqn:Hget;
    [|cbn; congruence].
  cbn [participants].
  destruct (List.length (filter (notSocket socket) (participants r0)) =? 0)%nat;
    cbn; [now rewrite get_delete_same|].
  rewrite get_set_same. intros [= <-]. apply filter_notSocket_out.
Qed.

Lemma leaveAll_keeps_out socket roomId rs :
  forall st,
    (forall room, JsMap.get jsval_eq_dec roomId (rooms st) = Some room ->
                  ~ In socket (participants room)) ->
    forall room,
      JsMap.get jsval_eq_dec roomId (rooms (fst (leaveAll socket rs st)))
      = Some room ->
      ~ In socket (participants room).
Proof.
  induction rs as [|r rs IH]; intros st Hout; simpl; [exact Hout|].
  destruct (jsval_eq_dec r (JStr socket)) as [_|_].
  - specialize (IH st Hout). destruct (leaveAll socket rs st). exact IH.
  - pose proof (handleLeave_keeps_out socket roomId r st Hout) as H1.
    destruct (handleLeave socket r st) as [st1 e1]. cbn [fst] in H1.
    specialize (IH st1 H1). destruct (leaveAll socket rs st1). exact IH.
Qed.

(** X5. When a socket disconnects, it is taken out of every room of its
    [socket.rooms] other than the one named by its own id: no such room
    still lists it as a participant. *)
Theorem disconnecting_leaves_every_joined_room :
  forall (socket : string) (st : state) (roomId : jsval) (room : Rooms.room),
    In roomId (roomsOf socket st) ->
    roomId <> JStr socket ->
    JsMap.get jsval_eq_dec roomId (rooms (fst (onDisconnecting socket st)))
    = Some room ->
    ~ In socket (participants room).
Proof.
  intros socket st roomId room. unfold onDisconnecting.
  generalize (roomsOf socket st) as rs. intros rs. revert st room.
  induction rs as [|r rs IH]; intros st room Hin Hne; [destruct Hin|].
  simpl. destruct (jsval_eq_dec r (JStr socket)) as [->|Hr].
  - destruct Hin as [Hin|Hin]; [congruence|].
    specialize (IH st room Hin Hne). destruct (leaveAll socket rs st). exact IH.
  - destruct Hin as [<-|Hin].
    + pose proof (handleLeave_puts_out socket r st) as H1.
      destruct (handleLeave socket r st) as [st1 e1]. cbn [fst] in H1.
      pose proof (leaveAll_keeps_out socket r rs st1 H1 room) as H2.
      destruct (leaveAll socket rs st1). exact H2.
    + destruct (handleLeave socket r st) as [st1 e1].
      specialize (IH st1 room Hin Hne). destruct (leaveAll socket rs st1).
      exact IH.
Qed.

Lemma disconnecting_leaves_every_joined_room_witness :
  JsMap.get jsval_eq_dec (JStr "r1")
    (rooms (fst (onDisconnecting "B" Samples.twoParty)))
  = Some (mkRoom ["A"] true JUndefined)
  /\ ~ In "B" (participants (mkRoom ["A"] true JUndefined)).
Proof.
  split; [reflexivity|].
  apply (disconnecting_leaves_every_joined_room "B" Samples.twoParty (JStr "r1")
           (mkRoom ["A"] true JUndefined)).
  - vm_compute. right. left. reflexivity.
  - discriminate.
  - reflexivity.
Defined.

(** Two facts on the states the server can be in: the keys of [rooms] are
    distinct and no transcript buffer is empty. *)
Lemma handleLeave_shape socket roomId st :
  NoDup (map fst (rooms st)) /\ Forall (fun kl => snd kl <> []) (transcripts st) ->
  NoDup (map fst (rooms (fst (handleLeave socket roomId st))))
  /\ Forall (fun kl => snd kl <> []) (transcripts (fst (handleLeave socket roomId st))).
Proof.
  intros [Hk Hb]. unfold handleLeave.
  destruct (JsMap.get jsval_eq_dec roomId (rooms st)) as [room|]; [|now split].
  cbn [participants].
  destruct (List.length (filter (notSocket socket) (participants room)) =? 0)%nat;
    cbn; split;
    auto using NoDup_keys_set, NoDup_keys_delete, Forall_delete.
Qed.

Lemma leaveAll_shape socket rs :
  forall st,
    NoDup (map fst (rooms st)) /\ Forall (fun kl => snd kl <> []) (transcripts st) ->
    NoDup (map fst (rooms (fst (leaveAll socket rs st))))
    /\ Forall (fun kl => snd kl <> []) (transcripts (fst (leaveAll socket rs st))).
Proof.
  induction rs as [|r rs IH]; intros st H; simpl; [exact H|].
  destruct (jsval_eq_dec r (JStr socket)) as [_|_].
  - specialize (IH st H). destruct (leaveAll socket rs st). exact IH.
  - pose proof (handleLeave_shape socket r st H) as H1.
    destruct (handleLeave socket r st) as [st1 e1]. cbn [fst] in H1.
    specialize (IH st1 H1). destruct (leaveAll socket rs st1). exact IH.
Qed.

Lemma handle_shape cfg socket ev st :
  NoDup (map fst (rooms st)) /\ Forall (fun kl => snd kl <> []) (transcripts st) ->
  NoDup (map fst (rooms (fst (handle cfg socket ev st))))
  /\ Forall (fun kl => snd kl <> []) (transcripts (fst (handle cfg socket ev st))).
Proof.
  intros H. pose proof H as [Hk Hb]. destruct ev; cbn [handle]; try exact H.
  - unfold onAgentAvailabilityChanged. destruct (truthy _); [|exact H].
    destruct (String.eqb _ _); exact H.
  - unfold onCreateRoom. destruct (negb _); [exact H|].
    destruct (JsMap.has _ _ _); [exact H|]. cbn.
    split; [now apply NoDup_keys_set|exact Hb].
  - unfold onJoin. destruct (negb _); [exact H|].
    destruct (JsMap.get _ _ _) as [room|].
    + destruct (_ >=? _)%Z; [exact H|]. cbn.
      split; [now apply NoDup_keys_set|exact Hb].
    + destruct opts as [c p|]; [|exact H].
      destruct (truthy _); [|exact H]. cbn.
      split; [now apply NoDup_keys_set|exact Hb].
  - unfold onSignal, forwardToOther.
    repeat match goal with
           | |- context [if ?b then _ else _] => destruct b
           | |- context [match ?x with Some _ => _ | None => _ end] => destruct x
           end; exact H.
  - rewrite CapacityFacts.onTranscript_rooms. split; [exact Hk|].
    unfold onTranscript. destruct (negb (truthy (field msg "roomId"))); [exact Hb|].
    assert (Hset : Forall (fun kl : jsval * list object => snd kl <> [])
              (JsMap.set jsval_eq_dec (field msg "roomId")
                 (match JsMap.get jsval_eq_dec (field msg "roomId") (transcripts st) with
                  | Some l => l
                  | None => []
                  end ++
                  [JsMap.set string_dec "timestamp"
                     (jsOr (field msg "timestamp") (JNum now)) msg])%list
                 (transcripts st))).
    { apply Forall_set; [exact Hb|]. cbn. intros E.
      apply app_eq_nil in E as [_ E]. discriminate E. }
    repeat match goal with
           | |- context [if ?b then _ else _] => destruct b
           | |- context [match ?x with Some _ => _ | None => _ end] => destruct x
           end; exact Hset.
  - unfold onLocalTranslation. destruct data0 as [d|]; [|exact H].
    destruct (truthy _); exact H.
  - unfold onLeave.
    pose proof (handleLeave_shape socket roomId st H) as H1.
    destruct (handleLeave socket roomId st) as [st1 e1]. cbn [fst] in H1.
    destruct H1 as [H1 H2].
    destruct (match JsMap.get jsval_eq_dec roomId (rooms st1) with
              | Some room => (List.length (participants room) =? 0)%nat
              | None => true
              end); cbn; split;
      auto using NoDup_keys_delete, Forall_delete.
  - now apply leaveAll_shape.
Qed.

Lemma reachable_shape cfg st :
  reachable cfg st ->
  NoDup (map fst (rooms st)) /\ Forall (fun kl => snd kl <> []) (transcripts st).
Proof.
  intros [evs <-].
  assert (H : forall st0,
             NoDup (map fst (rooms st0))
             /\ Forall (fun kl => snd kl <> []) (transcripts st0) ->
             NoDup (map fst (rooms (fst (run cfg evs st0))))
             /\ Forall (fun kl => snd kl <> [])
                  (transcripts (fst (run cfg evs st0)))).
  { induction evs as [|[socket ev] evs IH]; intros st0 H0; simpl; [exact H0|].
    pose proof (handle_shape cfg socket ev st0 H0) as H1.
    destruct (handle cfg socket ev st0) as [st1 e1]. cbn [fst] in H1.
    specialize (IH st1 H1). destruct (run cfg evs st1). exact IH. }
  apply H. split; constructor.
Qed.

Lemma NoDup_keys_filter {V} (f : jsval * V -> bool) (l : list (jsval * V)) :
  NoDup (map fst l) -> NoDup (map fst (filter f l)).
Proof.
  induction l as [|x l IH]; simpl; [trivial|].
  intros H. inversion H as [|? ? Hnotin Hrest]; subst.
  destruct (f x); simpl; [|now apply IH].
  constructor; [|now apply IH].
  intros Hin. apply Hnotin. apply in_map_iff in Hin as (y & Hy & Hin).
  apply filter_In in Hin as [Hin _]. rewrite <- Hy. now apply in_map.
Qed.

(** X6. In every state the server can be in, the list sent with
    'active-meetings' holds exactly the public rooms that have a participant,
    each once and with its number of participants, which lies between one
    and the configured capacity; a private room is never listed. *)
Theorem active_meetings_are_the_public_occupied_rooms :
  forall (cfg : config) (st : state),
    (1 <= maxRoomParticipants cfg)%Z ->
    reachable cfg st ->
    (forall roomId n,
        In (roomId, n) (activeMeetings st)
        <-> exists room,
              JsMap.get jsval_eq_dec roomId (rooms st) = Some room
              /\ isPublic room = true
              /\ n = List.length (participants room)
              /\ (1 <= n)%nat)
    /\ NoDup (map fst (activeMeetings st))
    /\ (forall roomId n,
          In (roomId, n) (activeMeetings st) ->
          (Z.of_nat n <= maxRoomParticipants cfg)%Z).
Proof.
  intros cfg st Hcap Hreach.
  destruct (reachable_shape cfg st Hreach) as [Hkeys _].
  pose proof (CapacityFacts.reachable_allOk cfg st Hcap Hreach) as Hok.
  assert (Hiff : forall roomId n,
             In (roomId, n) (activeMeetings st)
             <-> exists room,
                   JsMap.get jsval_eq_dec roomId (rooms st) = Some room
                   /\ isPublic room = true
                   /\ n = List.length (participants room)
                   /\ (1 <= n)%nat).
  { intros roomId n. unfold activeMeetings. rewrite in_map_iff. split.
    - intros ([k room] & Heq & Hin). cbn in Heq. injection Heq as -> <-.
      apply filter_In in Hin as [Hin Hp]. cbn [snd] in Hp.
      apply andb_true_iff in Hp as [Hpub Hpos]. apply Nat.ltb_lt in Hpos.
      exists room. split; [now apply In_get|]. repeat split; [exact Hpub|lia].
    - intros (room & Hget & Hpub & -> & Hpos). exists (roomId, room).
      split; [reflexivity|]. apply filter_In. split; [now apply get_In in Hget|].
      cbn [snd]. rewrite Hpub. apply Nat.ltb_lt. lia. }
  split; [exact Hiff|]. split.
  - unfold activeMeetings. rewrite map_map. cbn.
    now apply NoDup_keys_filter.
  - intros roomId n Hin. apply Hiff in Hin as (room & Hget & _ & -> & _).
    now destruct (CapacityFacts.allOk_lookup _ _ _ _ Hok Hget).
Qed.

Lemma active_meetings_are_the_public_occupied_rooms_witness :
  In (JStr "r1", 2%nat) (activeMeetings Samples.twoParty)
  /\ NoDup (map fst (activeMeetings Samples.twoParty)).
Proof.
  destruct (active_meetings_are_the_public_occupied_rooms defaultConfig
              Samples.twoParty) as (Hiff & Hnodup & _).
  - vm_compute. discriminate.
  - exact CapacityFacts.twoParty_reachable.
  - split; [|exact Hnodup]. apply Hiff.
    exists (mkRoom ["A"; "B"] true JUndefined). repeat split. lia.
Defined.

(** X7. Under a capacity of two, the Join button the client shows for a
    listed meeting is disabled exactly when a join on that room would be
    answered 'full'. *)
Theorem join_button_agrees_with_server :
  forall (cfg : config) (st : state) (socket : string) (opts : joinOpts)
         (roomId : jsval) (n : nat),
    maxRoomParticipants cfg = 2%Z ->
    reachable cfg st ->
    In (roomId, n) (activeMeetings st) ->
    (Client.joinDisabled n = true
     <-> snd (onJoin cfg socket roomId opts st)
         = [Emit (Self socket) "full" (DValue roomId)]).
Proof.
  intros cfg st socket opts roomId n Hcap Hreach Hin.
  destruct (reachable_shape cfg st Hreach) as [Hkeys _].
  assert (Hcap1 : (1 <= maxRoomParticipants cfg)%Z) by lia.
  pose proof (CapacityFacts.reachable_allOk cfg st Hcap1 Hreach) as Hok.
  unfold activeMeetings in Hin. apply in_map_iff in Hin as ([k room] & Heq & Hin).
  cbn in Heq. injection Heq as -> <-. apply filter_In in Hin as [Hin _].
  pose proof (In_get jsval_eq_dec _ _ _ Hkeys Hin) as Hget.
  destruct (CapacityFacts.allOk_lookup _ _ _ _ Hok Hget) as [_ Hvalid].
  cbn in Hvalid. unfold onJoin. rewrite Hvalid, Hget, Hcap. cbn [negb].
  unfold Client.joinDisabled.
  destruct (Z.geb_spec (Z.of_nat (List.length (participants room))) 2) as [Hge|Hlt].
  - split; [reflexivity|]. intros _. apply Nat.leb_le. lia.
  - split.
    + intros H. apply Nat.leb_le in H. lia.
    + cbn [snd participants]. rewrite length_app. cbn [List.length].
      destruct (participants room) as [|p [|q ps]]; cbn in Hlt |- *;
        try lia; discriminate.
Qed.

Lemma join_button_agrees_with_server_witness :
  Client.joinDisabled 2 = true
  <-> snd (onJoin defaultConfig "C" (JStr "r1") Samples.asJoiner Samples.twoParty)
      = [Emit (Self "C") "full" (DValue (JStr "r1"))].
Proof.
  apply (join_button_agrees_with_server defaultConfig Samples.twoParty "C"
           Samples.asJoiner (JStr "r1") 2).
  - reflexivity.
  - exact CapacityFacts.twoParty_reachable.
  - vm_compute. left. reflexivity.
Defined.




(** The transcript of the room "a/b" is asked to be written and, on a file
    system without a directory [transcripts/a], is not on disk afterwards. *)
Example refused_transcript_is_not_on_disk :
  Lifecycle.gracefulShutdown Scenarios.slashed
  = [SaveTranscript (JStr "a/b")
       [[("roomId", JStr "a/b"); ("sender", JStr "A");
         ("transcript", JStr "hello"); ("timestamp", JNum 1700000000000)]]]
  /\ Lifecycle.onDisk Lifecycle.flat
       (Lifecycle.gracefulShutdown Scenarios.slashed) = [].
Proof. split; reflexivity. Qed.

(** X9. A transcript message with a room id is put, with a time stamp, at
    the end of the buffer of its room, all its other fields kept; the buffers
    of other rooms and the room store are untouched.  A message without a
    room id changes and emits nothing, and a message typed 'translation' is
    stored but relayed to nobody. *)
Theorem transcript_is_appended_to_its_room :
  forall (socket : string) (msg : object) (now : Z) (st : state),
    let roomId := field msg "roomId" in
    let out := onTranscript socket msg now st in
    rooms (fst out) = rooms st
    /\ (truthy roomId = false -> out = (st, []))
    /\ (truthy roomId = true ->
        exists stamped,
          JsMap.get jsval_eq_dec roomId (transcripts (fst out))
          = Some (match JsMap.get jsval_eq_dec roomId (transcripts st) with
                  | Some log => log
                  | None => []
                  end ++ [stamped])%list
          /\ field stamped "timestamp" = jsOr (field msg "timestamp") (JNum now)
          /\ (forall key, key <> "timestamp" -> field stamped key = field msg key)
          /\ (forall other, other <> roomId ->
                JsMap.get jsval_eq_dec other (transcripts (fst out))
                = JsMap.get jsval_eq_dec other (transcripts st)))
    /\ (field msg "type" = JStr "translation" -> snd out = []).
Proof.
  intros socket msg now st roomId out. subst roomId out.
  split; [apply CapacityFacts.onTranscript_rooms|].
  unfold onTranscript.
  destruct (truthy (field msg "roomId")) eqn:Hroom; cbn [negb].
  - split; [discriminate|]. split.
    + intros _.
      exists (JsMap.set string_dec "timestamp"
                (jsOr (field msg "timestamp") (JNum now)) msg).
      repeat match goal with
             | |- context [if ?b then _ else _] => destruct b
             | |- context [match find ?f ?l with Some _ => _ | None => _ end] =>
                 destruct (find f l)
             | |- context [match JsMap.get jsval_eq_dec ?k (rooms ?s) with
                           | Some _ => _ | None => _ end] =>
                 destruct (JsMap.get jsval_eq_dec k (rooms s))
             end;
        cbn [fst transcripts setTranscripts];
        (split; [apply get_set_same|]);
        (split; [unfold field; now rewrite get_set_same|]);
        (split; [intros key Hkey; unfold field; now rewrite get_set_other|]);
        intros other Hother; now rewrite get_set_other.
    + intros Htype. rewrite Htype. cbn [truthy negb String.eqb Ascii.eqb Bool.eqb orb].
      destruct (jsval_eq_dec (JStr "translation") (JStr "translation"));
        [reflexivity|congruence].
  - split; [reflexivity|]. split; [discriminate|reflexivity].
Qed.

End RoomFacts.

(* ------------------------------------------------------------------ *)
(** ** More on the translation route *)

Module RouteFacts.
Import Translate.

Lemma prefix_empty s : prefix EmptyString s = true.
Proof. now destruct s. Qed.

Lemma includes_dash_cons c s :
  includes "-" (String c s) = (Ascii.eqb c "-" || includes "-" s).
Proof.
  change (includes "-" (String c s))
    with (if (if ascii_dec "-" c then prefix EmptyString s else false)
          then true else includes "-" s).
  destruct (ascii_dec "-" c) as [<-|Hne].
  - now rewrite prefix_empty.
  - replace (Ascii.eqb c "-") with false; [reflexivity|].
    symmetry. apply Ascii.eqb_neq. congruence.
Qed.

(** The part of a language tag before its first hyphen. *)
Lemma splitChar_head s :
  exists w ws,
    splitChar "-" s = w :: ws
    /\ includes "-" w = false
    /\ prefix w s = true.
Proof.
  induction s as [|c s (w & ws & Hsplit & Hdash & Hpre)]; simpl.
  - now exists EmptyString, [].
  - destruct (Ascii.eqb c "-") eqn:E.
    + exists EmptyString, (splitChar "-" s). now repeat split.
    + rewrite Hsplit. exists (String c w), ws. split; [reflexivity|]. split.
      * now rewrite includes_dash_cons, E, Hdash.
      * change (prefix (String c w) (String c s))
          with (if ascii_dec c c then prefix w s else false).
        destruct (ascii_dec c c); [exact Hpre|congruence].
Qed.

Lemma langCode_is_the_primary_tag name v code :
  langCode name v = Ok code ->
  exists tag, v = JStr tag /\ includes "-" code = false /\ prefix code tag = true.
Proof.
  destruct v; simpl; try discriminate. intros [= <-]. exists s.
  destruct (splitChar_head s) as (w & ws & -> & Hd & Hp). now repeat split.
Qed.

Lemma validateInput_valid text maxLength t :
  validateInput text maxLength = Valid t ->
  exists s,
    text = JStr s /\ t = trim s /\ t <> EmptyString
    /\ (Z.of_nat (String.length t) <= maxLength)%Z.
Proof.
  unfold validateInput. destruct text; try discriminate.
  destruct (negb (truthy (JStr s))); [discriminate|].
  destruct (String.length (trim s) =? 0)%nat eqn:Hlen; [discriminate|].
  destruct (Z.of_nat (String.length (trim s)) >? maxLength)%Z eqn:Hmax;
    [discriminate|].
  intros [= <-]. exists s. repeat split.
  - intros E. rewrite E in Hlen. discriminate.
  - destruct (Z.gtb_spec (Z.of_nat (String.length (trim s))) maxLength);
      [discriminate|lia].
Qed.

Lemma validateInput_again text maxLength t :
  validateInput text maxLength = Valid t ->
  validateInput (JStr t) maxLength = Valid t.
Proof.
  intros H. destruct (validateInput_valid _ _ _ H) as (s & _ & -> & Hne & Hlen).
  destruct (PrimitiveFacts.trim_is_idempotent_and_tight s) as [Hidem _].
  unfold validateInput. cbn [truthy].
  destruct (String.eqb_spec (trim s) EmptyString) as [E|_]; [contradiction|].
  cbn [negb]. rewrite Hidem.
  destruct (String.length (trim s) =? 0)%nat eqn:H0.
  - apply Nat.eqb_eq in H0. destruct (trim s); [contradiction|discriminate].
  - destruct (Z.gtb_spec (Z.of_nat (String.length (trim s))) maxLength);
      [lia|reflexivity].
Qed.

(** X10. A call makes at most one probe and at most one translation request,
    in that order and never twice: it probes only when the health flag is
    false, and it sends a translation only when the flag is true afterwards. *)
Theorem one_probe_and_one_translation_at_most :
  forall (cfg : config) (st : state) (req : call) (w : world),
    let o := translateRoute cfg st req w in
    exists probes sends,
      requests o = (probes ++ sends)%list
      /\ (probes = []
          \/ (probes = [GetHealth] /\ truthy (pythonServiceHealthy st) = false))
      /\ (sends = []
          \/ (exists t sl tl, sends = [PostTranslate t sl tl])
             /\ truthy (pythonServiceHealthy (after o)) = true).
Proof.
  intros cfg st req w o. subst o.
  TranslateFacts.route_cases cfg st req w.
  all: try (exists [], []; split; [reflexivity|]; split; now left).
  all: try (exists [GetHealth], []; split; [reflexivity|];
            split; [right; now split|now left]).
  all: try (exists [], [PostTranslate validText sl tl];
            split; [reflexivity|]; split; [now left|];
            right; split; [now do 3 eexists|];
            unfold logTranslation; cbn [roomId];
            try destruct (negb _); exact Hflag).
  all: exists [GetHealth], [PostTranslate validText sl tl];
       (split; [reflexivity|]); (split; [right; now split|]);
       right; (split; [now do 3 eexists|]);
       unfold logTranslation; cbn [roomId];
       try destruct (negb _); exact Hprobe.
Qed.

(** X11. The text the backend receives is the trimmed text of the request:
    not empty, without white space at either end, no longer than the
    configured maximum, and accepted again if validated again; the two
    language codes it receives are the parts of the requested tags before
    their first hyphen. *)
Theorem backend_receives_clean_text :
  forall (cfg : config) (st : state) (req : call) (w : world)
         (t sl tl : string),
    In (PostTranslate t sl tl) (requests (translateRoute cfg st req w)) ->
    (exists s, text req = JStr s /\ t = trim s)
    /\ t <> EmptyString
    /\ trim t = t
    /\ (Z.of_nat (String.length t) <= maxTranslationLength cfg)%Z
    /\ validateInput (JStr t) (maxTranslationLength cfg) = Valid t
    /\ (exists tag, withDefault (csource req) "auto" = JStr tag
                    /\ includes "-" sl = false /\ prefix sl tag = true)
    /\ (exists tag, withDefault (ctarget req) "en" = JStr tag
                    /\ includes "-" tl = false /\ prefix tl tag = true).
Proof.
  intros cfg st req w t sl0 tl0.
  assert (Hkey : forall validText sl tl,
             validateInput (text req) (maxTranslationLength cfg) = Valid validText ->
             langCode "source" (withDefault (csource req) "auto") = Ok sl ->
             langCode "target" (withDefault (ctarget req) "en") = Ok tl ->
             PostTranslate validText sl tl = PostTranslate t sl0 tl0 ->
             (exists s, text req = JStr s /\ t = trim s)
             /\ t <> EmptyString
             /\ trim t = t
             /\ (Z.of_nat (String.length t) <= maxTranslationLength cfg)%Z
             /\ validateInput (JStr t) (maxTranslationLength cfg) = Valid t
             /\ (exists tag, withDefault (csource req) "auto" = JStr tag
                             /\ includes "-" sl0 = false /\ prefix sl0 tag = true)
             /\ (exists tag, withDefault (ctarget req) "en" = JStr tag
                             /\ includes "-" tl0 = false /\ prefix tl0 tag = true)).
  { intros validText sl tl Hv Hs Ht [= <- <- <-].
    destruct (validateInput_valid _ _ _ Hv) as (s & Htext & Htrim & Hne & Hlen).
    split; [now exists s|]. split; [exact Hne|]. split.
    { rewrite Htrim. apply PrimitiveFacts.trim_is_idempotent_and_tight. }
    split; [exact Hlen|]. split; [now apply (validateInput_again (text req))|].
    split; [now apply (langCode_is_the_primary_tag "source")
           |now apply (langCode_is_the_primary_tag "target")]. }
  TranslateFacts.route_cases cfg st req w; intros Hin;
    repeat (destruct Hin as [Hin|Hin]); try discriminate Hin;
    try contradiction; now apply (Hkey validText sl tl).
Qed.

Lemma backend_receives_clean_text_witness :
  validateInput (JStr "bonjour") (maxTranslationLength defaultConfig)
  = Valid "bonjour"
  /\ trim "bonjour" = "bonjour".
Proof.
  destruct (backend_receives_clean_text defaultConfig (Samples.idle true)
              (mkCall (JStr " bonjour ") (JStr "fr-FR") (JStr "en-US")
                      JUndefined JUndefined)
              (Samples.env HealthFails (OkBody (JStr "hello")))
              "bonjour" "fr" "en")
    as (_ & _ & Htrim & _ & Hvalid & _).
  - left. reflexivity.
  - split; [exact Hvalid|exact Htrim].
Defined.

Lemma logTranslation_keeps_flag a w st :
  pythonServiceHealthy (logTranslation a w st) = pythonServiceHealthy st
  /\ excludedWords (logTranslation a w st) = excludedWords st.
Proof. unfold logTranslation. destruct (negb _); now split. Qed.

(** X12. The route never changes the dictionary.  It never clears the
    health flag on a failed translation: a flag that is true stays as it is
    whatever the outcome.  A flag that is false is replaced, for a valid
    text, by the answer of the probe, which the status route stores as well;
    once an answer is true, the next call sends no probe. *)
Theorem health_flag_changes_by_probe_only :
  forall (cfg : config) (st : state) (req : call) (w : world),
    let o := translateRoute cfg st req w in
    excludedWords (after o) = excludedWords st
    /\ (truthy (pythonServiceHealthy st) = true ->
        pythonServiceHealthy (after o) = pythonServiceHealthy st)
    /\ (truthy (pythonServiceHealthy st) = false ->
        forall t,
          validateInput (text req) (maxTranslationLength cfg) = Valid t ->
          pythonServiceHealthy (after o) = checkPythonServiceHealth (health w)
          /\ (status (reply o) <> 200%Z ->
              after o = fst (Lifecycle.statusRoute st w)))
    /\ (forall req' w',
          truthy (pythonServiceHealthy (after o)) = true ->
          ~ In GetHealth (requests (translateRoute cfg (after o) req' w'))).
Proof.
  intros cfg st req w o. subst o. split; [|split; [|split]].
  - TranslateFacts.route_cases cfg st req w; try reflexivity;
      now rewrite (proj2 (logTranslation_keeps_flag _ _ _)).
  - intros Htrue.
    TranslateFacts.route_cases cfg st req w; try reflexivity;
      try congruence; now rewrite (proj1 (logTranslation_keeps_flag _ _ _)).
  - intros Hfalse t Hv.
    TranslateFacts.route_cases cfg st req w; try congruence;
      try (split; [reflexivity|intros _; reflexivity]).
    split; [now rewrite (proj1 (logTranslation_keeps_flag _ _ _))|].
    intros H. now destruct H.
  - intros req' w' Htrue.
    generalize (after (translateRoute cfg st req w)) Htrue. clear.
    intros st Hopen.
    TranslateFacts.route_cases cfg st req' w'; try congruence;
      intros Hin; repeat (destruct Hin as [Hin|Hin]);
      try discriminate Hin; try contradiction.
Qed.

Lemma applyWordReplacements_undefined dict v tl :
  Dictionary.applyWordReplacements dict v tl = JUndefined <-> v = JUndefined.
Proof.
  destruct v; cbn; try (split; intros H; (discriminate H || reflexivity)).
  destruct (TranslateFacts.applyWordReplacements_string dict s tl) as [s' Hs].
  cbn in Hs. rewrite Hs. split; discriminate.
Qed.

(** X13. The route answers 200 with the body { translated }, whose value is
    the [translated_text] of the backend's reply after the dictionary pass,
    so that the body is the empty object exactly when the reply holds no
    [translated_text]; or it answers 400, 503, 504 or 500 with an error
    message.  It answers 503 only for a call that made the probe and nothing
    else. *)
Theorem route_answers_with_five_statuses :
  forall (cfg : config) (st : state) (req : call) (w : world),
    let o := translateRoute cfg st req w in
    ((status (reply o) = 200%Z
      /\ exists translated_text t sl tl,
           translation w = OkBody translated_text
           /\ In (PostTranslate t sl tl) (requests o)
           /\ payload (reply o)
              = BTranslated
                  (Dictionary.applyWordReplacements (excludedWords st)
                     translated_text tl)
           /\ (payload (reply o) = BTranslated JUndefined
               <-> translated_text = JUndefined))
     \/ (In (status (reply o)) [400; 503; 504; 500]%Z
         /\ exists error, payload (reply o) = BError error))
    /\ (status (reply o) = 503%Z -> requests o = [GetHealth]).
Proof.
  intros cfg st req w o. subst o.
  assert (Hclass : forall message,
             In (status (classify message)) [400; 503; 504; 500]%Z
             /\ (exists error, payload (classify message) = BError error)
             /\ status (classify message) <> 503%Z).
  { intros message. unfold classify.
    destruct (includes "timeout" message); [|destruct (includes _ message)];
      cbn; (split; [tauto|]); (split; [now eexists|discriminate]). }
  assert (Hok : forall translated,
             translateWithPythonService (translation w) = Ok translated ->
             translation w = OkBody translated).
  { intros translated. destruct (translation w) as [m|hs stx [| |d]|m|v];
      cbn; try discriminate. now intros [= ->]. }
  TranslateFacts.route_cases cfg st req w.
  all: try (split; [right; split; [cbn; tauto|now eexists]|]; cbn;
            first [reflexivity | discriminate]).
  all: try (split; [|discriminate]; left; split; [reflexivity|];
            exists translated, validText, sl, tl;
            split; [now apply Hok|];
            split; [apply in_or_app; right; now left|];
            split; [reflexivity|];
            cbn [excludedWords setHealthy];
            rewrite <- applyWordReplacements_undefined;
            split; [now intros [= ->]|now intros ->]).
  all: match goal with
       | |- context [classify ?m] =>
           destruct (Hclass m) as (H1 & H2 & H3);
           split; [right; now split|intros H; contradiction]
       end.
Qed.

(** X14. The main log only grows: a call leaves its records in place and
    adds at most one at the end.  A call writes at most one room file, and
    none when the file system refuses the write, although the main log gets
    the record all the same; the room file it writes holds the records read
    from it followed by that same record. *)
Theorem logs_only_grow :
  forall (cfg : config) (st : state) (req : call) (w : world),
    let o := translateRoute cfg st req w in
    exists added mine,
      (List.length added <= 1)%nat
      /\ mainLog (after o) = (mainLog st ++ added)%list
      /\ (forall file, file <> mine ->
            JsMap.get string_dec file (roomLogs (after o))
            = JsMap.get string_dec file (roomLogs st))
      /\ (added = [] \/ roomFileWritten w = false ->
          roomLogs (after o) = roomLogs st)
      /\ (added <> [] -> roomFileWritten w = true ->
          JsMap.get string_dec mine (roomLogs (after o))
          = Some (roomFileRead w ++ added)%list).
Proof.
  intros cfg st req w o. subst o.
  assert (Hlog : forall a st0,
             roomLogs st0 = roomLogs st -> mainLog st0 = mainLog st ->
             exists added mine,
               (List.length added <= 1)%nat
               /\ mainLog (logTranslation a w st0) = (mainLog st ++ added)%list
               /\ (forall file, file <> mine ->
                     JsMap.get string_dec file (roomLogs (logTranslation a w st0))
                     = JsMap.get string_dec file (roomLogs st))
               /\ (added = [] \/ roomFileWritten w = false ->
                   roomLogs (logTranslation a w st0) = roomLogs st)
               /\ (added <> [] -> roomFileWritten w = true ->
                   JsMap.get string_dec mine (roomLogs (logTranslation a w st0))
                   = Some (roomFileRead w ++ added)%list)).
  { intros a st0 Hr Hm. unfold logTranslation.
    destruct (negb (truthy (roomId a))).
    - exists [], EmptyString. rewrite Hr, Hm, app_nil_r.
      split; [cbn; lia|]. split; [reflexivity|]. split; [reflexivity|].
      split; [reflexivity|congruence].
    - cbv zeta.
      exists [stringified
                [ ("timestamp", JStr (istTimestamp w)); ("source", source a);
                  ("target", target a); ("input", input a);
                  ("output", output a); ("durationMs", JNum (durationMs a)) ]],
             (toString (roomId a) ++ "-" ++ dateStr (isoFile w) ++ ".json").
      cbn [roomLogs mainLog]. rewrite Hr, Hm.
      split; [cbn; lia|]. split; [reflexivity|].
      destruct (roomFileWritten w).
      + split; [intros file Hne; now apply get_set_other|].
        split; [intros [H|H]; discriminate H|].
        intros _ _. apply get_set_same.
      + split; [reflexivity|]. split; [reflexivity|discriminate]. }
  assert (Hsame : forall st0,
             roomLogs st0 = roomLogs st -> mainLog st0 = mainLog st ->
             exists added mine,
               (List.length added <= 1)%nat
               /\ mainLog st0 = (mainLog st ++ added)%list
               /\ (forall file, file <> mine ->
                     JsMap.get string_dec file (roomLogs st0)
                     = JsMap.get string_dec file (roomLogs st))
               /\ (added = [] \/ roomFileWritten w = false ->
                   roomLogs st0 = roomLogs st)
               /\ (added <> [] -> roomFileWritten w = true ->
                   JsMap.get string_dec mine (roomLogs st0)
                   = Some (roomFileRead w ++ added)%list)).
  { intros st0 Hr Hm. exists [], EmptyString. rewrite Hr, Hm, app_nil_r.
    split; [cbn; lia|]. split; [reflexivity|]. split; [reflexivity|].
    split; [reflexivity|congruence]. }
  TranslateFacts.route_cases cfg st req w;
    first [apply Hlog; reflexivity | apply Hsame; reflexivity].
Qed.

Lemma splitWsFrom_nonempty inGap s : splitWsFrom inGap s <> [].
Proof.
  revert inGap. induction s as [|c s IH]; intros inGap; simpl; [discriminate|].
  destruct (isWhiteSpace c).
  - destruct inGap; [apply IH|discriminate].
  - destruct (splitWsFrom false s); discriminate.
Qed.

Lemma filter_all {A} (f : A -> bool) (l : list A) :
  (forall x, In x l -> f x = true) -> filter f l = l.
Proof.
  induction l as [|x l IH]; intros H; simpl; [reflexivity|].
  rewrite (H x (or_introl eq_refl)), IH; [reflexivity|].
  intros y Hy. apply H. now right.
Qed.

(** X15. The accuracy of a call is a fraction between 0 and 1 whose
    denominator is never 0, and it is 1 when the reference and the output are
    the same text up to case. *)
Theorem accuracy_is_a_ratio :
  forall (reference out : jsval) (n d : nat),
    computeAccuracy reference out = Ok (Some (n, d)) ->
    (n <= d)%nat /\ (1 <= d)%nat
    /\ (forall r o, reference = JStr r -> out = JStr o ->
                    toLowerCase r = toLowerCase o -> n = d).
Proof.
  intros reference out n d. unfold computeAccuracy.
  destruct (truthy reference); [|discriminate].
  destruct reference as [| | | |r|]; try discriminate.
  destruct out as [| | | |o|]; try discriminate.
  cbn [wordsOf bind]. intros [= <- <-].
  pose proof (splitWsFrom_nonempty false (toLowerCase r)) as Hne.
  fold (splitWs (toLowerCase r)) in Hne.
  pose proof (CapacityFacts.filter_length_le
                (fun word => existsb (String.eqb word) (splitWs (toLowerCase o)))
                (splitWs (toLowerCase r))) as Hle.
  assert (Hpos : (1 <= List.length (splitWs (toLowerCase r)))%nat).
  { destruct (splitWs (toLowerCase r)); [congruence|cbn [List.length]; lia]. }
  split; [lia|]. split; [lia|].
  intros r' o' [= <-] [= <-] Hsame.
  rewrite <- Hsame.
  rewrite filter_all; [now rewrite Nat.max_id|].
  intros x Hx. apply existsb_exists. exists x. split; [exact Hx|].
  apply String.eqb_refl.
Qed.

Lemma accuracy_is_a_ratio_witness :
  computeAccuracy (JStr "Namaste world") (JStr "namaste duniya")
  = Ok (Some (1, 2)%nat)
  /\ (1 <= 2)%nat.
Proof.
  split; [reflexivity|].
  exact (proj1 (accuracy_is_a_ratio (JStr "Namaste world")
                  (JStr "namaste duniya") 1 2 eq_refl)).
Defined.

End RouteFacts.

(* ------------------------------------------------------------------ *)
(** ** Adding to the dictionary *)

Module DictionaryApiFacts.
Import Dictionary DictionaryApi.

Lemma findIndex_some f arr i :
  findIndex f arr = Ok (Some i) ->
  exists pre x post,
    arr = (pre ++ x :: post)%list /\ List.length pre = i
    /\ Forall (fun y => f y = Ok false) pre /\ f x = Ok true.
Proof.
  revert i. induction arr as [|a arr IH]; intros i; simpl; [discriminate|].
  destruct (f a) as [[|]|] eqn:Hfa; cbn [bind]; [| |discriminate].
  - intros [= <-]. now exists [], a, arr.
  - destruct (findIndex f arr) as [[j|]|] eqn:Hrest; cbn [bind];
      intros [= <-].
    destruct (IH j eq_refl) as (pre & x & post & -> & Hlen & Hpre & Hx).
    exists (a :: pre), x, post. cbn. repeat split; auto.
Qed.

Lemma findIndex_none f arr :
  findIndex f arr = Ok None -> Forall (fun y => f y = Ok false) arr.
Proof.
  induction arr as [|a arr IH]; simpl; [constructor|].
  destruct (f a) as [[|]|] eqn:Hfa; cbn [bind]; try discriminate.
  destruct (findIndex f arr) as [[j|]|]; cbn [bind]; try discriminate.
  intros _. constructor; auto.
Qed.

Lemma findIndex_found f pre x post :
  Forall (fun y => f y = Ok false) pre -> f x = Ok true ->
  findIndex f (pre ++ x :: post) = Ok (Some (List.length pre)).
Proof.
  intros Hpre Hx. induction Hpre as [|a pre Ha Hpre IH]; simpl.
  - now rewrite Hx.
  - now rewrite Ha, IH.
Qed.

Lemma findIndex_throws f pre x post message :
  Forall (fun y => f y = Ok false) pre -> f x = Throw message ->
  findIndex f (pre ++ x :: post) = Throw message.
Proof.
  intros Hpre Hx. induction Hpre as [|a pre Ha Hpre IH]; simpl.
  - now rewrite Hx.
  - now rewrite Ha, IH.
Qed.

Lemma assign_middle pre x post v :
  assign (List.length pre) v (pre ++ x :: post) = (pre ++ v :: post)%list.
Proof. induction pre as [|a pre IH]; simpl; congruence. Qed.

Lemma nth_middle_entry pre (x : entry) post :
  nth (List.length pre) (pre ++ x :: post) [] = x.
Proof. induction pre as [|a pre IH]; simpl; congruence. Qed.

Lemma fold_set_other (extra : entry) :
  forall (old : entry) key,
    ~ In key (map fst extra) ->
    JsMap.get string_dec key
      (fold_left (fun acc kv => JsMap.set string_dec (fst kv) (snd kv) acc) extra old)
    = JsMap.get string_dec key old.
Proof.
  induction extra as [|[k v] extra IH]; intros old key Hnot; simpl; [reflexivity|].
  rewrite IH by (intros H; apply Hnot; now right).
  apply get_set_other. intros E. apply Hnot. now left.
Qed.

(** In [{ ...old, ...extra }] every property of [extra] has the value it has
    in [extra], and every other property the value it has in [old]. *)
Lemma spread_lookup (extra : entry) :
  NoDup (map fst extra) ->
  forall (old : entry) key,
    JsMap.get string_dec key (spread old extra)
    = match JsMap.get string_dec key extra with
      | Some v => Some v
      | None => JsMap.get string_dec key old
      end.
Proof.
  unfold spread.
  induction extra as [|[k v] extra IH]; intros Hnodup old key; simpl;
    [reflexivity|].
  inversion Hnodup as [|? ? Hnotin Hrest]; subst.
  destruct (string_dec key k) as [->|Hne].
  - rewrite fold_set_other by exact Hnotin. apply get_set_same.
  - rewrite IH by exact Hrest.
    destruct (JsMap.get string_dec key extra); [reflexivity|].
    now apply get_set_other.
Qed.

Lemma set_same_value {K V} (eq_dec : forall a b : K, {a = b} + {a <> b})
    (k : K) (v : V) (m : list (K * V)) :
  JsMap.get eq_dec k m = Some v -> JsMap.set eq_dec k v m = m.
Proof.
  induction m as [|[k0 w] m IH]; simpl; [discriminate|].
  destruct (eq_dec k k0) as [->|E]; [now intros [= ->]|].
  intros H. now rewrite IH.
Qed.

Lemma fold_set_fixed (extra m : entry) :
  (forall k v, In (k, v) extra -> JsMap.get string_dec k m = Some v) ->
  fold_left (fun acc kv => JsMap.set string_dec (fst kv) (snd kv) acc) extra m = m.
Proof.
  induction extra as [|[k v] extra IH]; intros H; simpl; [reflexivity|].
  rewrite set_same_value by (apply H; now left).
  apply IH. intros k' v' Hin. apply H. now right.
Qed.

(** Spreading the same object twice is spreading it once. *)
Lemma spread_twice (old extra : entry) :
  NoDup (map fst extra) -> spread (spread old extra) extra = spread old extra.
Proof.
  intros Hnodup. unfold spread at 1. apply fold_set_fixed.
  intros k v Hin. rewrite spread_lookup by exact Hnodup.
  now rewrite (In_get string_dec _ _ _ Hnodup Hin).
Qed.

Lemma spread_self (e : entry) : NoDup (map fst e) -> spread e e = e.
Proof.
  intros Hnodup. apply fold_set_fixed.
  intros k v Hin. now apply In_get.
Qed.

Lemma sameEnglish_true wordEntry word :
  sameEnglish wordEntry word = Ok true ->
  exists s, prop wordEntry "en" = JStr s.
Proof.
  unfold sameEnglish.
  destruct (optLower (prop word "en")); cbn [bind]; [|discriminate].
  destruct (prop wordEntry "en"); cbn; try discriminate. now eexists.
Qed.

Lemma same_value_test (v : jsval) :
  (if jsval_eq_dec v v then true else false) = true.
Proof. now destruct (jsval_eq_dec v v). Qed.

Lemma sameEnglish_self wordEntry s :
  prop wordEntry "en" = JStr s -> sameEnglish wordEntry wordEntry = Ok true.
Proof.
  intros H. unfold sameEnglish. rewrite H. cbn [optLower lower bind].
  now rewrite same_value_test.
Qed.

Lemma prop_spread old extra key :
  NoDup (map fst extra) ->
  prop (spread old extra) key
  = match JsMap.get string_dec key extra with
    | Some v => v
    | None => prop old key
    end.
Proof.
  intros Hnodup. unfold prop. rewrite spread_lookup by exact Hnodup.
  now destruct (JsMap.get string_dec key extra).
Qed.

Lemma prop_string_is_own e key s :
  prop e key = JStr s -> JsMap.get string_dec key e = Some (JStr s).
Proof.
  unfold prop. destruct (JsMap.get string_dec key e); [congruence|discriminate].
Qed.

(** X16. A successful add is an upsert.  Either the first entry whose
    English form equals the new one up to case is merged with the new entry,
    in place (the new properties win, the others are kept), or, when there
    is none, the new entry is put at the end.  Either way the table is saved
    and its new length is reported. *)
Theorem add_word_is_an_upsert :
  forall (wordEntry : entry) (st : store),
    NoDup (map fst wordEntry) ->
    status (snd (addWord wordEntry st)) = 200%Z ->
    let st' := fst (addWord wordEntry st) in
    excludedWordsFile st' = excludedWords st'
    /\ payload (snd (addWord wordEntry st))
       = BMessage "Word added successfully"
           (Some (List.length (excludedWords st')))
    /\ ((exists pre old post,
           excludedWords st = (pre ++ old :: post)%list
           /\ excludedWords st' = (pre ++ spread old wordEntry :: post)%list
           /\ Forall (fun y => sameEnglish wordEntry y = Ok false) pre
           /\ sameEnglish wordEntry old = Ok true
           /\ (forall key,
                 prop (spread old wordEntry) key
                 = match JsMap.get string_dec key wordEntry with
                   | Some v => v
                   | None => prop old key
                   end))
        \/ (excludedWords st' = (excludedWords st ++ [wordEntry])%list
            /\ Forall (fun y => sameEnglish wordEntry y = Ok false)
                 (excludedWords st))).
Proof.
  intros wordEntry st Hnodup. unfold addWord.
  destruct (negb (truthy (prop wordEntry "en"))); [discriminate|].
  destruct (findIndex (sameEnglish wordEntry) (excludedWords st))
    as [[i|]|] eqn:Hfind; [| |discriminate]; intros _; cbn.
  - split; [reflexivity|]. split; [reflexivity|]. left.
    destruct (findIndex_some _ _ _ Hfind) as (pre & x & post & Harr & <- & Hpre & Hx).
    exists pre, x, post. rewrite Harr, nth_middle_entry, assign_middle.
    repeat split; auto. intros key. now apply prop_spread.
  - split; [reflexivity|]. split; [reflexivity|]. right.
    split; [reflexivity|]. now apply findIndex_none.
Qed.

Lemma add_word_is_an_upsert_witness :
  excludedWordsFile
    (fst (addWord [("en", JStr "Color"); ("de", JStr "Farbe")]
            (mkStore [Samples.hue; Samples.colour] [])))
  = [Samples.hue;
     [("en", JStr "Color"); ("fr", JStr "colour"); ("de", JStr "Farbe")]]
  /\ payload
       (snd (addWord [("en", JStr "Color"); ("de", JStr "Farbe")]
               (mkStore [Samples.hue; Samples.colour] [])))
     = BMessage "Word added successfully" (Some 2%nat).
Proof.
  destruct (add_word_is_an_upsert [("en", JStr "Color"); ("de", JStr "Farbe")]
              (mkStore [Samples.hue; Samples.colour] []))
    as (Hfile & Hpayload & _).
  - repeat constructor; cbn; intuition discriminate.
  - reflexivity.
  - split; [exact Hfile|exact Hpayload].
Defined.

(** X17. Adding the same entry twice leaves the table and its file as
    adding it once does. *)
Theorem add_word_twice_is_add_word_once :
  forall (wordEntry : entry) (st : store),
    NoDup (map fst wordEntry) ->
    fst (addWord wordEntry (fst (addWord wordEntry st)))
    = fst (addWord wordEntry st).
Proof.
  intros wordEntry st Hnodup. unfold addWord at 2 3.
  destruct (negb (truthy (prop wordEntry "en"))) eqn:Hen.
  { cbn [fst]. unfold addWord. now rewrite Hen. }
  destruct (findIndex (sameEnglish wordEntry) (excludedWords st))
    as [[i|]|] eqn:Hfind.
  - destruct (findIndex_some _ _ _ Hfind) as (pre & x & post & Harr & <- & Hpre & Hx).
    unfold saveExcludedWords; cbn [fst excludedWords excludedWordsFile].
    rewrite Harr, nth_middle_entry, assign_middle.
    destruct (sameEnglish_true _ _ Hx) as [s Hs].
    assert (Hmerged : sameEnglish wordEntry (spread x wordEntry) = Ok true).
    { unfold sameEnglish. rewrite prop_spread by exact Hnodup.
      rewrite (prop_string_is_own _ _ _ Hs), Hs. cbn [optLower lower bind].
      now rewrite same_value_test. }
    unfold addWord. rewrite Hen. unfold saveExcludedWords; cbn [excludedWords excludedWordsFile].
    rewrite (findIndex_found _ pre (spread x wordEntry) post Hpre Hmerged).
    unfold saveExcludedWords; cbn [fst excludedWords excludedWordsFile].
    rewrite nth_middle_entry, assign_middle, spread_twice by exact Hnodup.
    reflexivity.
  - pose proof (findIndex_none _ _ Hfind) as Hall.
    unfold saveExcludedWords; cbn [fst excludedWords excludedWordsFile].
    unfold addWord. rewrite Hen. unfold saveExcludedWords; cbn [excludedWords excludedWordsFile].
    destruct (prop wordEntry "en") as [| |b|z|s|t r] eqn:Hs;
      try discriminate Hen.
    + rewrite (findIndex_throws _ (excludedWords st) wordEntry []
                 "word.en?.toLowerCase is not a function" Hall);
        [reflexivity|]. unfold sameEnglish. now rewrite Hs.
    + rewrite (findIndex_throws _ (excludedWords st) wordEntry []
                 "word.en?.toLowerCase is not a function" Hall);
        [reflexivity|]. unfold sameEnglish. now rewrite Hs.
    + rewrite (findIndex_found _ (excludedWords st) wordEntry [] Hall
                 (sameEnglish_self _ _ Hs)).
      unfold saveExcludedWords; cbn [fst excludedWords excludedWordsFile].
      rewrite nth_middle_entry, assign_middle, spread_self by exact Hnodup.
      reflexivity.
    + rewrite (findIndex_throws _ (excludedWords st) wordEntry []
                 "word.en?.toLowerCase is not a function" Hall);
        [reflexivity|]. unfold sameEnglish. now rewrite Hs.
  - cbn [fst]. unfold addWord. now rewrite Hen, Hfind.
Qed.

Lemma add_word_twice_is_add_word_once_witness :
  fst (addWord Samples.colour
         (fst (addWord Samples.colour (mkStore [Samples.hue] []))))
  = fst (addWord Samples.colour (mkStore [Samples.hue] [])).
Proof.
  apply (add_word_twice_is_add_word_once Samples.colour (mkStore [Samples.hue] [])).
  repeat constructor; cbn; intuition discriminate.
Defined.

(** X18. A failed add changes nothing, and the table can be put in a state
    where every add fails: the route accepts into an empty table an entry
    whose English form is truthy but not a string (a number, say), and while
    the table starts with such an entry every later add of an entry with an
    English form is answered 500. *)
Theorem malformed_english_blocks_later_adds :
  forall (bad : entry) (file : list entry),
    truthy (prop bad "en") = true ->
    Spec.trimmable (prop bad "en") = false ->
    addWord bad (mkStore [] file)
    = (mkStore [bad] [bad],
       mkResponse 200 (BMessage "Word added successfully" (Some 1%nat)))
    /\ (forall wordEntry rest file',
          truthy (prop wordEntry "en") = true ->
          addWord wordEntry (mkStore (bad :: rest) file')
          = (mkStore (bad :: rest) file',
             mkResponse 500 (BError "Failed to add word")))
    /\ (forall wordEntry st,
          status (snd (addWord wordEntry st)) <> 200%Z ->
          fst (addWord wordEntry st) = st).
Proof.
  intros bad file Htruthy Hbad. split; [|split].
  - unfold addWord. rewrite Htruthy. reflexivity.
  - intros wordEntry rest file' Hen. unfold addWord. rewrite Hen.
    cbn [negb excludedWords findIndex]. unfold sameEnglish at 1.
    destruct (prop bad "en"); try discriminate Hbad; reflexivity.
  - intros wordEntry st. unfold addWord.
    destruct (negb (truthy (prop wordEntry "en"))); [reflexivity|].
    destruct (findIndex (sameEnglish wordEntry) (excludedWords st));
      [|reflexivity].
    cbn. intros H. now destruct H.
Qed.

Lemma malformed_english_blocks_later_adds_witness :
  addWord [("en", JNum 5)] (mkStore [] [])
  = (mkStore [[("en", JNum 5)]] [[("en", JNum 5)]],
     mkResponse 200 (BMessage "Word added successfully" (Some 1%nat)))
  /\ addWord Samples.colour (mkStore [[("en", JNum 5)]] [[("en", JNum 5)]])
     = (mkStore [[("en", JNum 5)]] [[("en", JNum 5)]],
        mkResponse 500 (BError "Failed to add word")).
Proof.
  destruct (malformed_english_blocks_later_adds [("en", JNum 5)] [])
    as (H1 & H2 & _); [reflexivity|reflexivity|].
  split; [exact H1|]. apply H2. reflexivity.
Defined.

Lemma isValidEntry_malformed targetLang e :
  Spec.trimmable (prop e targetLang) = false
  \/ Spec.trimmable (prop e "en") = false ->
  exists message, isValidEntry targetLang e = Throw message.
Proof.
  unfold isValidEntry. intros [H|H].
  - destruct (prop e targetLang); try discriminate H; eexists; reflexivity.
  - destruct (prop e targetLang); cbn; try (eexists; reflexivity);
      destruct (prop e "en"); try discriminate H; eexists; reflexivity.
Qed.

(** X19. One malformed entry disables the whole dictionary pass: when some
    entry of the table has a localized or English form that is neither a
    string nor absent, every text comes back unchanged for that language. *)
Theorem malformed_entry_disables_the_pass :
  forall (dict : list entry) (targetLang : string) (text : jsval),
    Exists (fun e => Spec.trimmable (prop e targetLang) = false
                     \/ Spec.trimmable (prop e "en") = false) dict ->
    applyWordReplacements dict text targetLang = text.
Proof.
  intros dict targetLang text Hbad.
  assert (Hthrow : exists message, filterValid targetLang dict = Throw message).
  { induction Hbad as [e dict He|e dict Hbad IH]; simpl.
    - destruct (isValidEntry_malformed _ _ He) as [m ->]. now exists m.
    - destruct IH as [m Hm]. rewrite Hm.
      destruct (isValidEntry targetLang e); cbn; now eexists. }
  destruct Hthrow as [m Hm]. unfold applyWordReplacements.
  destruct text; try reflexivity.
  destruct (negb (truthy (JStr s))); [reflexivity|]. now rewrite Hm.
Qed.

Lemma malformed_entry_disables_the_pass_witness :
  applyWordReplacements [Samples.colour; [("en", JNum 5)]] (JStr "colour") "fr"
  = JStr "colour".
Proof.
  apply (malformed_entry_disables_the_pass [Samples.colour; [("en", JNum 5)]]
           "fr" (JStr "colour")).
  right. left. right. reflexivity.
Defined.

End DictionaryApiFacts.

(* ------------------------------------------------------------------ *)
(** ** Reading numbers back *)

Module ParseFacts.
Import Dictionary Digits.

Lemma digit_is_plain c :
  isDigit c = true ->
  isWhiteSpace c = false
  /\ Ascii.eqb c "x" = false /\ Ascii.eqb c "X" = false.
Proof.
  destruct c as [[|] [|] [|] [|] [|] [|] [|] [|]]; try discriminate;
    intros _; repeat split.
Qed.

Lemma string_of_uint_digits d : allDigits (NilEmpty.string_of_uint d) = true.
Proof. induction d; simpl; auto. Qed.

Lemma stripHexPrefix_digits s : allDigits s = true -> stripHexPrefix s = None.
Proof.
  destruct s as [|c [|x s]]; try reflexivity.
  - now destruct c as [[|] [|] [|] [|] [|] [|] [|] [|]].
  - simpl. intros H. apply andb_true_iff in H as [_ H].
    apply andb_true_iff in H as [Hx _].
    destruct (digit_is_plain x Hx) as (_ & H1 & H2).
    destruct c as [[|] [|] [|] [|] [|] [|] [|] [|]]; try reflexivity.
    now rewrite H1, H2.
Qed.

(** On a non-empty run of digits [parseInt] is the decimal reading. *)
Lemma parseInt_digits c s :
  allDigits (String c s) = true ->
  parseInt (String c s) = readDigits 10 None (String c s).
Proof.
  intros Hall. pose proof (stripHexPrefix_digits _ Hall) as Hhex.
  simpl in Hall. apply andb_true_iff in Hall as [Hc _].
  destruct (digit_is_plain c Hc) as (Hws & _ & _).
  unfold parseInt. cbn [trimStart]. rewrite Hws.
  assert (Hsign : (let '(negative, s2) :=
                     match String c s with
                     | String "-" r => (true, r)
                     | String "+" r => (false, r)
                     | _ => (false, String c s)
                     end in
                   (negative, s2)) = (false, String c s)).
  { destruct c as [[|] [|] [|] [|] [|] [|] [|] [|]]; try discriminate Hc;
      reflexivity. }
  destruct (match String c s with
            | String "-" r => (true, r)
            | String "+" r => (false, r)
            | _ => (false, String c s)
            end) as [negative s2].
  injection Hsign as -> ->. rewrite Hhex.
  now destruct (readDigits 10 None (String c s)).
Qed.

Lemma readDigits_step c v acc s :
  digitValue 10 c = Some v ->
  readDigits 10 acc (String c s)
  = readDigits 10
      (Some (match acc with
             | Some a => a * 10 + Z.of_nat v
             | None => Z.of_nat v
             end)%Z) s.
Proof. intros H. cbn [readDigits]. now rewrite H. Qed.

Lemma readDigits_acc d :
  forall acc,
    readDigits 10 (Some (Zpos acc)) (NilEmpty.string_of_uint d)
    = Some (Zpos (Pos.of_uint_acc d acc)).
Proof.
  induction d; intros acc; cbn [NilEmpty.string_of_uint Pos.of_uint_acc];
    [reflexivity|..];
    (erewrite readDigits_step by (vm_compute; reflexivity));
    rewrite <- IHd; f_equal; f_equal; cbn [Z.of_nat Pos.of_succ_nat Pos.succ]; lia.
Qed.

Lemma readDigits_zero d :
  readDigits 10 (Some 0%Z) (NilEmpty.string_of_uint d)
  = Some (Z.of_N (Pos.of_uint d)).
Proof.
  induction d; cbn [NilEmpty.string_of_uint Pos.of_uint]; [reflexivity|..];
    (erewrite readDigits_step by (vm_compute; reflexivity));
    first [exact IHd | apply readDigits_acc].
Qed.

Lemma readDigits_uint d :
  d <> Decimal.Nil ->
  readDigits 10 None (NilEmpty.string_of_uint d) = Some (Z.of_uint d).
Proof.
  unfold Z.of_uint.
  destruct d; intros Hd; [congruence|..];
    cbn [NilEmpty.string_of_uint Pos.of_uint];
    (erewrite readDigits_step by (vm_compute; reflexivity));
    first [apply readDigits_zero | apply readDigits_acc].
Qed.

Lemma parseInt_uint d :
  d <> Decimal.Nil ->
  parseInt (NilEmpty.string_of_uint d) = Some (Z.of_uint d).
Proof.
  intros Hd. pose proof (string_of_uint_digits d) as Hall.
  rewrite <- (readDigits_uint d Hd).
  destruct (NilEmpty.string_of_uint d) as [|c s] eqn:E.
  - destruct d; try discriminate E. congruence.
  - now apply parseInt_digits.
Qed.

Lemma parseInt_string_of_Z (z : Z) : parseInt (string_of_Z z) = Some z.
Proof.
  unfold string_of_Z, NilZero.string_of_int.
  destruct z as [|p|p]; cbn [Z.to_int].
  - reflexivity.
  - pose proof (DecimalPos.Unsigned.to_uint_nonnil p) as Hnil.
    assert (Hs : NilZero.string_of_uint (Pos.to_uint p)
                 = NilEmpty.string_of_uint (Pos.to_uint p))
      by (unfold NilZero.string_of_uint; destruct (Pos.to_uint p); congruence).
    rewrite Hs, (parseInt_uint _ Hnil). unfold Z.of_uint.
    now rewrite DecimalPos.Unsigned.of_to.
  - pose proof (DecimalPos.Unsigned.to_uint_nonnil p) as Hnil.
    assert (Hs : NilZero.string_of_uint (Pos.to_uint p)
                 = NilEmpty.string_of_uint (Pos.to_uint p))
      by (unfold NilZero.string_of_uint; destruct (Pos.to_uint p); congruence).
    rewrite Hs. unfold parseInt.
    change (trimStart (String "-" (NilEmpty.string_of_uint (Pos.to_uint p))))
      with (String "-" (NilEmpty.string_of_uint (Pos.to_uint p))).
    cbv iota beta.
    rewrite (stripHexPrefix_digits _ (string_of_uint_digits _)).
    rewrite (readDigits_uint _ Hnil). unfold Z.of_uint.
    now rewrite DecimalPos.Unsigned.of_to.
Qed.

Lemma splice1_at {A} (i : nat) (arr : list A) :
  (i < List.length arr)%nat ->
  splice1 (Some (Z.of_nat i)) arr = (firstn i arr ++ skipn (S i) arr)%list.
Proof.
  intros Hi. unfold splice1.
  destruct (Z.ltb_spec (Z.of_nat i) 0); [lia|].
  rewrite Z.min_l by lia. now rewrite Nat2Z.id.
Qed.

(** X21. A delete whose index parameter is the decimal writing of [i]
    removes the entry at position [i] and no other when [i] is within the
    table, saves the table and reports its new length; when [i] is beyond
    the end, and for every negative index, it answers 404 and changes
    nothing. *)
Theorem delete_word_removes_the_indexed_entry :
  forall (st : store),
    (forall i : nat,
        (i < List.length (excludedWords st))%nat ->
        deleteWord (toString (JNum (Z.of_nat i))) st
        = (let words := (firstn i (excludedWords st)
                         ++ skipn (S i) (excludedWords st))%list in
           (mkStore words words,
            mkResponse 200
              (BMessage "Word deleted successfully"
                 (Some (List.length (excludedWords st) - 1)%nat)))))
    /\ (forall z : Z,
          (z < 0 \/ Z.of_nat (List.length (excludedWords st)) <= z)%Z ->
          deleteWord (toString (JNum z)) st
          = (st, mkResponse 404 (BError "Word not found"))).
Proof.
  intros st. split.
  - intros i Hi. unfold deleteWord. cbn [toString].
    rewrite parseInt_string_of_Z.
    cbn [numLt numGe].
    destruct (Z.ltb_spec (Z.of_nat i) 0); [lia|].
    destruct (Z.geb_spec (Z.of_nat i) (Z.of_nat (List.length (excludedWords st))));
      [lia|].
    cbn [orb]. unfold saveExcludedWords. cbn [excludedWords excludedWordsFile].
    rewrite (splice1_at i _ Hi). cbv zeta. f_equal. f_equal. f_equal. f_equal.
    rewrite length_app, length_firstn, length_skipn. lia.
  - intros z Hz. unfold deleteWord. cbn [toString].
    rewrite parseInt_string_of_Z.
    cbn [numLt numGe].
    destruct (Z.ltb_spec z 0); [reflexivity|].
    destruct (Z.geb_spec z (Z.of_nat (List.length (excludedWords st))));
      [reflexivity|lia].
Qed.

End ParseFacts.

(* ------------------------------------------------------------------ *)
(** ** The browser side *)

Module ClientFacts.
Import Client Translate.

Lemma chars_app (c : ascii) (a b : string) :
  In c (list_ascii_of_string (a ++ b))
  <-> In c (list_ascii_of_string a) \/ In c (list_ascii_of_string b).
Proof.
  induction a as [|x a IH]; cbn [String.append list_ascii_of_string In].
  - tauto.
  - rewrite IH. tauto.
Qed.

Lemma replaceChar_removes (c : ascii) (by_ s : string) :
  ~ In c (list_ascii_of_string by_) ->
  ~ In c (list_ascii_of_string (replaceChar c by_ s)).
Proof.
  intros Hby. induction s as [|x s IH]; cbn [replaceChar]; [intros []|].
  destruct (Ascii.eqb_spec x c) as [->|Hne].
  - rewrite chars_app. tauto.
  - cbn [list_ascii_of_string In]. intros [E|Hin]; [now apply Hne|tauto].
Qed.

Lemma replaceChar_keeps_out (d c : ascii) (by_ s : string) :
  ~ In d (list_ascii_of_string by_) ->
  ~ In d (list_ascii_of_string s) ->
  ~ In d (list_ascii_of_string (replaceChar c by_ s)).
Proof.
  intros Hby. induction s as [|x s IH]; cbn [replaceChar]; [tauto|].
  cbn [list_ascii_of_string In]. intros Hs.
  destruct (Ascii.eqb x c).
  - rewrite chars_app. tauto.
  - cbn [list_ascii_of_string In]. tauto.
Qed.

Lemma replaceChar_absent (c : ascii) (by_ s : string) :
  ~ In c (list_ascii_of_string s) -> replaceChar c by_ s = s.
Proof.
  induction s as [|x s IH]; cbn [replaceChar list_ascii_of_string In];
    [reflexivity|].
  intros Hs. destruct (Ascii.eqb_spec x c) as [->|Hne]; [tauto|].
  f_equal. apply IH. tauto.
Qed.

Lemma entity_has_no_quote (c : ascii) (by_ : string) :
  forallb (fun x => negb (Ascii.eqb x c)) (list_ascii_of_string by_) = true ->
  ~ In c (list_ascii_of_string by_).
Proof.
  intros H Hin. rewrite forallb_forall in H. specialize (H c Hin).
  now rewrite Ascii.eqb_refl in H.
Qed.

(** X23. What [escapeHtml] returns holds neither an apostrophe nor a double
    quote; a text without these two characters is returned as it is, angle
    brackets and ampersands included; so escaping twice is escaping once. *)
Theorem escapeHtml_leaves_no_quote :
  forall v : jsval,
    ~ In apostrophe (list_ascii_of_string (escapeHtml v))
    /\ ~ In doubleQuote (list_ascii_of_string (escapeHtml v))
    /\ (forall s : string,
          ~ In apostrophe (list_ascii_of_string s) ->
          ~ In doubleQuote (list_ascii_of_string s) ->
          escapeHtml (JStr s) = s)
    /\ escapeHtml (JStr (escapeHtml v)) = escapeHtml v.
Proof.
  intros v.
  assert (Ha : ~ In apostrophe (list_ascii_of_string (escapeHtml v))).
  { unfold escapeHtml. apply replaceChar_keeps_out.
    - now apply entity_has_no_quote.
    - apply replaceChar_removes. now apply entity_has_no_quote. }
  assert (Hd : ~ In doubleQuote (list_ascii_of_string (escapeHtml v))).
  { unfold escapeHtml. apply replaceChar_removes. now apply entity_has_no_quote. }
  assert (Hsame : forall s : string,
             ~ In apostrophe (list_ascii_of_string s) ->
             ~ In doubleQuote (list_ascii_of_string s) ->
             escapeHtml (JStr s) = s).
  { intros s Hs1 Hs2. unfold escapeHtml. cbn [toString].
    rewrite (replaceChar_absent apostrophe _ s Hs1).
    now apply replaceChar_absent. }
  split; [exact Ha|]. split; [exact Hd|]. split; [exact Hsame|].
  now apply Hsame.
Qed.

Lemma translationTarget_some (source localLang t : string) :
  translationTarget source localLang = Some t ->
  t = localLang
  /\ ((source = "en" /\ In localLang ["hi"; "fr"; "es"; "de"])
      \/ (localLang = "en" /\ In source ["hi"; "fr"; "es"; "de"])).
Proof.
  unfold translationTarget, pairs.
  repeat match goal with
         | |- context [String.eqb ?a ?b] =>
             destruct (String.eqb_spec a b); subst;
             cbn [negb andb orb]
         end;
    try discriminate; intros [= <-]; (split; [reflexivity|]);
    cbn [In]; tauto.
Qed.

Lemma translationTarget_pairs (source localLang t : string) :
  translationTarget source localLang = Some t ->
  t = localLang
  /\ source <> localLang
  /\ ((source = "en" /\ In localLang ["hi"; "fr"; "es"; "de"])
      \/ (localLang = "en" /\ In source ["hi"; "fr"; "es"; "de"]))
  /\ translationTarget localLang source = Some source.
Proof.
  intros H.
  destruct (translationTarget_some _ _ _ H) as [-> Hcases].
  split; [reflexivity|].
  assert (Hall : source <> localLang
                 /\ translationTarget localLang source = Some source).
  { destruct Hcases as [[-> Hin]|[-> Hin]]; cbn [In] in Hin;
      repeat (destruct Hin as [<-|Hin]); try contradiction;
      (split; [discriminate|reflexivity]). }
  destruct Hall as [Hne Hback].
  split; [exact Hne|]. split; [exact Hcases|exact Hback].
Qed.

(** X24. The client translates only between English and one of Hindi,
    French, Spanish and German: the target it picks is the listener's
    language, differs from the language of the message, and the listener's
    own messages are translated the other way round for the sender. *)
Theorem translation_target_is_the_listener_language :
  forall source localLang t : string,
    translationTarget source localLang = Some t ->
    t = localLang
    /\ source <> localLang
    /\ ((source = "en" /\ In localLang ["hi"; "fr"; "es"; "de"])
        \/ (localLang = "en" /\ In source ["hi"; "fr"; "es"; "de"]))
    /\ translationTarget localLang source = Some source.
Proof. intros source localLang t. apply translationTarget_pairs. Qed.

Lemma translation_target_is_the_listener_language_witness :
  translationTarget "fr" "en" = Some "en"
  /\ translationTarget "en" "fr" = Some "fr".
Proof.
  split; [reflexivity|].
  exact (proj2 (proj2 (proj2
    (translation_target_is_the_listener_language "fr" "en" "en" eq_refl)))).
Defined.

Lemma posted_languages (cfg : config) (st : state) (req : call) (w : world)
      (t sl0 tl0 : string) :
  In (PostTranslate t sl0 tl0) (requests (translateRoute cfg st req w)) ->
  langCode "source" (withDefault (csource req) "auto") = Ok sl0
  /\ langCode "target" (withDefault (ctarget req) "en") = Ok tl0.
Proof.
  TranslateFacts.route_cases cfg st req w; intros Hin;
    repeat (destruct Hin as [Hin|Hin]); try discriminate Hin;
    try contradiction; injection Hin as <- <- <-; now split.
Qed.

Lemma translationRequest_some (transcript language : jsval)
      (selected : string) (req : call) :
  translationRequest transcript language selected = Ok (Some req) ->
  exists source target,
    req = mkCall transcript (JStr source) (JStr target) JUndefined JUndefined
    /\ langCode "(msg.language || '')" (jsOr language (JStr EmptyString))
       = Ok source
    /\ translationTarget source (hd EmptyString (splitChar "-" selected))
       = Some target.
Proof.
  unfold translationRequest.
  destruct (langCode _ (jsOr language (JStr EmptyString))) as [source|m];
    cbn [bind]; [|discriminate].
  destruct (translationTarget source _) as [target|] eqn:Ht; [|discriminate].
  destruct (truthy (JStr source) && truthy (JStr target)); [|discriminate].
  intros [= <-]. now exists source, target.
Qed.

(** X25. When the server passes on a request the client has posted for a
    message, the backend is asked to translate from the primary tag of the
    message's language into the primary tag of the listener's language, the
    server's own defaults and tag splitting changing neither; the two differ
    and one of them is English. *)
Theorem client_requests_reach_the_backend_unchanged :
  forall (transcript language : jsval) (selected : string) (req : call)
         (cfg : config) (st : state) (w : world) (t sl tl : string),
    translationRequest transcript language selected = Ok (Some req) ->
    In (PostTranslate t sl tl) (requests (translateRoute cfg st req w)) ->
    csource req = JStr sl
    /\ ctarget req = JStr tl
    /\ (exists tag, language = JStr tag
                    /\ sl = hd EmptyString (splitChar "-" tag))
    /\ tl = hd EmptyString (splitChar "-" selected)
    /\ sl <> tl
    /\ (sl = "en" \/ tl = "en").
Proof.
  intros transcript language selected req cfg st w t sl0 tl0 Hreq Hin.
  destruct (translationRequest_some _ _ _ _ Hreq)
    as (source & target & -> & Hsource & Htarget).
  destruct (posted_languages _ _ _ _ _ _ _ Hin) as [Hs Ht].
  cbn [csource ctarget withDefault langCode] in Hs, Ht.
  destruct (translationTarget_pairs _ _ _ Htarget)
    as (Heq & Hne & Hcases & _).
  assert (Hcodes : hd EmptyString (splitChar "-" source) = source
                   /\ hd EmptyString (splitChar "-" target) = target
                   /\ source <> EmptyString).
  { rewrite Heq.
    destruct Hcases as [[-> Hl]|[-> Hl]]; cbn [In] in Hl;
      repeat (destruct Hl as [<-|Hl]); try contradiction;
      (split; [reflexivity|split; [reflexivity|discriminate]]). }
  destruct Hcodes as (Hcs & Hct & Hfull).
  assert (Htag : exists tag, language = JStr tag
                             /\ source = hd EmptyString (splitChar "-" tag)).
  { unfold jsOr in Hsource.
    destruct (truthy language) eqn:Htr.
    - destruct language as [| |b|z|tag|tr rp]; cbn [langCode] in Hsource;
        try discriminate Hsource.
      exists tag. split; [reflexivity|]. now injection Hsource as <-.
    - cbn in Hsource. injection Hsource as E. now contradiction Hfull. }
  rewrite Hcs in Hs. rewrite Hct in Ht.
  injection Hs as <-. injection Ht as <-.
  cbn [csource ctarget].
  split; [reflexivity|]. split; [reflexivity|]. split; [exact Htag|].
  split; [exact Heq|]. split; [now rewrite Heq|].
  destruct Hcases as [[E _]|[E _]]; [now left|right; now rewrite Heq].
Qed.

Lemma client_requests_reach_the_backend_unchanged_witness :
  "fr" <> "en" /\ ("fr" = "en" \/ "en" = "en").
Proof.
  destruct (client_requests_reach_the_backend_unchanged
              (JStr " bonjour ") (JStr "fr-FR") "en-US"
              (mkCall (JStr " bonjour ") (JStr "fr") (JStr "en")
                      JUndefined JUndefined)
              defaultConfig (Samples.idle true)
              (Samples.env HealthFails (OkBody (JStr "hello")))
              "bonjour" "fr" "en")
    as (_ & _ & _ & _ & Hne & Hen).
  - reflexivity.
  - left. reflexivity.
  - split; [exact Hne|exact Hen].
Defined.

(** X26. The voice [playTranslatedAudio] asks for is a locale of the
    language named: its primary tag begins the language, whatever the case
    of the letters, and a language that is already one of these locales
    keeps it. *)
Theorem voice_matches_the_language :
  forall language locale : string,
    voiceLang language = Some locale ->
    prefix (hd EmptyString (splitChar "-" locale)) (toLowerCase language) = true
    /\ voiceLang locale = Some locale
    /\ voiceLang (toLowerCase language) = Some locale.
Proof.
  intros language locale H.
  assert (Hlow : voiceLang (toLowerCase language) = voiceLang language).
  { unfold voiceLang. now rewrite PrimitiveFacts.toLowerCase_idempotent. }
  rewrite Hlow. unfold voiceLang in H.
  repeat match type of H with
         | (if prefix ?p ?l then _ else _) = _ =>
             destruct (prefix p l) eqn:?
         end;
    try discriminate H; injection H as <-;
    (split; [assumption|split; [reflexivity|]]);
    unfold voiceLang;
    repeat match goal with
           | E : prefix _ _ = _ |- _ => rewrite E; clear E
           end; reflexivity.
Qed.

Lemma voice_matches_the_language_witness :
  prefix "fr" (toLowerCase "FR-ca") = true /\ voiceLang "fr-FR" = Some "fr-FR".
Proof.
  destruct (voice_matches_the_language "FR-ca" "fr-FR" eq_refl)
    as (Hp & Hfix & _).
  split; [exact Hp|exact Hfix].
Defined.

(** X27. Every target the client picks for a translation has a voice, and
    that voice is a locale of the target. *)
Theorem every_translation_target_has_a_voice :
  forall source localLang target : string,
    translationTarget source localLang = Some target ->
    exists locale,
      voiceLang target = Some locale
      /\ langCode "lang" (JStr locale) = Ok target.
Proof.
  intros source localLang target H.
  destruct (translationTarget_some _ _ _ H) as [-> Hcases].
  destruct Hcases as [[_ Hl]|[-> _]].
  - cbn [In] in Hl.
    repeat (destruct Hl as [<-|Hl]; [eexists; split; reflexivity|]).
    contradiction.
  - eexists; split; reflexivity.
Qed.

Lemma every_translation_target_has_a_voice_witness :
  exists locale,
    voiceLang "hi" = Some locale /\ langCode "lang" (JStr locale) = Ok "hi".
Proof.
  exact (every_translation_target_has_a_voice "en" "hi" "hi" eq_refl).
Defined.

End ClientFacts.
